(** * Classification and aggregation of course records

    A shallow embedding of the three analyzers of the repository
    ([ai_analysis.py], [ai_analysis_broad.py], [ai_course_analysis.py]):
    text normalization, the regular expressions of the rule sets, the
    per-row flags and the pandas pipeline that deduplicates and counts. *)

From Stdlib Require Import List NArith ZArith Bool String Ascii Lia.
From Stdlib Require Import Permutation Sorted.
From Stdlib Require DecimalString.
Import ListNotations.

Set Implicit Arguments.

(** ** Text

    A Python [str] is a sequence of code points. *)

Definition text := list N.

(** A literal of the source, as code points. *)
Definition codes (s : string) : text := map N_of_ascii (list_ascii_of_string s).

(** What Python takes from the Unicode character database for code points
    outside ASCII.  The analyzers do not define it; it is an interface
    here, and every result holds for every instance. *)
Class UnicodeTables := {
  (** [str.lower()] of a text that holds a code point above 127 *)
  unicode_lower : text -> text;
  (** [str.isalnum()] of a code point above 127 (the rest of [\w]) *)
  unicode_alnum : N -> bool
}.

Section Text.
Context `{UnicodeTables}.
Local Open Scope N_scope.

Definition is_ascii (c : N) : bool := c <? 128.

Definition ascii_lower (c : N) : N :=
  if (65 <=? c) && (c <=? 90) then c + 32 else c.

(** [text.lower()] *)
Definition lower (s : text) : text :=
  if forallb is_ascii s then map ascii_lower s else unicode_lower s.

(** The character class [a-z0-9]. *)
Definition in_a_z0_9 (c : N) : bool :=
  ((97 <=? c) && (c <=? 122)) || ((48 <=? c) && (c <=? 57)).

(** [NON_ALNUM_RE.sub(" ", s)] with [NON_ALNUM_RE = re.compile(r"[^a-z0-9]+")]:
    every maximal run of code points outside [a-z0-9] becomes one space.
    [in_run] says that the previous code point was already part of a run. *)
Fixpoint NON_ALNUM_RE_sub_from (in_run : bool) (s : text) : text :=
  match s with
  | [] => []
  | c :: t =>
      if in_a_z0_9 c then c :: NON_ALNUM_RE_sub_from false t
      else if in_run then NON_ALNUM_RE_sub_from true t
      else 32 :: NON_ALNUM_RE_sub_from true t
  end.

Definition NON_ALNUM_RE_sub (s : text) : text := NON_ALNUM_RE_sub_from false s.

(** [str.isspace()] of one code point: the separators of [str.split()]. *)
Definition isspace (c : N) : bool :=
  ((9 <=? c) && (c <=? 13)) || ((28 <=? c) && (c <=? 32))
  || (c =? 133) || (c =? 160) || (c =? 5760)
  || ((8192 <=? c) && (c <=? 8202))
  || (c =? 8232) || (c =? 8233) || (c =? 8239) || (c =? 8287) || (c =? 12288).

(** [s.split()]: the maximal runs of code points that are not white space.
    [word] is the current run, last code point first. *)
Fixpoint split_from (word : text) (s : text) : list text :=
  match s with
  | [] => match word with [] => [] | _ => [rev word] end
  | c :: t =>
      if isspace c then
        match word with
        | [] => split_from [] t
        | _ => rev word :: split_from [] t
        end
      else split_from (c :: word) t
  end.

Definition split (s : text) : list text := split_from [] s.

(** [sep.join(words)] *)
Fixpoint join (sep : text) (words : list text) : text :=
  match words with
  | [] => []
  | w :: ws => match ws with [] => w | _ => w ++ sep ++ join sep ws end
  end.

(** [normalize_text], the same function in the three analyzers. *)
Definition normalize_text (s : text) : text :=
  let lowered := lower s in
  let cleaned := NON_ALNUM_RE_sub lowered in
  join [32] (split cleaned).

(** A word of a normalized text: not empty, and over [a-z0-9]. *)
Definition is_word (w : text) : bool :=
  match w with [] => false | _ => forallb in_a_z0_9 w end.

End Text.



(** ** Regular expressions

    The part of Python's [re] syntax that the rule sets use: literal code
    points, [\b], groups, [|], [?] and classes of listed code points. *)

Inductive regex : Type :=
| Empty
| Char (c : N)
| Class (cs : list N)
| Boundary
| Seq (r1 r2 : regex)
| Alt (r1 r2 : regex)
| Optional (r : regex).

Section Regex.
Context `{UnicodeTables}.
Local Open Scope N_scope.

(** Code points with a meaning of their own in a pattern. *)
Definition special (c : N) : bool := existsb (N.eqb c) (codes ".^$*+?{}[]\|()").

(** The inside of [[...]], up to the closing bracket.  A [-] is taken
    only in first place, where it stands for itself; ranges, negation and
    escapes are outside this model ([None]). *)
Fixpoint parse_class (s : text) (acc : list N) : option (list N * text) :=
  match s with
  | [] => None
  | c :: t =>
      if c =? 93 then match acc with [] => None | _ => Some (rev acc, t) end
      else if (c =? 92) || (c =? 94) || (c =? 91) then None
      else if (c =? 45) && negb (match acc with [] => true | _ => false end) then None
      else parse_class t (c :: acc)
  end.

(** Recursive descent over the pattern: alternatives, sequences, atoms.
    [None] is a pattern outside the model or an invalid one.  The code
    points that the parser looks at: 40 and 41 the parentheses, 63 the
    question mark, 91 and 93 the square brackets, 92 the backslash, 98 the
    letter b, 124 the vertical bar, 45 the hyphen, 94 the caret. *)
Fixpoint parse_alt (fuel : nat) (s : text) : option (regex * text) :=
  match fuel with
  | O => None
  | S fuel =>
      match parse_seq fuel s with
      | Some (r1, 124 :: rest) =>
          match parse_alt fuel rest with
          | Some (r2, rest') => Some (Alt r1 r2, rest')
          | None => None
          end
      | other => other
      end
  end
with parse_seq (fuel : nat) (s : text) : option (regex * text) :=
  match fuel with
  | O => None
  | S fuel =>
      match s with
      | [] => Some (Empty, [])
      | c :: _ =>
          if (c =? 41) || (c =? 124) then Some (Empty, s)
          else
            match parse_atom fuel s with
            | Some (a, 63 :: rest) =>
                match parse_seq fuel rest with
                | Some (r, rest') => Some (Seq (Optional a) r, rest')
                | None => None
                end
            | Some (a, rest) =>
                match parse_seq fuel rest with
                | Some (r, rest') => Some (Seq a r, rest')
                | None => None
                end
            | None => None
            end
      end
  end
with parse_atom (fuel : nat) (s : text) : option (regex * text) :=
  match fuel with
  | O => None
  | S fuel =>
      match s with
      | [] => None
      | 92 :: 98 :: t => Some (Boundary, t)
      | 40 :: t =>
          match parse_alt fuel t with
          | Some (r, 41 :: rest) => Some (r, rest)
          | _ => None
          end
      | 91 :: t =>
          match parse_class t [] with
          | Some (cs, rest) => Some (Class cs, rest)
          | None => None
          end
      | c :: t => if special c then None else Some (Char c, t)
      end
  end.

(** [re.compile(pattern)] *)
Definition re_compile (pattern : text) : option regex :=
  match parse_alt (4 * List.length pattern + 4) pattern with
  | Some (r, []) => Some r
  | _ => None
  end.

(** [\w]: letters, digits and the underscore. *)
Definition is_word_char (c : N) : bool :=
  if c <? 128 then
    ((97 <=? c) && (c <=? 122)) || ((65 <=? c) && (c <=? 90))
    || ((48 <=? c) && (c <=? 57)) || (c =? 95)
  else unicode_alnum c.

Definition word_at (c : option N) : bool :=
  match c with Some c => is_word_char c | None => false end.

(** Matching at one position, with backtracking: [prev] is the code point
    before the position, [s] the text from it, and [k] what has to match
    after [r]. *)
Fixpoint match_here (r : regex) (prev : option N) (s : text)
         (k : option N -> text -> bool) : bool :=
  match r with
  | Empty => k prev s
  | Char c =>
      match s with
      | x :: t => (x =? c) && k (Some x) t
      | [] => false
      end
  | Class cs =>
      match s with
      | x :: t => existsb (N.eqb x) cs && k (Some x) t
      | [] => false
      end
  | Boundary => xorb (word_at prev) (word_at (hd_error s)) && k prev s
  | Seq r1 r2 => match_here r1 prev s (fun p s' => match_here r2 p s' k)
  | Alt r1 r2 => match_here r1 prev s k || match_here r2 prev s k
  | Optional r1 => match_here r1 prev s k || k prev s
  end.

Fixpoint search_from (r : regex) (prev : option N) (s : text) : bool :=
  match_here r prev s (fun _ _ => true)
  || match s with
     | [] => false
     | c :: t => search_from r (Some c) t
     end.

(** [pattern.search(text)], as a truth value. *)
Definition search (r : regex) (s : text) : bool := search_from r None s.

(** [keyword in text]: the keyword occurs in the text. *)
Fixpoint starts_with (kw s : text) : bool :=
  match kw, s with
  | [], _ => true
  | _ :: _, [] => false
  | a :: kw', b :: s' => (a =? b) && starts_with kw' s'
  end.

Fixpoint occurs_in (kw s : text) : bool :=
  starts_with kw s
  || match s with
     | [] => false
     | _ :: t => occurs_in kw t
     end.

End Regex.

(** [compile_patterns]: every pattern of the list compiled, or [None] when
    [re.compile] refuses one. *)
Fixpoint compile_patterns (patterns : list text) : option (list regex) :=
  match patterns with
  | [] => Some []
  | p :: ps =>
      match re_compile p, compile_patterns ps with
      | Some r, Some rs => Some (r :: rs)
      | _, _ => None
      end
  end.

Definition compiled (o : option (list regex)) : list regex :=
  match o with Some rs => rs | None => [] end.

(** ** Collaborators outside the source *)

(** The scorer of the [thefuzz] package: [fuzz.partial_ratio(s1, s2)]. *)
Class FuzzyScorer := { partial_ratio : text -> text -> Z }.

(** Modelled from the spec: the ethics matcher of [ethics_analysis.py],
    which is not among the sources; a classifier exposing
    [is_match(title, description) -> bool] with no further contract. *)
Class EthicsMatcher := { is_match : text -> text -> bool }.

(** ** Rows of the course table *)

(** A cell read by [pd.read_csv]: a text, or [None] for a missing value. *)
Definition cell := option text.

Record Row := {
  prefix : cell;
  number : cell;
  title : cell;
  description : cell;
  others : list cell
}.

(** [series.fillna("").astype(str)] on one cell *)
Definition fillna_str (c : cell) : text :=
  match c with Some s => s | None => [] end.

(** [max(xs)] of Python: [None] stands for the [ValueError] on no element. *)
Definition py_max (xs : list Z) : option Z :=
  match xs with
  | [] => None
  | x :: xs' => Some (fold_left Z.max xs' x)
  end.

Section Fuzzy.
Context `{FuzzyScorer}.

(** [max_fuzzy_score], the same function in the three analyzers. *)
Definition max_fuzzy_score (text_norm : text) (keyword_norms : list text) : option Z :=
  match text_norm with
  | [] => Some 0%Z
  | _ => py_max (map (fun keyword => partial_ratio text_norm keyword) keyword_norms)
  end.

End Fuzzy.

(** [f] on every element, or [None] as soon as one application raises. *)
Fixpoint traverse {A B : Type} (f : A -> option B) (l : list A) : option (list B) :=
  match l with
  | [] => Some []
  | x :: t =>
      match f x, traverse f t with
      | Some y, Some ys => Some (y :: ys)
      | _, _ => None
      end
  end.

(** ** Data frames

    The pandas operations of the three [main] functions, on a frame held
    as the list of its rows. *)

(** Order of Python strings: code point by code point. *)
Fixpoint text_leb (a b : text) : bool :=
  match a, b with
  | [], _ => true
  | _ :: _, [] => false
  | x :: a', y :: b' =>
      if (x <? y)%N then true else if (y <? x)%N then false else text_leb a' b'
  end.

Fixpoint text_eqb (a b : text) : bool :=
  match a, b with
  | [], [] => true
  | x :: a', y :: b' => (x =? y)%N && text_eqb a' b'
  | _, _ => false
  end.

(** Missing values are equal to each other when pandas groups, merges and
    drops duplicates, and come last when it sorts. *)
Definition cell_eqb (a b : cell) : bool :=
  match a, b with
  | None, None => true
  | Some x, Some y => text_eqb x y
  | _, _ => false
  end.

Definition cell_leb (a b : cell) : bool :=
  match a, b with
  | _, None => true
  | None, Some _ => false
  | Some x, Some y => text_leb x y
  end.

(** The key of a course: the columns [prefix] and [number]. *)
Definition key := (cell * cell)%type.

Definition key_eqb (a b : key) : bool :=
  cell_eqb (fst a) (fst b) && cell_eqb (snd a) (snd b).

Definition key_leb (a b : key) : bool :=
  if cell_eqb (fst a) (fst b) then cell_leb (snd a) (snd b)
  else cell_leb (fst a) (fst b).

Definition course_key (r : Row) : key := (prefix r, number r).

Section Frames.
Variables A K : Type.
Variable by_ : A -> K.
Variables eqb leb : K -> K -> bool.

(** [df.sort_values(by)], ascending: a stable sort. *)
Fixpoint sort_insert (x : A) (l : list A) : list A :=
  match l with
  | [] => [x]
  | y :: t => if leb (by_ x) (by_ y) then x :: l else y :: sort_insert x t
  end.

Fixpoint sort_values (l : list A) : list A :=
  match l with
  | [] => []
  | x :: t => sort_insert x (sort_values t)
  end.

(** [df.drop_duplicates(subset)]: the first row of every key is kept.
    [seen] holds the keys met so far. *)
Fixpoint drop_duplicates_from (seen : list K) (l : list A) : list A :=
  match l with
  | [] => []
  | x :: t =>
      if existsb (eqb (by_ x)) seen then drop_duplicates_from seen t
      else x :: drop_duplicates_from (by_ x :: seen) t
  end.

Definition drop_duplicates (l : list A) : list A := drop_duplicates_from [] l.

(** The rows of one group. *)
Definition group (k : K) (l : list A) : list A :=
  filter (fun x => eqb (by_ x) k) l.

(** The first row of a key: the row that [drop_duplicates] keeps. *)
Definition first_of (k : K) (l : list A) : option A :=
  find (fun x => eqb (by_ x) k) l.

End Frames.

Section Groupby.
Variables A K : Type.
Variable by_ : A -> K.
Variables eqb leb : K -> K -> bool.

(** The index of [df.groupby(by, dropna=False)]: the distinct keys,
    missing values included, in ascending order. *)
Definition group_keys (l : list A) : list K :=
  sort_values (fun k => k) leb (drop_duplicates (fun k => k) eqb (map by_ l)).

(** [df.groupby(by, dropna=False)[col].any().reset_index()] *)
Definition groupby_any (col : A -> bool) (l : list A) : list (K * bool) :=
  map (fun k => (k, existsb col (group by_ eqb k l))) (group_keys l).

(** [df.groupby(by, dropna=False).size().reset_index()] *)
Definition groupby_size (l : list A) : list (K * nat) :=
  map (fun k => (k, List.length (group by_ eqb k l))) (group_keys l).

(** [left.merge(right, on=by, how="left")] for a [right] frame with one
    more column: every left row, once for each right row of its key, or
    once with a missing value when there is none. *)
Definition merge_left (B : Type) (left : list A) (right : list (K * B))
  : list (A * option B) :=
  flat_map
    (fun x =>
       match filter (fun kb => eqb (fst kb) (by_ x)) right with
       | [] => [(x, None)]
       | found => map (fun kb => (x, Some (snd kb))) found
       end)
    left.

End Groupby.

(** [series.fillna(False)] on one cell *)
Definition fillna_false (o : option bool) : bool :=
  match o with Some b => b | None => false end.

(** ** The precise analyzer ([ai_analysis.py]) *)

Module Precise.

Section Rules.
Local Open Scope string_scope.

(** Primary patterns: explicit AI terms. *)
Definition PRIMARY_PATTERNS : list text := map codes [
  "\bartificial intelligence\b";
  "\bmachine learning\b";
  "\bdeep learning\b";
  "\bgenerative ai\b";
  "\blarge language model(s)?\b";
  "\bllm\b";
  "\bgpt\b";
  "\bchatgpt\b";
  "\bneural network(s)?\b";
  "\breinforcement learning\b";
  "\bnatural language processing\b";
  "\bnlp\b";
  "\bcomputer vision\b";
  "\bintelligent systems?\b";
  "\bai\b";
  "\bagentic\b";
  "\bmulti[- ]agent(s)?\b";
  "\bintelligent agents?\b"
].

(** Secondary patterns: ambiguous terms that require AI context to count. *)
Definition SECONDARY_PATTERNS : list text := map codes [
  "\bethic(s|al)?\b";
  "\bagent(s)?\b";
  "\bautonomous systems?\b"
].

(** Context patterns: AI terms that unlock secondary matches. *)
Definition CONTEXT_PATTERNS : list text := map codes [
  "\bai\b";
  "\bartificial intelligence\b";
  "\bmachine learning\b";
  "\bdeep learning\b";
  "\bgenerative ai\b";
  "\blarge language model(s)?\b";
  "\bllm\b";
  "\bgpt\b";
  "\bchatgpt\b";
  "\bneural network(s)?\b";
  "\bnatural language processing\b";
  "\bnlp\b";
  "\bcomputer vision\b";
  "\bintelligent systems?\b"
].

(** Fuzzy phrases: explicit AI phrases for typo and variation tolerance. *)
Definition FUZZY_PHRASES : list text := map codes [
  "artificial intelligence";
  "machine learning";
  "deep learning";
  "generative ai";
  "large language model";
  "neural network";
  "reinforcement learning";
  "natural language processing";
  "computer vision";
  "intelligent systems";
  "intelligent agent";
  "multi agent";
  "agentic"
].

End Rules.

(** The command line: [--fuzzy-threshold] and [--disable-fuzzy]. *)
Record Args := { fuzzy_threshold : Z; disable_fuzzy : bool }.

(** A row of [df] once [main] has added its two columns. *)
Record Flagged := {
  row : Row;
  is_ai_related : bool;
  is_ethics_related : bool
}.

Definition flagged_key (f : Flagged) : key := course_key (row f).

Section Analyzer.
Context `{UnicodeTables} `{FuzzyScorer} `{EthicsMatcher}.

(** [matches_any]: some compiled pattern is found in the normalized text. *)
Definition matches_any (text_norm : text) (patterns : list regex) : bool :=
  match text_norm with
  | [] => false
  | _ => existsb (fun pattern => search pattern text_norm) patterns
  end.

Definition primary_patterns : list regex := compiled (compile_patterns PRIMARY_PATTERNS).
Definition secondary_patterns : list regex := compiled (compile_patterns SECONDARY_PATTERNS).
Definition context_patterns : list regex := compiled (compile_patterns CONTEXT_PATTERNS).
Definition fuzzy_phrases : list text := map normalize_text FUZZY_PHRASES.

(** One entry of [text_norm_series]. *)
Definition text_norm_of (r : Row) : text :=
  normalize_text (fillna_str (title r) ++ [32%N] ++ fillna_str (description r)).

(** One entry of [keyword_match]. *)
Definition keyword_match (text_norm : text) : bool :=
  let primary_match := matches_any text_norm primary_patterns in
  let secondary_match := matches_any text_norm secondary_patterns in
  let context_match := matches_any text_norm context_patterns in
  primary_match || (secondary_match && context_match).

(** One entry of [fuzzy_match]; [None] when the scoring raises. *)
Definition fuzzy_match (args : Args) (text_norm : text) : option bool :=
  if disable_fuzzy args then Some false
  else
    match max_fuzzy_score text_norm fuzzy_phrases with
    | Some score => Some (fuzzy_threshold args <=? score)%Z
    | None => None
    end.

(** One entry of [df["is_ai_related"] = keyword_match | fuzzy_match]. *)
Definition ai_flag (args : Args) (text_norm : text) : option bool :=
  match fuzzy_match args text_norm with
  | Some f => Some (keyword_match text_norm || f)
  | None => None
  end.

(** One entry of [ethics_match]. *)
Definition ethics_flag (r : Row) : bool :=
  is_match (fillna_str (title r)) (fillna_str (description r)).

Definition classify_row (args : Args) (r : Row) : option Flagged :=
  match ai_flag args (text_norm_of r) with
  | Some ai => Some {| row := r; is_ai_related := ai; is_ethics_related := ethics_flag r |}
  | None => None
  end.

(** [df] with the columns [is_ai_related] and [is_ethics_related]. *)
Definition classify (args : Args) (df : list Row) : option (list Flagged) :=
  traverse (classify_row args) df.

End Analyzer.

(** Deduplicate by prefix and number and keep a single AI flag per course. *)
Definition ai_flags (df : list Flagged) : list (key * bool) :=
  groupby_any flagged_key key_eqb key_leb is_ai_related df.

Definition unique_courses (df : list Flagged) : list (Row * bool) :=
  let sorted := sort_values flagged_key key_leb df in
  let firsts := drop_duplicates flagged_key key_eqb sorted in
  let dropped := map row firsts in
  let merged := merge_left course_key key_eqb dropped (ai_flags df) in
  map (fun p => (fst p, fillna_false (snd p))) merged.

(** Total unique courses per prefix. *)
Definition prefix_totals (df : list Flagged) : list (cell * nat) :=
  sort_values fst cell_leb
    (groupby_size (fun p : Row * bool => prefix (fst p)) cell_eqb cell_leb
       (unique_courses df)).

(** The AI subset output. *)
Definition ai_subset (df : list Flagged) : list (Row * bool) :=
  sort_values (fun p : Row * bool => course_key (fst p)) key_leb
    (filter snd (unique_courses df)).

(** The value of the [total_unique_courses] row of the summary. *)
Definition total_unique_courses (df : list Flagged) : nat :=
  List.length (unique_courses df).

End Precise.

(** ** The legacy keyword analyzer ([ai_course_analysis.py]) *)

Module Legacy.

Section Rules.
Local Open Scope string_scope.

Definition KEYWORDS : list text := map codes [
  "Agent";
  "Agentic";
  "Ethics";
  "LLM";
  "Deep Learning";
  "Generative AI";
  "Artificial Intelligence";
  "Machine Learning";
  "GPT";
  "ChatGPT"
].

End Rules.

(** The command line: [--fuzzy-threshold]; this analyzer has no switch
    that disables the fuzzy matching. *)
Record Args := { fuzzy_threshold : Z }.

(** A row of [df] once [main] has added the column [is_ai_related]. *)
Record Flagged := { row : Row; is_ai_related : bool }.

Definition flagged_key (f : Flagged) : key := course_key (row f).

Section Analyzer.
Context `{UnicodeTables} `{FuzzyScorer}.

(** [contains_keyword]: some keyword occurs in the normalized text. *)
Definition contains_keyword (text_norm : text) (keyword_norms : list text) : bool :=
  match text_norm with
  | [] => false
  | _ => existsb (fun keyword => occurs_in keyword text_norm) keyword_norms
  end.

Definition keyword_norms : list text := map normalize_text KEYWORDS.

Definition text_norm_of (r : Row) : text :=
  normalize_text (fillna_str (title r) ++ [32%N] ++ fillna_str (description r)).

(** One entry of [df["is_ai_related"] = keyword_match | fuzzy_match]. *)
Definition ai_flag (args : Args) (text_norm : text) : option bool :=
  let keyword_match := contains_keyword text_norm keyword_norms in
  match max_fuzzy_score text_norm keyword_norms with
  | Some score => Some (keyword_match || (fuzzy_threshold args <=? score)%Z)
  | None => None
  end.

Definition classify_row (args : Args) (r : Row) : option Flagged :=
  match ai_flag args (text_norm_of r) with
  | Some ai => Some {| row := r; is_ai_related := ai |}
  | None => None
  end.

Definition classify (args : Args) (df : list Row) : option (list Flagged) :=
  traverse (classify_row args) df.

End Analyzer.

(** [unique_courses = df.drop_duplicates(subset=[prefix, number])] *)
Definition unique_courses (df : list Flagged) : list Flagged :=
  drop_duplicates flagged_key key_eqb df.

Definition total_counts (df : list Flagged) : list (cell * nat) :=
  groupby_size (fun f => prefix (row f)) cell_eqb cell_leb (unique_courses df).

Definition ai_counts (df : list Flagged) : list (cell * nat) :=
  groupby_size (fun f => prefix (row f)) cell_eqb cell_leb
    (filter is_ai_related (unique_courses df)).

(** The count of a prefix in a counted frame, [0] when it has no row:
    [pd.concat([...], axis=1).fillna(0)]. *)
Definition count_of (p : cell) (counts : list (cell * nat)) : nat :=
  match find (fun kn => cell_eqb (fst kn) p) counts with
  | Some kn => snd kn
  | None => 0
  end.

(** The prefix summary: prefix, [total_courses], [ai_related_courses]. *)
Definition summary (df : list Flagged) : list (cell * nat * nat) :=
  sort_values (fun r : cell * nat * nat => fst (fst r)) cell_leb
    (map (fun kn => (fst kn, snd kn, count_of (fst kn) (ai_counts df)))
       (total_counts df)).

Definition ai_subset (df : list Flagged) : list Flagged :=
  sort_values flagged_key key_leb
    (drop_duplicates flagged_key key_eqb (filter is_ai_related df)).

End Legacy.

(** ** The broad-recall analyzer ([ai_analysis_broad.py]) *)

Module Broad.

Section Rules.
Local Open Scope string_scope.

(** Broad patterns, each with the label that explains a match. *)
Definition BROAD_PATTERNS : list (text * text) :=
  map (fun lp : string * string => (codes (fst lp), codes (snd lp))) [
  ("artificial_intelligence", "\bartificial intelligence\b");
  ("ai", "\bai\b");
  ("machine_learning", "\bmachine learning\b");
  ("deep_learning", "\bdeep learning\b");
  ("generative_ai", "\bgenerative ai\b");
  ("llm", "\blarge language model(s)?\b");
  ("llm", "\bllm\b");
  ("gpt", "\bgpt\b");
  ("chatgpt", "\bchatgpt\b");
  ("neural_network", "\bneural network(s)?\b");
  ("reinforcement_learning", "\breinforcement learning\b");
  ("nlp", "\bnatural language processing\b");
  ("nlp", "\bnlp\b");
  ("computer_vision", "\bcomputer vision\b");
  ("machine_vision", "\bmachine vision\b");
  ("image_processing", "\bimage processing\b");
  ("pattern_recognition", "\bpattern recognition\b");
  ("data_mining", "\bdata mining\b");
  ("information_retrieval", "\binformation retrieval\b");
  ("expert_systems", "\bexpert systems?\b");
  ("knowledge_representation", "\bknowledge representation\b");
  ("intelligent_systems", "\bintelligent systems?\b");
  ("intelligent_agents", "\bintelligent agents?\b");
  ("autonomous_systems", "\bautonomous systems?\b");
  ("autonomous", "\bautonomous\b");
  ("robotics", "\brobotics?\b");
  ("computational_intelligence", "\bcomputational intelligence\b");
  ("speech_recognition", "\bspeech recognition\b");
  ("recommendation_systems", "\brecommendation systems?\b");
  ("recommender_systems", "\brecommender systems?\b");
  ("decision_support", "\bdecision support\b");
  ("intelligent_control", "\bintelligent control\b");
  ("data_science", "\bdata science\b")
].

Definition BROAD_FUZZY_PHRASES : list text := map codes [
  "artificial intelligence";
  "machine learning";
  "deep learning";
  "generative ai";
  "large language model";
  "neural network";
  "reinforcement learning";
  "natural language processing";
  "computer vision";
  "pattern recognition";
  "data mining";
  "information retrieval";
  "expert systems";
  "knowledge representation";
  "intelligent systems";
  "intelligent agent";
  "autonomous systems";
  "computational intelligence";
  "speech recognition";
  "recommendation systems";
  "recommender systems";
  "decision support";
  "intelligent control";
  "data science"
].

End Rules.

(** The command line: [--fuzzy-threshold] and [--disable-fuzzy]. *)
Record Args := { fuzzy_threshold : Z; disable_fuzzy : bool }.

(** The four columns that [main] adds to a row. *)
Record Candidate := {
  is_ai_candidate : bool;
  ai_candidate_reason : text;
  ai_candidate_fuzzy_phrase : text;
  ai_candidate_fuzzy_score : Z
}.

(** [[(label, re.compile(pattern)) for label, pattern in BROAD_PATTERNS]] *)
Fixpoint compile_labeled (rules : list (text * text)) : option (list (text * regex)) :=
  match rules with
  | [] => Some []
  | (label, pattern) :: rest =>
      match re_compile pattern, compile_labeled rest with
      | Some rx, Some rs => Some ((label, rx) :: rs)
      | _, _ => None
      end
  end.

Definition compiled_rules : list (text * regex) :=
  match compile_labeled BROAD_PATTERNS with Some rs => rs | None => [] end.

(** [sorted(set(hits))] *)
Definition sorted_set (hits : list text) : list text :=
  sort_values (fun l => l) text_leb (drop_duplicates (fun l => l) text_eqb hits).

Section Analyzer.
Context `{UnicodeTables} `{FuzzyScorer}.

Definition fuzzy_phrases : list text := map normalize_text BROAD_FUZZY_PHRASES.

Definition text_norm_of (r : Row) : text :=
  normalize_text (fillna_str (title r) ++ [32%N] ++ fillna_str (description r)).

(** [[label for label, rx in compiled if rx.search(text_norm)]] *)
Definition hits_of (rules : list (text * regex)) (text_norm : text) : list text :=
  map fst (filter (fun lr => search (snd lr) text_norm) rules).

Definition hits (text_norm : text) : list text := hits_of compiled_rules text_norm.

(** One entry of [reasons]. *)
Definition reason (text_norm : text) : text :=
  match hits text_norm with
  | [] => []
  | hs => join (codes ",") (sorted_set hs)
  end.

(** One entry of [matched]: [bool(hits)]. *)
Definition matched (text_norm : text) : bool :=
  match hits text_norm with [] => false | _ => true end.

(** [best_fuzzy_match]: the best score and the first phrase that reaches it. *)
Definition best_fuzzy_match (text_norm : text) (phrases : list text) : Z * text :=
  match text_norm with
  | [] => (0%Z, [])
  | _ =>
      fold_left
        (fun (best : Z * text) phrase =>
           let score := partial_ratio text_norm phrase in
           if (fst best <? score)%Z then (score, phrase) else best)
        phrases ((-1)%Z, [])
  end.

(** One entry each of [fuzzy_scores], [fuzzy_phrases_matched], [fuzzy_match]. *)
Definition fuzzy_columns (args : Args) (text_norm : text) : Z * text * bool :=
  if disable_fuzzy args then (0%Z, [], false)
  else
    let '(score, phrase) := best_fuzzy_match text_norm fuzzy_phrases in
    let reached := (fuzzy_threshold args <=? score)%Z in
    (score, if reached then phrase else [], reached).

(** One entry of [final_reasons]. *)
Definition final_reason (reason : text) (is_fuzzy : bool) (phrase : text) : text :=
  match reason with
  | _ :: _ => reason
  | [] =>
      if is_fuzzy && match phrase with [] => false | _ => true end
      then codes "fuzzy:" ++ phrase
      else []
  end.

Definition candidate (args : Args) (text_norm : text) : Candidate :=
  let '(score, phrase, is_fuzzy) := fuzzy_columns args text_norm in
  {| is_ai_candidate := matched text_norm || is_fuzzy;
     ai_candidate_reason := final_reason (reason text_norm) is_fuzzy phrase;
     ai_candidate_fuzzy_phrase := phrase;
     ai_candidate_fuzzy_score := score |}.

Definition classify_row (args : Args) (r : Row) : Candidate :=
  candidate args (text_norm_of r).

End Analyzer.

End Broad.

(** ** Instances for worked examples *)

(** For texts in ASCII the Unicode tables are never consulted; this
    instance leaves other texts as they are. *)
Definition ascii_tables : UnicodeTables :=
  {| unicode_lower := fun s => s; unicode_alnum := fun _ => false |}.

(** A scorer that agrees with [fuzz.partial_ratio] where one text occurs
    in the other (score 100), and gives 0 elsewhere. *)
Definition exact_scorer : FuzzyScorer :=
  {| partial_ratio := fun s1 s2 =>
       if occurs_in s2 s1 || occurs_in s1 s2 then 100%Z else 0%Z |}.

(** An ethics matcher that matches nothing. *)
Definition no_ethics : EthicsMatcher := {| is_match := fun _ _ => false |}.

Definition course (p n t d : string) : Row :=
  {| prefix := Some (codes p); number := Some (codes n);
     title := Some (codes t); description := Some (codes d); others := [] |}.

(** The rows of the worked examples. *)

Definition ethics_row : Row :=
  course "PHI" "105" "Professional Ethics" "Discusses moral responsibility.".

Definition ethics_ai_row : Row :=
  course "PHI" "105" "Professional Ethics"
    "Discusses moral responsibility. Uses artificial intelligence and raises ethics concerns.".

(** Two snapshots of one course, the first not flagged and the second
    flagged. *)
Definition old_snapshot : Row :=
  course "CS" "599" "Special Topics" "Topics vary by term.".

Definition new_snapshot : Row :=
  course "CS" "599" "Special Topics" "Machine learning for robotics.".

Definition legacy_snapshots : list Legacy.Flagged :=
  [ {| Legacy.row := old_snapshot; Legacy.is_ai_related := false |};
    {| Legacy.row := new_snapshot; Legacy.is_ai_related := true |} ].

Definition precise_snapshots : list Precise.Flagged :=
  [ {| Precise.row := old_snapshot; Precise.is_ai_related := false;
       Precise.is_ethics_related := false |};
    {| Precise.row := new_snapshot; Precise.is_ai_related := true;
       Precise.is_ethics_related := false |} ].

(** A row with neither title nor description. *)
Definition blank_row : Row :=
  {| prefix := Some (codes "CS"); number := Some (codes "100");
     title := None; description := None; others := [] |}.

(** A row whose word "reagents" holds the keyword "agent". *)
Definition reagents_row : Row :=
  course "CHM" "151" "General Chemistry" "Chemical reagents and reactions.".

Definition default_args : Precise.Args :=
  {| Precise.fuzzy_threshold := 95; Precise.disable_fuzzy := false |}.

(** ** What a pattern matches *)

Section RegexMeaning.
Context `{UnicodeTables}.

(** [matches r prev s prev' s']: at a position with [prev] before it and
    [s] from it, [r] matches up to the position with [prev'] before it and
    [s'] from it. *)
Inductive matches : regex -> option N -> text -> option N -> text -> Prop :=
| m_empty prev s : matches Empty prev s prev s
| m_char c prev t : matches (Char c) prev (c :: t) (Some c) t
| m_class cs x prev t : In x cs -> matches (Class cs) prev (x :: t) (Some x) t
| m_boundary prev s :
    word_at prev <> word_at (hd_error s) -> matches Boundary prev s prev s
| m_seq r1 r2 p0 s0 p1 s1 p2 s2 :
    matches r1 p0 s0 p1 s1 -> matches r2 p1 s1 p2 s2 ->
    matches (Seq r1 r2) p0 s0 p2 s2
| m_alt_l r1 r2 p0 s0 p1 s1 :
    matches r1 p0 s0 p1 s1 -> matches (Alt r1 r2) p0 s0 p1 s1
| m_alt_r r1 r2 p0 s0 p1 s1 :
    matches r2 p0 s0 p1 s1 -> matches (Alt r1 r2) p0 s0 p1 s1
| m_optional_some r p0 s0 p1 s1 :
    matches r p0 s0 p1 s1 -> matches (Optional r) p0 s0 p1 s1
| m_optional_none r prev s : matches (Optional r) prev s prev s.

(** The pattern is found in the text: it matches from some position. *)
Definition found (r : regex) (s : text) : Prop :=
  exists before rest prev' rest',
    s = before ++ rest /\ matches r (last (map Some before) None) rest prev' rest'.

End RegexMeaning.

(** ** The unique courses of the precise analyzer, by key *)

Definition any_ai_related (k : key) (df : list Precise.Flagged) : bool :=
  existsb Precise.is_ai_related (group Precise.flagged_key key_eqb k df).

(** The rows that [drop_duplicates] keeps after the sort. *)
Definition canonical_rows (df : list Precise.Flagged) : list Precise.Flagged :=
  drop_duplicates Precise.flagged_key key_eqb
    (sort_values Precise.flagged_key key_leb df).

(** The row and the flag of the course of a key, as functions of the
    whole table. *)
Definition course_of (df : list Precise.Flagged) (k : key) : list (Row * bool) :=
  match first_of Precise.flagged_key key_eqb k df with
  | Some f => [(Precise.row f, any_ai_related k df)]
  | None => []
  end.

(** ** The empty-prefix report ([read_empty_prefixes], [log_empty_prefix])

    A CSV file is held as the rows that [csv.reader] yields, each a list
    of cells; [None] is a path that does not exist. *)

Definition csv_file := option (list (list text)).

(** [s.lstrip()] and [s.strip()] *)
Fixpoint lstrip (s : text) : text :=
  match s with
  | [] => []
  | c :: t => if isspace c then lstrip t else s
  end.

Definition strip (s : text) : text := rev (lstrip (rev (lstrip s))).

Section EmptyPrefixes.
Context `{UnicodeTables}.

(** [first_cell in {"term", "prefix"}] *)
Definition is_header (first_cell : text) : bool :=
  text_eqb first_cell (codes "term") || text_eqb first_cell (codes "prefix").

(** The prefix that one row of the file contributes, if any: one turn
    of the loop of [read_empty_prefixes]. *)
Definition prefix_of_row (row : list text) : option text :=
  match row with
  | [] => None
  | first :: _ =>
      let first_cell := lower (strip first) in
      if is_header first_cell then None
      else
        let prefix := if (3 <=? List.length row)%nat then strip (nth 2 row [])
                      else strip first in
        match prefix with
        | [] => None
        | _ => Some prefix
        end
  end.

Fixpoint collect_prefixes (rows : list (list text)) : list text :=
  match rows with
  | [] => []
  | row :: rest =>
      match prefix_of_row row with
      | Some prefix => prefix :: collect_prefixes rest
      | None => collect_prefixes rest
      end
  end.

(** [read_empty_prefixes] of the legacy analyzer. *)
Definition read_empty_prefixes (file : csv_file) : list text :=
  match file with
  | None => []
  | Some rows =>
      sort_values (fun p => p) text_leb
        (drop_duplicates (fun p => p) text_eqb (collect_prefixes rows))
  end.

End EmptyPrefixes.

(** The rows of the gap report that the legacy [main] writes. *)
Definition gap_report (empty_prefixes : list text) : list (list text) :=
  [codes "prefix"] :: map (fun prefix => [prefix]) empty_prefixes.

(** One call of [log_empty_prefix] of the scraper: the header when the
    file does not exist yet, then the row. *)
Record EmptyPrefix := {
  term_label : text;
  term_code : text;
  empty_prefix : text;
  error : text
}.

Definition log_empty_prefix (file : csv_file) (e : EmptyPrefix) : csv_file :=
  let row := [term_label e; term_code e; empty_prefix e; error e] in
  match file with
  | None => Some [map codes ["term"; "term_code"; "prefix"; "error"]%string; row]
  | Some rows => Some (rows ++ [row])
  end.

(** ** The candidate list of the broad-recall analyzer *)

(** A row of [df] with the columns that the broad [main] adds. *)
Definition candidate_row := (Row * Broad.Candidate)%type.

(** [df[df["is_ai_candidate"]].drop_duplicates(...).sort_values(...)] *)
Definition broad_subset (df : list candidate_row) : list candidate_row :=
  sort_values (fun cr : candidate_row => course_key (fst cr)) key_leb
    (drop_duplicates (fun cr : candidate_row => course_key (fst cr)) key_eqb
       (filter (fun cr : candidate_row => Broad.is_ai_candidate (snd cr)) df)).

(** ** Words and phrases *)

(** The maximal runs of code points of [a-z0-9] of a text; [word] is the
    current run, last code point first. *)
Fixpoint alnum_runs_from (word : text) (s : text) : list text :=
  match s with
  | [] => match word with [] => [] | _ => [rev word] end
  | c :: t =>
      if in_a_z0_9 c then alnum_runs_from (c :: word) t
      else
        match word with
        | [] => alnum_runs_from [] t
        | _ => rev word :: alnum_runs_from [] t
        end
  end.

(** The words of a text: the runs of its lower-cased form. *)
Definition words `{UnicodeTables} (s : text) : list text :=
  alnum_runs_from [] (lower s).

(** The pattern [\b...\b] around literal code points. *)
Fixpoint literal (w : text) (rest : regex) : regex :=
  match w with
  | [] => rest
  | c :: w' => Seq (Char c) (literal w' rest)
  end.

Definition phrase_pattern (w : text) : regex :=
  Seq Boundary (literal w (Seq Boundary Empty)).

(** The primary patterns that are one literal phrase between two [\b],
    as lists of words. *)
Definition plain_primary_phrases : list (list text) :=
  map (map codes)
    [ ["artificial"; "intelligence"]; ["machine"; "learning"]; ["deep"; "learning"];
      ["generative"; "ai"]; ["llm"]; ["gpt"]; ["chatgpt"];
      ["reinforcement"; "learning"]; ["natural"; "language"; "processing"];
      ["nlp"]; ["computer"; "vision"]; ["ai"]; ["agentic"] ]%string.

(** [l] holds [ps] as consecutive elements. *)
Definition contiguous {X : Type} (ps l : list X) : Prop :=
  exists l1 l2, l = l1 ++ ps ++ l2.

(** ** Patterns as lists of phrases

    A pattern without repetition matches finitely many sequences of
    literal code points and word boundaries. *)

Inductive item : Type :=
| Lit (c : N)
| Bnd.

(** The pattern that matches one sequence. *)
Fixpoint seq_of (e : list item) : regex :=
  match e with
  | [] => Empty
  | Lit c :: e' => Seq (Char c) (seq_of e')
  | Bnd :: e' => Seq Boundary (seq_of e')
  end.

(** The sequences of a pattern. *)
Fixpoint expand (r : regex) : list (list item) :=
  match r with
  | Empty => [[]]
  | Char c => [[Lit c]]
  | Class cs => map (fun c => [Lit c]) cs
  | Boundary => [[Bnd]]
  | Seq r1 r2 => flat_map (fun e1 => map (app e1) (expand r2)) (expand r1)
  | Alt r1 r2 => expand r1 ++ expand r2
  | Optional r1 => expand r1 ++ [[]]
  end.

(** The sequence of [\bw\b]. *)
Definition phrase_items (w : text) : list item := Bnd :: map Lit w ++ [Bnd].

Section PhraseLists.
Local Open Scope string_scope.

(** The phrases of the primary patterns of the precise analyzer on a
    normalized text, as lists of words. *)
Definition primary_phrases : list (list text) :=
  map (map codes)
    [ ["artificial"; "intelligence"]; ["machine"; "learning"]; ["deep"; "learning"];
      ["generative"; "ai"];
      ["large"; "language"; "models"]; ["large"; "language"; "model"];
      ["llm"]; ["gpt"]; ["chatgpt"];
      ["neural"; "networks"]; ["neural"; "network"];
      ["reinforcement"; "learning"]; ["natural"; "language"; "processing"];
      ["nlp"]; ["computer"; "vision"];
      ["intelligent"; "systems"]; ["intelligent"; "system"];
      ["ai"]; ["agentic"];
      ["multi"; "agents"]; ["multi"; "agent"];
      ["intelligent"; "agents"]; ["intelligent"; "agent"] ].

(** The sequences with a hyphen, which a normalized text never holds. *)
Definition hyphenated : list text := map codes ["multi-agents"; "multi-agent"].

(** The phrases of the rules of the broad-recall analyzer, rule by rule. *)
Definition broad_phrases : list (text * list (list text)) :=
  map (fun lp : string * list (list string) => (codes (fst lp), map (map codes) (snd lp)))
    [ ("artificial_intelligence", [["artificial"; "intelligence"]]);
      ("ai", [["ai"]]);
      ("machine_learning", [["machine"; "learning"]]);
      ("deep_learning", [["deep"; "learning"]]);
      ("generative_ai", [["generative"; "ai"]]);
      ("llm", [["large"; "language"; "models"]; ["large"; "language"; "model"]]);
      ("llm", [["llm"]]);
      ("gpt", [["gpt"]]);
      ("chatgpt", [["chatgpt"]]);
      ("neural_network", [["neural"; "networks"]; ["neural"; "network"]]);
      ("reinforcement_learning", [["reinforcement"; "learning"]]);
      ("nlp", [["natural"; "language"; "processing"]]);
      ("nlp", [["nlp"]]);
      ("computer_vision", [["computer"; "vision"]]);
      ("machine_vision", [["machine"; "vision"]]);
      ("image_processing", [["image"; "processing"]]);
      ("pattern_recognition", [["pattern"; "recognition"]]);
      ("data_mining", [["data"; "mining"]]);
      ("information_retrieval", [["information"; "retrieval"]]);
      ("expert_systems", [["expert"; "systems"]; ["expert"; "system"]]);
      ("knowledge_representation", [["knowledge"; "representation"]]);
      ("intelligent_systems", [["intelligent"; "systems"]; ["intelligent"; "system"]]);
      ("intelligent_agents", [["intelligent"; "agents"]; ["intelligent"; "agent"]]);
      ("autonomous_systems", [["autonomous"; "systems"]; ["autonomous"; "system"]]);
      ("autonomous", [["autonomous"]]);
      ("robotics", [["robotics"]; ["robotic"]]);
      ("computational_intelligence", [["computational"; "intelligence"]]);
      ("speech_recognition", [["speech"; "recognition"]]);
      ("recommendation_systems",
       [["recommendation"; "systems"]; ["recommendation"; "system"]]);
      ("recommender_systems", [["recommender"; "systems"]; ["recommender"; "system"]]);
      ("decision_support", [["decision"; "support"]]);
      ("intelligent_control", [["intelligent"; "control"]]);
      ("data_science", [["data"; "science"]]) ].

End PhraseLists.

(** ** Names for the statements *)

(** The prefix column of a row of the legacy analyzer. *)
Definition legacy_prefix (f : Legacy.Flagged) : cell := prefix (Legacy.row f).

(** A text that does not start with white space. *)
Definition no_lead (s : text) : Prop :=
  match s with [] => True | c :: _ => isspace c = false end.

(** The row that [log_empty_prefix] writes. *)
Definition logged_row (e : EmptyPrefix) : list text :=
  [term_label e; term_code e; empty_prefix e; error e].

(** [bool(s)] of a text. *)
Definition not_empty (s : text) : bool :=
  match s with [] => false | _ => true end.

(** The text of a row before normalization. *)
Definition joint_text (r : Row) : text :=
  fillna_str (title r) ++ [32%N] ++ fillna_str (description r).

(** The keywords of the legacy analyzer that are also primary phrases
    of the precise analyzer. *)
Definition shared_phrases : list text :=
  map codes ["agentic"; "llm"; "deep learning"; "generative ai";
             "artificial intelligence"; "machine learning"; "gpt"; "chatgpt"]%string.

(** A phrase of at least one word, all of them words of a normalized text. *)
Definition phrase_ok (ps : list text) : bool :=
  match ps with [] => false | _ => forallb is_word ps end.

(** A log of the scraper with a repeated prefix, spaces and a blank prefix. *)
Definition logged (t c p e : string) : EmptyPrefix :=
  {| term_label := codes t; term_code := codes c;
     empty_prefix := codes p; error := codes e |}.

Definition scraper_log : list EmptyPrefix :=
  [ logged "Fall 2025" "1257" " ZZZ " "no results";
    logged "Spring 2026" "1261" "ABC" "timeout";
    logged "Fall 2025" "1257" "ZZZ" "no results";
    logged "Spring 2026" "1261" "  " "no results" ].

(** A title and a description whose words meet at the field boundary. *)
Definition deep_row : Row := course "CS" "101" "Going Deep" "Learning from data.".

(** * The scraper

    The part of [scrape.py] that decides what is fetched and written.  The
    browser is a parameter: what it shows may change from one request to
    the next, so each request is numbered. *)

Module Scraper.

Definition BASE : text := codes "https://catalog.nau.edu/Courses".

Definition TERM_CODES : list (text * Z) :=
  [(codes "Fall 2025", 1257%Z); (codes "Spring 2026", 1261%Z)].

Record Course := {
  term : text;
  catalog_year : option text;
  prefix : text;
  number : text;
  title : text;
  description : option text;
  units : option text;
  sections_offered : option text;
  url : text
}.

(** What [get_course_links] sees after one [driver.get] of a results
    page. *)
Inductive results_page : Type :=
| TimedOut
| NoCourses
| Anchors (hrefs : list (option text))
| ResultsRaised.

(** What [scrape_course] reads off a course page. *)
Record CoursePage := {
  page_catalog_year : option text;
  page_prefix : text;
  page_number : text;
  page_title : text;
  page_description : option text;
  page_units : option text;
  page_sections_offered : option text
}.

(** How one call of [scrape_course] ends. *)
Inductive course_result : Type :=
| Scraped (page : CoursePage)
| InvalidSession
| WebDriverError
| CourseRaised.

Class Browser := {
  (** the results page of a prefix and a term code, at a request *)
  results_at : nat -> text -> Z -> results_page;
  (** the page of a course link, at a request *)
  course_at : nat -> text -> course_result;
  (** whether [make_driver] gives a new session, at a request *)
  make_driver_at : nat -> bool
}.

(** [str(term_code)] *)
Definition str_int (n : Z) : text :=
  codes (DecimalString.NilZero.string_of_int (Z.to_int n)).

(** [href] made absolute. *)
Definition absolute (href : text) : text :=
  if starts_with (codes "course?") href then BASE ++ codes "/" ++ href else href.

Fixpoint collect_links (hrefs : list (option text)) : list text :=
  match hrefs with
  | [] => []
  | Some (c :: h) :: rest => absolute (c :: h) :: collect_links rest
  | _ :: rest => collect_links rest
  end.

(** [load_existing_urls], on the rows of the course file as the scraper
    writes it. *)
Definition load_existing_urls (file : option (list Course)) : list text :=
  match file with
  | None => []
  | Some rows =>
      drop_duplicates (fun u => u) text_eqb (filter not_empty (map url rows))
  end.

(** [write_csv]: nothing is written for no rows. *)
Definition write_csv (rows : list (text * Course)) (file : option (list Course))
  : option (list Course) :=
  match rows with
  | [] => file
  | _ => Some (map snd rows)
  end.

(** [existing_rows[link] = row] *)
Fixpoint dict_set (d : list (text * Course)) (link : text) (row : Course)
  : list (text * Course) :=
  match d with
  | [] => [(link, row)]
  | (k, v) :: d' =>
      if text_eqb k link then (k, row) :: d' else (k, v) :: dict_set d' link row
  end.

Record State := {
  clock : nat;
  seen_urls : list text;
  existing_rows : list (text * Course);
  appended : list Course;
  empty_log : csv_file;
  new_total : nat
}.

Definition tick (s : State) : State :=
  {| clock := S (clock s); seen_urls := seen_urls s;
     existing_rows := existing_rows s; appended := appended s;
     empty_log := empty_log s; new_total := new_total s |}.

(** The effect of a scraped row on the run. *)
Definition record_course (overwrite : bool) (link : text) (row : Course) (s : State)
  : State :=
  if overwrite then
    {| clock := clock s; seen_urls := link :: seen_urls s;
       existing_rows := dict_set (existing_rows s) link row; appended := appended s;
       empty_log := empty_log s; new_total := new_total s |}
  else
    {| clock := clock s; seen_urls := link :: seen_urls s;
       existing_rows := existing_rows s; appended := appended s ++ [row];
       empty_log := empty_log s; new_total := new_total s |}.

Definition log_empty (e : EmptyPrefix) (s : State) : State :=
  {| clock := clock s; seen_urls := seen_urls s;
     existing_rows := existing_rows s; appended := appended s;
     empty_log := log_empty_prefix (empty_log s) e; new_total := new_total s |}.

Definition add_new (new_count : nat) (s : State) : State :=
  {| clock := clock s; seen_urls := seen_urls s;
     existing_rows := existing_rows s; appended := appended s;
     empty_log := empty_log s; new_total := new_total s + new_count |}.

(** A loop goes on, or an exception leaves [main]. *)
Inductive progress (X : Type) : Type :=
| Continue (x : X)
| Raise (s : State).
Arguments Raise {X} s.

Section Run.
Context `{Browser}.

(** [get_course_links]: the attempts that are left, from a request on;
    the links, or [None] for an exception, with the next request. *)
Fixpoint get_course_links_from (attempts : nat) (request : nat) (prefix : text)
         (term_code : Z) : nat * option (list text) :=
  match attempts with
  | 0 => (request, Some [])
  | S more =>
      match results_at request prefix term_code with
      | TimedOut =>
          match more with
          | 0 => (S request, Some [])
          | _ => get_course_links_from more (S request) prefix term_code
          end
      | NoCourses => (S request, Some [])
      | Anchors hrefs =>
          (S request,
           Some (sort_values (fun l => l) text_leb
                   (drop_duplicates (fun l => l) text_eqb (collect_links hrefs))))
      | ResultsRaised => (S request, None)
      end
  end.

Definition get_course_links (request : nat) (prefix : text) (term_code : Z)
           (retries : nat) : nat * option (list text) :=
  get_course_links_from (S retries) request prefix term_code.

(** The [Course] that [scrape_course] returns for a page. *)
Definition scrape_course (page : CoursePage) (url : text) (term_label : text) : Course :=
  {| term := term_label;
     catalog_year := page_catalog_year page;
     prefix := page_prefix page;
     number := page_number page;
     title := page_title page;
     description := page_description page;
     units := page_units page;
     sections_offered := page_sections_offered page;
     url := url |}.

(** One turn of [for link in links]. *)
Definition scrape_link (overwrite : bool) (term_label : text)
           (sn : State * nat) (link : text) : progress (State * nat) :=
  let (s, new_count) := sn in
  if existsb (text_eqb link) (seen_urls s) then Continue (s, new_count)
  else
    match course_at (clock s) link with
    | Scraped page =>
        let row := scrape_course page link term_label in
        Continue (record_course overwrite link row (tick s), S new_count)
    | InvalidSession =>
        if make_driver_at (S (clock s)) then Continue (tick (tick s), new_count)
        else Raise (tick (tick s))
    | WebDriverError => Continue (tick s, new_count)
    | CourseRaised => Raise (tick s)
    end.

Fixpoint for_each {X Y : Type} (body : X -> Y -> progress X) (l : list Y) (x : X)
  : progress X :=
  match l with
  | [] => Continue x
  | y :: rest =>
      match body x y with
      | Continue x' => for_each body rest x'
      | Raise s => Raise s
      end
  end.

Definition set_clock (request : nat) (s : State) : State :=
  {| clock := request; seen_urls := seen_urls s;
     existing_rows := existing_rows s; appended := appended s;
     empty_log := empty_log s; new_total := new_total s |}.

(** One turn of [for prefix in prefixes]. *)
Definition scrape_prefix (overwrite : bool) (term_label : text) (term_code : Z)
           (s : State) (prefix : text) : progress State :=
  match get_course_links (clock s) prefix term_code 2 with
  | (request, None) => Raise (set_clock request s)
  | (request, Some []) =>
      Continue (log_empty {| term_label := term_label; term_code := str_int term_code;
                             empty_prefix := prefix; error := codes "empty" |}
                          (set_clock request s))
  | (request, Some links) =>
      match for_each (scrape_link overwrite term_label) links (set_clock request s, 0) with
      | Continue (s', new_count) =>
          Continue (if 0 <? new_count then add_new new_count s' else s')
      | Raise s' => Raise s'
      end
  end.

(** One turn of [for term_label, term_code in TERM_CODES.items()]. *)
Definition scrape_term (overwrite : bool) (prefixes : list text)
           (s : State) (t : text * Z) : progress State :=
  for_each (scrape_prefix overwrite (fst t) (snd t)) prefixes s.

(** What a run leaves: the two files, and the total that is printed when
    the run reaches its end. *)
Record Outcome := {
  courses_csv : option (list Course);
  empty_prefixes_csv : csv_file;
  total : option nat
}.

Definition rows_of (file : option (list Course)) : list Course :=
  match file with Some rows => rows | None => [] end.

(** [main], from the prefixes that [load_prefixes] gave and the two files
    as they are found, once the first browser session is open. *)
Definition main (overwrite : bool) (prefixes : list text)
           (courses : option (list Course)) (log : csv_file) : Outcome :=
  let existing_urls := if overwrite then [] else load_existing_urls courses in
  let start := {| clock := 0; seen_urls := existing_urls; existing_rows := [];
                  appended := []; empty_log := log; new_total := 0 |} in
  match for_each (scrape_term overwrite prefixes) TERM_CODES start with
  | Continue s =>
      if overwrite then
        {| courses_csv := write_csv (existing_rows s) courses;
           empty_prefixes_csv := empty_log s;
           total := Some (List.length (existing_rows s)) |}
      else
        {| courses_csv := Some (rows_of courses ++ appended s);
           empty_prefixes_csv := empty_log s;
           total := Some (List.length existing_urls + new_total s) |}
  | Raise s =>
      {| courses_csv := if overwrite then courses
                        else Some (rows_of courses ++ appended s);
         empty_prefixes_csv := empty_log s;
         total := None |}
  end.

End Run.

End Scraper.

(** A list as [get_course_links] returns it. *)
Definition is_link_list (links : list text) : Prop :=
  StronglySorted (fun a b => text_leb a b = true) links
  /\ NoDup links
  /\ Forall (fun l => l <> []) links.

(** What [get_course_links] returns for the page of its last request. *)
Definition links_of_page (page : Scraper.results_page) : option (list text) :=
  match page with
  | Scraper.TimedOut | Scraper.NoCourses => Some []
  | Scraper.Anchors hrefs => Some (Broad.sorted_set (Scraper.collect_links hrefs))
  | Scraper.ResultsRaised => None
  end.

(** The rows that a run has scraped so far. *)
Definition written (overwrite : bool) (s : Scraper.State) : list Scraper.Course :=
  if overwrite then map snd (Scraper.existing_rows s) else Scraper.appended s.

(** A row of the scraper: its link, and the label of one of the terms. *)
Definition is_scraped_row (c : Scraper.Course) : Prop :=
  Scraper.url c <> []
  /\ exists t, In t Scraper.TERM_CODES /\ Scraper.term c = fst t.

(** What holds of a run at every turn of its loops; [new_count] is the
    count of the prefix at hand. *)
Record run_invariant (overwrite : bool) (existing_urls : list text) (new_count : nat)
       (s : Scraper.State) : Prop := {
  inv_seen : Scraper.seen_urls s
             = rev (map Scraper.url (written overwrite s)) ++ existing_urls;
  inv_nodup : NoDup (Scraper.seen_urls s);
  inv_keys : map fst (Scraper.existing_rows s)
             = map Scraper.url (map snd (Scraper.existing_rows s));
  inv_mode : if overwrite then Scraper.appended s = [] else Scraper.existing_rows s = [];
  inv_count : Scraper.new_total s + new_count = List.length (written overwrite s);
  inv_rows : Forall is_scraped_row (written overwrite s)
}.

(** The row of the empty-prefix file for a term and a prefix. *)
Definition empty_entry (t : text * Z) (prefix : text) : EmptyPrefix :=
  {| term_label := fst t; term_code := Scraper.str_int (snd t);
     empty_prefix := prefix; error := codes "empty" |}.

(** [get_course_links] finds no link for the prefix in the term. *)
Definition no_links `{Scraper.Browser} (t : text * Z) (prefix : text) : bool :=
  match snd (Scraper.get_course_links 0 prefix (snd t) 2) with
  | Some [] => true
  | _ => false
  end.

(** The rows that a run logs when the site answers the same way at every
    request. *)
Definition empty_entries `{Scraper.Browser} (prefixes : list text) : list EmptyPrefix :=
  flat_map (fun t => flat_map (fun p => if no_links t p then [empty_entry t p] else [])
                              prefixes)
           Scraper.TERM_CODES.

(** A catalog that lists one course of the prefix CS, the same in every
    term, and no course of any other prefix. *)
Definition catalog_page : Scraper.CoursePage :=
  {| Scraper.page_catalog_year := Some (codes "2025-2026");
     Scraper.page_prefix := codes "CS";
     Scraper.page_number := codes "470";
     Scraper.page_title := codes "Artificial Intelligence";
     Scraper.page_description := Some (codes "Search, planning and learning.");
     Scraper.page_units := Some (codes "3");
     Scraper.page_sections_offered := None |}.

Definition catalog : Scraper.Browser :=
  {| Scraper.results_at := fun _ prefix _ =>
       if text_eqb prefix (codes "CS")
       then Scraper.Anchors [Some (codes "course?courseId=1"); None;
                             Some (codes "course?courseId=1")]
       else Scraper.NoCourses;
     Scraper.course_at := fun _ _ => Scraper.Scraped catalog_page;
     Scraper.make_driver_at := fun _ => true |}.

(** * Facts and theorems *)

(** ** Normalization: normal forms *)

Section TextFacts.
Context `{UnicodeTables}.
Local Open Scope N_scope.

Ltac ranges :=
  unfold in_a_z0_9, isspace, is_ascii, ascii_lower in *;
  repeat match goal with
         | H : _ && _ = true |- _ => apply andb_true_iff in H; destruct H
         | H : _ || _ = true |- _ => apply orb_true_iff in H; destruct H
         | H : (_ <=? _) = true |- _ => apply N.leb_le in H
         | H : (_ <? _) = true |- _ => apply N.ltb_lt in H
         | H : (_ =? _) = true |- _ => apply N.eqb_eq in H
         end.

Lemma in_a_z0_9_is_ascii c : in_a_z0_9 c = true -> is_ascii c = true.
Proof. intros Hc; ranges; apply N.ltb_lt; lia. Qed.

Lemma in_a_z0_9_lower c : in_a_z0_9 c = true -> ascii_lower c = c.
Proof.
  intros Hc. unfold ascii_lower.
  destruct ((65 <=? c) && (c <=? 90)) eqn:E; [| reflexivity].
  ranges; lia.
Qed.

Lemma in_a_z0_9_not_space c : in_a_z0_9 c = true -> isspace c = false.
Proof.
  intros Hc. destruct (isspace c) eqn:E; [| reflexivity].
  ranges; lia.
Qed.

Lemma sub_from_chars b s :
  Forall (fun c => in_a_z0_9 c = true \/ c = 32) (NON_ALNUM_RE_sub_from b s).
Proof.
  revert b; induction s as [| c t IH]; intros b; simpl; [constructor |].
  destruct (in_a_z0_9 c) eqn:E.
  - constructor; [now left | apply IH].
  - destruct b; [apply IH | constructor; [now right | apply IH]].
Qed.

Lemma split_from_words acc s :
  Forall (fun c => in_a_z0_9 c = true) acc ->
  Forall (fun c => in_a_z0_9 c = true \/ c = 32) s ->
  Forall (fun w => is_word w = true) (split_from acc s).
Proof.
  assert (W : forall a l, Forall (fun c => in_a_z0_9 c = true) (a :: l) ->
                          is_word (rev (a :: l)) = true).
  { intros a l Hl. unfold is_word.
    destruct (rev (a :: l)) eqn:E.
    - apply (f_equal (@List.length N)) in E. rewrite length_rev in E. discriminate.
    - rewrite <- E. apply forallb_forall. intros x Hx.
      apply in_rev in Hx. rewrite Forall_forall in Hl. now apply Hl. }
  revert acc; induction s as [| c t IH]; intros acc Hacc Hs; simpl.
  - destruct acc; constructor; [now apply W | constructor].
  - inversion Hs as [| ? ? Hc Ht]; subst.
    destruct (isspace c) eqn:E.
    + destruct acc.
      * apply IH; [constructor | assumption].
      * constructor; [now apply W | apply IH; [constructor | assumption]].
    + apply IH; [| assumption].
      constructor; [| assumption].
      destruct Hc as [Hc | ->]; [assumption | discriminate].
Qed.

Lemma normalized_words s :
  Forall (fun w => is_word w = true) (split (NON_ALNUM_RE_sub (lower s))).
Proof. apply split_from_words; [constructor | apply sub_from_chars]. Qed.

Lemma is_word_inv w :
  is_word w = true -> w <> [] /\ Forall (fun c => in_a_z0_9 c = true) w.
Proof.
  destruct w as [| a l]; [discriminate |]. unfold is_word. intros Hw.
  split; [discriminate |]. apply Forall_forall. now apply forallb_forall.
Qed.

Lemma join_cons sep w ws :
  join sep (w :: ws) = w ++ match ws with [] => [] | _ => sep ++ join sep ws end.
Proof. destruct ws; simpl; [now rewrite app_nil_r | reflexivity]. Qed.

Lemma join_chars ws :
  Forall (fun w => is_word w = true) ws ->
  Forall (fun c => in_a_z0_9 c = true \/ c = 32) (join [32] ws).
Proof.
  induction 1 as [| w ws Hw Hws IH]; [constructor |].
  rewrite join_cons. apply Forall_app. split.
  - apply is_word_inv in Hw. destruct Hw as [_ Hw].
    revert Hw. apply Forall_impl. now left.
  - destruct ws; [constructor |]. constructor; [now right | exact IH].
Qed.

Lemma lower_normal s :
  Forall (fun c => in_a_z0_9 c = true \/ c = 32) s -> lower s = s.
Proof.
  intros Hs. unfold lower.
  replace (forallb is_ascii s) with true.
  - induction Hs as [| c t Hc Ht IH]; [reflexivity |]. simpl. f_equal; [| exact IH].
    destruct Hc as [Hc | ->]; [now apply in_a_z0_9_lower | reflexivity].
  - symmetry. apply forallb_forall. intros c Hc.
    rewrite Forall_forall in Hs. destruct (Hs c Hc) as [Ha | ->].
    + now apply in_a_z0_9_is_ascii.
    + reflexivity.
Qed.

Lemma sub_from_word b w rest :
  is_word w = true ->
  NON_ALNUM_RE_sub_from b (w ++ rest) = w ++ NON_ALNUM_RE_sub_from false rest.
Proof.
  intros Hw. apply is_word_inv in Hw. destruct Hw as [Hne Hw].
  revert b. induction Hw as [| c t Hc Ht IH]; intros b; [congruence |].
  simpl. rewrite Hc. f_equal.
  destruct t as [| d t']; [reflexivity |]. apply IH. discriminate.
Qed.

Lemma sub_from_join b ws :
  Forall (fun w => is_word w = true) ws ->
  NON_ALNUM_RE_sub_from b (join [32] ws) = join [32] ws.
Proof.
  intros Hws. revert b. induction Hws as [| w ws Hw Hws IH]; intros b; [reflexivity |].
  rewrite join_cons, sub_from_word by assumption. f_equal.
  destruct ws as [| w' ws']; [reflexivity |].
  change (NON_ALNUM_RE_sub_from false ([32] ++ join [32] (w' :: ws')))
    with (32 :: NON_ALNUM_RE_sub_from true (join [32] (w' :: ws'))).
  now rewrite IH.
Qed.

Lemma split_from_word acc w rest :
  Forall (fun c => in_a_z0_9 c = true) w ->
  split_from acc (w ++ rest) = split_from (rev w ++ acc) rest.
Proof.
  intros Hw. revert acc. induction Hw as [| c t Hc Ht IH]; intros acc; [reflexivity |].
  simpl. rewrite (in_a_z0_9_not_space _ Hc), IH, <- app_assoc. reflexivity.
Qed.

Lemma split_join ws :
  Forall (fun w => is_word w = true) ws -> split (join [32] ws) = ws.
Proof.
  unfold split. induction 1 as [| w ws Hw Hws IH]; [reflexivity |].
  rewrite join_cons. destruct (is_word_inv _ Hw) as [Hne Hc].
  rewrite split_from_word, app_nil_r by assumption.
  assert (R : rev (rev w) = w) by apply rev_involutive.
  destruct (rev w) as [| a l] eqn:E; [simpl in R; congruence |].
  destruct ws as [| w' ws'].
  - simpl. now rewrite <- R.
  - simpl app. cbn [split_from]. cbn [isspace]. simpl.
    rewrite <- R. f_equal. exact IH.
Qed.

(** A text made of words joined by one space is left as it is. *)
Lemma normalize_text_join ws :
  Forall (fun w => is_word w = true) ws ->
  normalize_text (join [32] ws) = join [32] ws.
Proof.
  intros Hws. unfold normalize_text, NON_ALNUM_RE_sub.
  rewrite lower_normal by now apply join_chars.
  rewrite sub_from_join by assumption.
  now rewrite split_join.
Qed.

End TextFacts.

(** ** Patterns *)


Section RegexFacts.
Context `{UnicodeTables}.

Lemma match_here_spec r : forall prev s k,
  match_here r prev s k = true <->
  exists prev' s', matches r prev s prev' s' /\ k prev' s' = true.
Proof.
  induction r as [| c | cs | | r1 IH1 r2 IH2 | r1 IH1 r2 IH2 | r1 IH1];
    intros prev s k; simpl.
  - split.
    + intros Hk. exists prev, s. split; [constructor | exact Hk].
    + intros (p & s' & Hm & Hk). inversion Hm; subst. exact Hk.
  - destruct s as [| x t].
    + split; [discriminate |]. intros (p & s' & Hm & _). inversion Hm.
    + rewrite andb_true_iff, N.eqb_eq. split.
      * intros [-> Hk]. exists (Some c), t. split; [constructor | exact Hk].
      * intros (p & s' & Hm & Hk). inversion Hm; subst. now split.
  - destruct s as [| x t].
    + split; [discriminate |]. intros (p & s' & Hm & _). inversion Hm.
    + rewrite andb_true_iff, existsb_exists. split.
      * intros [(y & Hy & E) Hk]. apply N.eqb_eq in E. subst y.
        exists (Some x), t. split; [now constructor | exact Hk].
      * intros (p & s' & Hm & Hk). inversion Hm; subst. split; [| exact Hk].
        exists x. split; [assumption | apply N.eqb_refl].
  - rewrite andb_true_iff. split.
    + intros [Hx Hk]. exists prev, s. split; [| exact Hk]. constructor.
      destruct (word_at prev), (word_at (hd_error s)); simpl in Hx; congruence.
    + intros (p & s' & Hm & Hk). inversion Hm; subst. split; [| exact Hk].
      destruct (word_at p), (word_at (hd_error s')); simpl; congruence.
  - rewrite IH1. split.
    + intros (p1 & s1 & Hm1 & Hk1). apply IH2 in Hk1.
      destruct Hk1 as (p2 & s2 & Hm2 & Hk). exists p2, s2.
      split; [econstructor; eassumption | exact Hk].
    + intros (p2 & s2 & Hm & Hk). inversion Hm; subst.
      eexists _, _. split; [eassumption |]. apply IH2. eauto.
  - rewrite orb_true_iff, IH1, IH2. split.
    + intros [(p & s' & Hm & Hk) | (p & s' & Hm & Hk)]; exists p, s'; split;
        solve [assumption | now apply m_alt_l | now apply m_alt_r].
    + intros (p & s' & Hm & Hk). inversion Hm; subst; [left | right]; eauto.
  - rewrite orb_true_iff, IH1. split.
    + intros [(p & s' & Hm & Hk) | Hk].
      * exists p, s'. split; [now apply m_optional_some | exact Hk].
      * exists prev, s. split; [apply m_optional_none | exact Hk].
    + intros (p & s' & Hm & Hk). inversion Hm; subst; [left | right]; eauto.
Qed.

Lemma last_shift (c : N) before prev :
  last (map Some (c :: before)) prev = last (map Some before) (Some c).
Proof.
  assert (D : forall (l : list (option N)) a d d', last (a :: l) d = last (a :: l) d').
  { induction l as [| b l IH]; intros a d d'; [reflexivity |].
    change (last (b :: l) d = last (b :: l) d'). apply IH. }
  destruct before as [| b before']; [reflexivity |].
  change (last (Some b :: map Some before') prev
          = last (Some b :: map Some before') (Some c)).
  apply D.
Qed.

Lemma search_from_spec r : forall s prev,
  search_from r prev s = true <->
  exists before rest prev' rest',
    s = before ++ rest /\ matches r (last (map Some before) prev) rest prev' rest'.
Proof.
  induction s as [| c t IH]; intros prev; simpl; rewrite orb_true_iff, match_here_spec.
  - split.
    + intros [(p & s' & Hm & _) | Hf]; [| discriminate].
      exists [], [], p, s'. now split.
    + intros (before & rest & p & s' & E & Hm).
      symmetry in E. apply app_eq_nil in E. destruct E; subst. left. eauto.
  - rewrite IH. split.
    + intros [(p & s' & Hm & _) | (before & rest & p & s' & E & Hm)].
      * exists [], (c :: t), p, s'. now split.
      * exists (c :: before), rest, p, s'. split; [simpl; congruence |].
        now rewrite last_shift.
    + intros (before & rest & p & s' & E & Hm). destruct before as [| b before'].
      * left. simpl in *. subst rest. eauto.
      * right. simpl in E. injection E as -> ->.
        exists before', rest, p, s'. split; [reflexivity |].
        rewrite <- (last_shift b before' prev). exact Hm.
Qed.

(** [pattern.search(text)] succeeds exactly when the pattern is found. *)
Lemma search_found r s : search r s = true <-> found r s.
Proof. apply search_from_spec. Qed.

Lemma starts_with_spec kw : forall s,
  starts_with kw s = true <-> exists after, s = kw ++ after.
Proof.
  induction kw as [| a kw IH]; intros s; simpl.
  - split; [intros _; now exists s | reflexivity].
  - destruct s as [| b s'].
    + split; [discriminate | intros (after & E); discriminate].
    + rewrite andb_true_iff, N.eqb_eq, IH. split.
      * intros [-> (after & ->)]. now exists after.
      * intros (after & E). injection E as -> ->. split; [reflexivity | now exists after].
Qed.

(** [keyword in text] holds exactly when the text is some text, the
    keyword, and some text. *)
Lemma occurs_in_spec kw : forall s,
  occurs_in kw s = true <-> exists before after, s = before ++ kw ++ after.
Proof.
  induction s as [| c t IH]; simpl; rewrite orb_true_iff, starts_with_spec.
  - split.
    + intros [(after & E) | Hf]; [| discriminate]. now exists [], after.
    + intros (before & after & E). left.
      symmetry in E. apply app_eq_nil in E. destruct E as [-> E]. now exists after.
  - rewrite IH. split.
    + intros [(after & E) | (before & after & ->)].
      * now exists [], after.
      * now exists (c :: before), after.
    + intros (before & after & E). destruct before as [| b before'].
      * left. now exists after.
      * right. injection E as -> ->. now exists before', after.
Qed.

End RegexFacts.

(** ** Facts about the data-frame operations *)

Section DuplicateFacts.
Variables A K : Type.
Variable by_ : A -> K.
Variable eqb : K -> K -> bool.
Hypothesis eqb_eq : forall a b, eqb a b = true <-> a = b.

Lemma eqb_refl a : eqb a a = true.
Proof. now apply eqb_eq. Qed.

Lemma eqb_sym a b : eqb a b = eqb b a.
Proof.
  destruct (eqb a b) eqn:E1, (eqb b a) eqn:E2; try reflexivity.
  - apply eqb_eq in E1. subst. now rewrite eqb_refl in E2.
  - apply eqb_eq in E2. subst. now rewrite eqb_refl in E1.
Qed.

Lemma eqb_neq a b : eqb a b = false <-> a <> b.
Proof.
  split.
  - intros E ->. now rewrite eqb_refl in E.
  - intros N. destruct (eqb a b) eqn:E; [| reflexivity]. now apply eqb_eq in E.
Qed.

Lemma existsb_eqb_In k ks : existsb (eqb k) ks = true <-> In k ks.
Proof.
  rewrite existsb_exists. split.
  - intros (y & Hy & E). apply eqb_eq in E. now subst.
  - intros Hk. exists k. split; [assumption | apply eqb_refl].
Qed.

Lemma first_of_group k l : first_of by_ eqb k l = hd_error (group by_ eqb k l).
Proof.
  induction l as [| x t IH]; [reflexivity |].
  unfold first_of, group in *. simpl. now destruct (eqb (by_ x) k).
Qed.

Lemma drop_duplicates_from_in seen l x :
  In x (drop_duplicates_from by_ eqb seen l) ->
  first_of by_ eqb (by_ x) l = Some x /\ ~ In (by_ x) seen.
Proof.
  revert seen. induction l as [| y t IH]; intros seen; simpl; [tauto |].
  destruct (existsb (eqb (by_ y)) seen) eqn:E.
  - intros Hx. destruct (IH _ Hx) as [Hf Hs]. split; [| exact Hs].
    apply existsb_eqb_In in E.
    replace (eqb (by_ y) (by_ x)) with false; [exact Hf |].
    symmetry. apply eqb_neq. congruence.
  - intros [-> | Hx].
    + rewrite eqb_refl. split; [reflexivity |].
      rewrite <- existsb_eqb_In. congruence.
    + destruct (IH _ Hx) as [Hf Hs]. simpl in Hs.
      replace (eqb (by_ y) (by_ x)) with false; [tauto |].
      symmetry. apply eqb_neq. tauto.
Qed.

Lemma first_of_drop_duplicates_from seen l k :
  first_of by_ eqb k (drop_duplicates_from by_ eqb seen l)
  = if existsb (eqb k) seen then None else first_of by_ eqb k l.
Proof.
  revert seen. induction l as [| y t IH]; intros seen; simpl.
  - now destruct (existsb (eqb k) seen).
  - destruct (existsb (eqb (by_ y)) seen) eqn:E.
    + rewrite IH. destruct (existsb (eqb k) seen) eqn:Ek; [reflexivity |].
      destruct (eqb (by_ y) k) eqn:Ey; [| reflexivity].
      apply eqb_eq in Ey. congruence.
    + simpl. rewrite IH. simpl. rewrite (eqb_sym k (by_ y)).
      destruct (eqb (by_ y) k) eqn:Ey; simpl.
      * apply eqb_eq in Ey. subst k. now rewrite E.
      * reflexivity.
Qed.

Lemma first_of_drop_duplicates l k :
  first_of by_ eqb k (drop_duplicates by_ eqb l) = first_of by_ eqb k l.
Proof. apply first_of_drop_duplicates_from. Qed.

Lemma first_of_some k l x : first_of by_ eqb k l = Some x -> In x l /\ by_ x = k.
Proof.
  intros Hf. apply find_some in Hf. now rewrite eqb_eq in Hf.
Qed.

Lemma first_of_in x l : In x l -> exists y, first_of by_ eqb (by_ x) l = Some y.
Proof.
  intros Hx. destruct (first_of by_ eqb (by_ x) l) eqn:E; [eauto |].
  apply (find_none _ _ E) in Hx. now rewrite eqb_refl in Hx.
Qed.

Lemma drop_duplicates_in l x :
  In x (drop_duplicates by_ eqb l) <-> first_of by_ eqb (by_ x) l = Some x.
Proof.
  split.
  - intros Hx. now apply drop_duplicates_from_in in Hx.
  - intros Hf. rewrite <- first_of_drop_duplicates in Hf.
    now apply first_of_some in Hf.
Qed.

Lemma drop_duplicates_from_nodup seen l :
  NoDup (map by_ (drop_duplicates_from by_ eqb seen l)).
Proof.
  revert seen. induction l as [| y t IH]; intros seen; simpl; [constructor |].
  destruct (existsb (eqb (by_ y)) seen); [apply IH |].
  simpl. constructor; [| apply IH].
  intros Hy. apply in_map_iff in Hy. destruct Hy as (z & Ez & Hz).
  apply drop_duplicates_from_in in Hz. destruct Hz as [_ Hz].
  apply Hz. rewrite Ez. now left.
Qed.

Lemma drop_duplicates_from_sorted (R : A -> A -> Prop) seen l :
  StronglySorted R l -> StronglySorted R (drop_duplicates_from by_ eqb seen l).
Proof.
  intros Hl. revert seen. induction Hl as [| y t Ht IH Hy]; intros seen; simpl.
  - constructor.
  - destruct (existsb (eqb (by_ y)) seen); [apply IH |].
    constructor; [apply IH |].
    apply Forall_forall. intros z Hz.
    apply drop_duplicates_from_in in Hz. destruct Hz as [Hz _].
    apply first_of_some in Hz. rewrite Forall_forall in Hy. now apply Hy.
Qed.

End DuplicateFacts.

Section SortFacts.
Variables A K : Type.
Variable by_ : A -> K.
Variables eqb leb : K -> K -> bool.
Hypothesis eqb_eq : forall a b, eqb a b = true <-> a = b.
Hypothesis leb_total : forall a b, leb a b = true \/ leb b a = true.
Hypothesis leb_trans : forall a b c, leb a b = true -> leb b c = true -> leb a c = true.

Let le (x y : A) : Prop := leb (by_ x) (by_ y) = true.

Lemma leb_refl a : leb a a = true.
Proof. now destruct (leb_total a a). Qed.

Lemma sort_insert_perm x l : Permutation (sort_insert by_ leb x l) (x :: l).
Proof.
  induction l as [| y t IH]; simpl; [reflexivity |].
  destruct (leb (by_ x) (by_ y)); [reflexivity |].
  rewrite IH. apply perm_swap.
Qed.

Lemma sort_values_perm l : Permutation (sort_values by_ leb l) l.
Proof.
  induction l as [| x t IH]; simpl; [reflexivity |].
  rewrite sort_insert_perm. now constructor.
Qed.

Lemma sort_insert_sorted x l :
  StronglySorted le l -> StronglySorted le (sort_insert by_ leb x l).
Proof.
  induction 1 as [| y t Ht IH Hy]; simpl.
  - constructor; constructor.
  - destruct (leb (by_ x) (by_ y)) eqn:E.
    + constructor; [now constructor |]. constructor; [exact E |].
      revert Hy. apply Forall_impl. intros z Hz. unfold le in *. eauto.
    + constructor; [exact IH |].
      assert (Hxy : le y x).
      { unfold le. destruct (leb_total (by_ x) (by_ y)); congruence. }
      apply (Permutation_Forall (x := x :: t)).
      * symmetry. apply sort_insert_perm.
      * now constructor.
Qed.

Lemma sort_values_sorted l : StronglySorted le (sort_values by_ leb l).
Proof.
  induction l as [| x t IH]; simpl; [constructor | now apply sort_insert_sorted].
Qed.

(** The sort is stable: the rows of one key keep their order. *)
Lemma group_sort_insert k x l :
  group by_ eqb k (sort_insert by_ leb x l) = group by_ eqb k (x :: l).
Proof.
  induction l as [| y t IH]; [reflexivity |].
  simpl sort_insert. destruct (leb (by_ x) (by_ y)) eqn:E; [reflexivity |].
  change (group by_ eqb k (y :: sort_insert by_ leb x t))
    with (if eqb (by_ y) k then y :: group by_ eqb k (sort_insert by_ leb x t)
          else group by_ eqb k (sort_insert by_ leb x t)).
  rewrite IH. simpl.
  destruct (eqb (by_ x) k) eqn:Ex, (eqb (by_ y) k) eqn:Ey; try reflexivity.
  apply eqb_eq in Ex, Ey. rewrite Ex, Ey, leb_refl in E. discriminate.
Qed.

Lemma group_sort_values k l :
  group by_ eqb k (sort_values by_ leb l) = group by_ eqb k l.
Proof.
  induction l as [| x t IH]; [reflexivity |].
  simpl sort_values. rewrite group_sort_insert. simpl. now rewrite IH.
Qed.

Lemma first_of_sort_values k l :
  first_of by_ eqb k (sort_values by_ leb l) = first_of by_ eqb k l.
Proof. now rewrite !first_of_group, group_sort_values. Qed.

End SortFacts.

Section GroupFacts.
Variables A K : Type.
Variable by_ : A -> K.
Variables eqb leb : K -> K -> bool.
Hypothesis eqb_eq : forall a b, eqb a b = true <-> a = b.

Lemma group_keys_perm l :
  Permutation (group_keys by_ eqb leb l)
              (drop_duplicates (fun k => k) eqb (map by_ l)).
Proof. apply sort_values_perm. Qed.

Lemma group_keys_nodup l : NoDup (group_keys by_ eqb leb l).
Proof.
  apply (Permutation_NoDup (Permutation_sym (group_keys_perm l))).
  rewrite <- (map_id (drop_duplicates _ _ _)).
  now apply drop_duplicates_from_nodup.
Qed.

Lemma group_keys_in l k : In k (group_keys by_ eqb leb l) <-> In k (map by_ l).
Proof.
  rewrite (Permutation_in' eq_refl (group_keys_perm l)).
  rewrite (drop_duplicates_in (fun k => k) eqb eqb_eq). split.
  - intros Hf. now apply (first_of_some (fun k => k) eqb eqb_eq) in Hf.
  - intros Hk. destruct (first_of_in (fun k => k) eqb eqb_eq k _ Hk) as (y & Hy).
    rewrite Hy. f_equal. now apply (first_of_some (fun k => k) eqb eqb_eq) in Hy.
Qed.

Lemma group_cons k x l :
  group by_ eqb k (x :: l)
  = if eqb (by_ x) k then x :: group by_ eqb k l else group by_ eqb k l.
Proof. reflexivity. Qed.

Lemma sum_cons n ns : list_sum (n :: ns) = n + list_sum ns.
Proof. reflexivity. Qed.

(** Over keys without repetition, exactly one group takes a given row. *)
Lemma one_group x ks :
  NoDup ks -> In (by_ x) ks ->
  list_sum (map (fun k => if eqb (by_ x) k then 1 else 0) ks) = 1.
Proof.
  induction 1 as [| k ks Hk Hks IH]; simpl; [tauto |].
  intros [-> | Hin].
  - rewrite (eqb_refl eqb eqb_eq). f_equal.
    clear IH Hks. induction ks as [| k' ks IH]; [reflexivity |].
    simpl in *. destruct (eqb (by_ x) k') eqn:E.
    + apply eqb_eq in E. symmetry in E. tauto.
    + apply IH. tauto.
  - destruct (eqb (by_ x) k) eqn:E.
    + apply eqb_eq in E. congruence.
    + now apply IH.
Qed.

Lemma sum_group_sizes ks l :
  NoDup ks -> (forall x, In x l -> In (by_ x) ks) ->
  list_sum (map (fun k => List.length (group by_ eqb k l)) ks) = List.length l.
Proof.
  intros Hks. induction l as [| x t IH]; intros Hl.
  - simpl. induction ks; [reflexivity | simpl; apply IHks; now inversion Hks].
  - assert (E : list_sum (map (fun k => List.length (group by_ eqb k (x :: t))) ks)
               = list_sum (map (fun k => if eqb (by_ x) k then 1 else 0) ks)
                 + list_sum (map (fun k => List.length (group by_ eqb k t)) ks)).
    { clear. induction ks as [| k ks IHk]; [reflexivity |].
      cbn [map]. rewrite !sum_cons, IHk, group_cons.
      destruct (eqb (by_ x) k); cbn [List.length]; lia. }
    rewrite E, IH by (intros; apply Hl; now right).
    rewrite (one_group x Hks) by (apply Hl; now left). reflexivity.
Qed.

(** The sizes of the groups add up to the number of rows. *)
Lemma groupby_size_sum l :
  list_sum (map snd (groupby_size by_ eqb leb l)) = List.length l.
Proof.
  unfold groupby_size. rewrite map_map. simpl.
  apply sum_group_sizes; [apply group_keys_nodup |].
  intros x Hx. apply group_keys_in. now apply in_map.
Qed.

(** Every row is counted in the group of its key, whatever the key. *)
Lemma groupby_size_in l x :
  In x l ->
  In (by_ x, List.length (group by_ eqb (by_ x) l)) (groupby_size by_ eqb leb l).
Proof.
  intros Hx. unfold groupby_size.
  apply (in_map (fun k => (k, List.length (group by_ eqb k l)))).
  apply group_keys_in. now apply in_map.
Qed.

Lemma lookup_unique (B : Type) (f : K -> B) k ks :
  NoDup ks -> In k ks ->
  filter (fun kb : K * B => eqb (fst kb) k) (map (fun k => (k, f k)) ks) = [(k, f k)].
Proof.
  induction 1 as [| k' ks Hk Hks IH]; simpl; [tauto |].
  intros [-> | Hin].
  - rewrite (eqb_refl eqb eqb_eq). f_equal.
    clear IH Hks. induction ks as [| k'' ks IH]; [reflexivity |].
    simpl in *. destruct (eqb k'' k) eqn:E.
    + apply eqb_eq in E. tauto.
    + apply IH. tauto.
  - destruct (eqb k' k) eqn:E.
    + apply eqb_eq in E. congruence.
    + now apply IH.
Qed.

(** Merging the per-group flags back: every left row whose key is a key
    of the grouped frame gets the flag of its group, once. *)
Lemma merge_left_groupby_any (A' : Type) (by' : A' -> K) col (left : list A') l :
  (forall x, In x left -> In (by' x) (map by_ l)) ->
  merge_left by' eqb left (groupby_any by_ eqb leb col l)
  = map (fun x => (x, Some (existsb col (group by_ eqb (by' x) l)))) left.
Proof.
  unfold merge_left, groupby_any.
  induction left as [| x t IH]; intros Hl; [reflexivity |].
  cbn [flat_map]. rewrite IH by (intros; apply Hl; now right).
  rewrite (lookup_unique (fun k => existsb col (group by_ eqb k l))).
  - reflexivity.
  - apply group_keys_nodup.
  - apply group_keys_in. apply Hl. now left.
Qed.

End GroupFacts.

(** ** The order and the equality of keys *)

Lemma text_eqb_eq a : forall b, text_eqb a b = true <-> a = b.
Proof.
  induction a as [| x a IH]; intros [| y b]; simpl; try (split; congruence).
  rewrite andb_true_iff, N.eqb_eq, IH.
  split; [intros [-> ->]; reflexivity | intros E; injection E; auto].
Qed.

Lemma cell_eqb_eq (a b : cell) : cell_eqb a b = true <-> a = b.
Proof.
  destruct a as [x |], b as [y |]; simpl; try (split; congruence).
  rewrite text_eqb_eq. split; congruence.
Qed.

Lemma key_eqb_eq (a b : key) : key_eqb a b = true <-> a = b.
Proof.
  destruct a as [a1 a2], b as [b1 b2]. unfold key_eqb. simpl.
  rewrite andb_true_iff, !cell_eqb_eq.
  split; [intros [-> ->]; reflexivity | intros E; injection E; auto].
Qed.

Lemma text_leb_total a : forall b, text_leb a b = true \/ text_leb b a = true.
Proof.
  induction a as [| x a IH]; intros [| y b]; simpl; auto.
  destruct (N.ltb_spec x y), (N.ltb_spec y x); auto.
Qed.

Lemma text_leb_trans a : forall b c,
  text_leb a b = true -> text_leb b c = true -> text_leb a c = true.
Proof.
  induction a as [| x a IH]; intros [| y b] [| z c]; simpl; try congruence.
  destruct (N.ltb_spec x y), (N.ltb_spec y x), (N.ltb_spec y z), (N.ltb_spec z y),
    (N.ltb_spec x z), (N.ltb_spec z x); try congruence; try lia.
  apply IH.
Qed.

Lemma text_leb_antisym a : forall b,
  text_leb a b = true -> text_leb b a = true -> a = b.
Proof.
  induction a as [| x a IH]; intros [| y b]; simpl; try congruence.
  destruct (N.ltb_spec x y), (N.ltb_spec y x); try congruence; try lia.
  intros H1 H2. f_equal; [lia | now apply IH].
Qed.

Lemma cell_leb_total (a b : cell) : cell_leb a b = true \/ cell_leb b a = true.
Proof. destruct a, b; simpl; auto. apply text_leb_total. Qed.

Lemma cell_leb_trans (a b c : cell) :
  cell_leb a b = true -> cell_leb b c = true -> cell_leb a c = true.
Proof. destruct a, b, c; simpl; try congruence. apply text_leb_trans. Qed.

Lemma cell_leb_antisym (a b : cell) :
  cell_leb a b = true -> cell_leb b a = true -> a = b.
Proof.
  destruct a, b; simpl; try congruence.
  intros H1 H2. f_equal. now apply text_leb_antisym.
Qed.

Lemma key_leb_total (a b : key) : key_leb a b = true \/ key_leb b a = true.
Proof.
  unfold key_leb. rewrite (eqb_sym cell_eqb cell_eqb_eq (fst b) (fst a)).
  destruct (cell_eqb (fst a) (fst b)); apply cell_leb_total.
Qed.

Lemma key_leb_trans (a b c : key) :
  key_leb a b = true -> key_leb b c = true -> key_leb a c = true.
Proof.
  unfold key_leb.
  destruct (cell_eqb (fst a) (fst b)) eqn:Eab, (cell_eqb (fst b) (fst c)) eqn:Ebc,
    (cell_eqb (fst a) (fst c)) eqn:Eac;
    repeat match goal with
           | E : cell_eqb _ _ = true |- _ => apply cell_eqb_eq in E
           | E : cell_eqb _ _ = false |- _ => apply (eqb_neq cell_eqb cell_eqb_eq) in E
           end;
    intros H1 H2; try congruence.
  - eapply cell_leb_trans; eassumption.
  - rewrite Eac in H1. exfalso. apply Ebc. now apply cell_leb_antisym.
  - eapply cell_leb_trans; eassumption.
Qed.

Lemma key_leb_antisym (a b : key) :
  key_leb a b = true -> key_leb b a = true -> a = b.
Proof.
  unfold key_leb. rewrite (eqb_sym cell_eqb cell_eqb_eq (fst b) (fst a)).
  destruct a as [a1 a2], b as [b1 b2]. simpl.
  destruct (cell_eqb a1 b1) eqn:E; intros H1 H2.
  - apply cell_eqb_eq in E. f_equal; [assumption | now apply cell_leb_antisym].
  - apply (eqb_neq cell_eqb cell_eqb_eq) in E. exfalso. apply E.
    now apply cell_leb_antisym.
Qed.

(** ** The unique courses of the precise analyzer *)

Lemma canonical_rows_in df f : In f (canonical_rows df) -> In f df.
Proof.
  intros Hf. apply (drop_duplicates_in _ _ key_eqb_eq) in Hf.
  apply (first_of_some _ _ key_eqb_eq) in Hf. destruct Hf as [Hf _].
  revert Hf. apply Permutation_in, sort_values_perm.
Qed.

(** The merge finds one flag for every course: the pipeline in closed form. *)
Lemma unique_courses_closed df :
  Precise.unique_courses df
  = map (fun f => (Precise.row f, any_ai_related (Precise.flagged_key f) df))
        (canonical_rows df).
Proof.
  unfold Precise.unique_courses, Precise.ai_flags.
  rewrite (merge_left_groupby_any Precise.flagged_key key_eqb key_leb key_eqb_eq course_key).
  - fold (canonical_rows df). rewrite !map_map. reflexivity.
  - intros r Hr. apply in_map_iff in Hr. destruct Hr as (f & <- & Hf).
    apply (in_map Precise.flagged_key). now apply canonical_rows_in.
Qed.

Lemma canonical_rows_sorted df :
  StronglySorted
    (fun a b => key_leb (Precise.flagged_key a) (Precise.flagged_key b) = true)
    (canonical_rows df).
Proof.
  apply drop_duplicates_from_sorted; [exact key_eqb_eq |].
  apply sort_values_sorted; [exact key_leb_total | exact key_leb_trans].
Qed.

Lemma canonical_rows_first df f :
  In f (canonical_rows df) <->
  first_of Precise.flagged_key key_eqb (Precise.flagged_key f) df = Some f.
Proof.
  unfold canonical_rows. rewrite (drop_duplicates_in _ _ key_eqb_eq).
  now rewrite (first_of_sort_values _ _ _ key_eqb_eq key_leb_total).
Qed.

Lemma canonical_rows_cover df f :
  In f df -> exists c, In c (canonical_rows df)
                       /\ Precise.flagged_key c = Precise.flagged_key f.
Proof.
  intros Hf. destruct (first_of_in Precise.flagged_key key_eqb key_eqb_eq f df Hf) as (c & Hc).
  exists c. destruct (first_of_some Precise.flagged_key key_eqb key_eqb_eq _ _ Hc) as [_ Ek].
  split; [| exact Ek]. apply canonical_rows_first. now rewrite Ek.
Qed.

Lemma unique_courses_keys df :
  map (fun p => course_key (fst p)) (Precise.unique_courses df)
  = map Precise.flagged_key (canonical_rows df).
Proof. rewrite unique_courses_closed, map_map. reflexivity. Qed.

Lemma StronglySorted_map (X Y : Type) (f : X -> Y) (R : Y -> Y -> Prop) l :
  StronglySorted (fun a b => R (f a) (f b)) l -> StronglySorted R (map f l).
Proof.
  induction 1 as [| x t Ht IH Hx]; simpl; constructor; [exact IH |].
  apply Forall_map. exact Hx.
Qed.

(** ** The rule sets and the phrase lists *)

Lemma primary_compiled :
  compile_patterns Precise.PRIMARY_PATTERNS = Some Precise.primary_patterns.
Proof. vm_compute. reflexivity. Qed.

Lemma secondary_compiled :
  compile_patterns Precise.SECONDARY_PATTERNS = Some Precise.secondary_patterns.
Proof. vm_compute. reflexivity. Qed.

Lemma context_compiled :
  compile_patterns Precise.CONTEXT_PATTERNS = Some Precise.context_patterns.
Proof. vm_compute. reflexivity. Qed.


Section AnalyzerFacts.
Context `{UnicodeTables} `{FuzzyScorer}.

(** No pattern of the three rule sets is found in the empty text, so the
    guard of [matches_any] changes nothing. *)
Lemma matches_any_primary t :
  Precise.matches_any t Precise.primary_patterns
  = existsb (fun pattern => search pattern t) Precise.primary_patterns.
Proof. destruct t; [vm_compute |]; reflexivity. Qed.

Lemma matches_any_secondary t :
  Precise.matches_any t Precise.secondary_patterns
  = existsb (fun pattern => search pattern t) Precise.secondary_patterns.
Proof. destruct t; [vm_compute |]; reflexivity. Qed.

Lemma matches_any_context t :
  Precise.matches_any t Precise.context_patterns
  = existsb (fun pattern => search pattern t) Precise.context_patterns.
Proof. destruct t; [vm_compute |]; reflexivity. Qed.

Lemma some_found patterns t :
  existsb (fun pattern => search pattern t) patterns = true
  <-> exists pattern, In pattern patterns /\ found pattern t.
Proof.
  rewrite existsb_exists. split; intros (p & Hp & Hs); exists p;
    (split; [exact Hp | now apply search_found]).
Qed.

(** The phrase lists are ASCII; their normal forms are the same for every
    instance of the Unicode tables. *)
Lemma precise_fuzzy_phrases :
  Precise.fuzzy_phrases = Precise.FUZZY_PHRASES.
Proof. vm_compute. reflexivity. Qed.

Lemma legacy_keyword_norms :
  Legacy.keyword_norms
  = map codes ["agent"; "agentic"; "ethics"; "llm"; "deep learning"; "generative ai";
               "artificial intelligence"; "machine learning"; "gpt"; "chatgpt"]%string.
Proof. vm_compute. reflexivity. Qed.

(** The scoring of the precise and of the legacy analyzer never raises:
    [max] is taken over a list that is not empty. *)
Lemma py_max_map (X : Type) (f : X -> Z) x xs :
  exists score, py_max (map f (x :: xs)) = Some score.
Proof. simpl. eauto. Qed.

Lemma precise_score_total t :
  exists score, max_fuzzy_score t Precise.fuzzy_phrases = Some score.
Proof.
  unfold max_fuzzy_score. destruct t; [eauto |].
  rewrite precise_fuzzy_phrases. apply py_max_map.
Qed.

Lemma legacy_score_total t :
  exists score, max_fuzzy_score t Legacy.keyword_norms = Some score.
Proof.
  unfold max_fuzzy_score. destruct t; [eauto |].
  rewrite legacy_keyword_norms. apply py_max_map.
Qed.

(** The classification of a whole table never raises, and keeps the rows
    in their order. *)
Lemma precise_ai_flag_total args t : exists b, Precise.ai_flag args t = Some b.
Proof.
  unfold Precise.ai_flag, Precise.fuzzy_match.
  destruct (Precise.disable_fuzzy args); [eauto |].
  destruct (precise_score_total t) as (score & ->). eauto.
Qed.

Lemma precise_classify_total `{EthicsMatcher} args df :
  exists flagged, Precise.classify args df = Some flagged
                  /\ map Precise.row flagged = df.
Proof.
  unfold Precise.classify. induction df as [| r df IH]; simpl.
  - exists []. now split.
  - destruct IH as (flagged & -> & E). unfold Precise.classify_row.
    destruct (precise_ai_flag_total args (Precise.text_norm_of r)) as (b & ->).
    eexists. split; [reflexivity |]. simpl. now rewrite E.
Qed.

Lemma legacy_classify_total args df :
  exists flagged, Legacy.classify args df = Some flagged
                  /\ map Legacy.row flagged = df.
Proof.
  unfold Legacy.classify. induction df as [| r df IH]; simpl.
  - exists []. now split.
  - destruct IH as (flagged & -> & E). unfold Legacy.classify_row, Legacy.ai_flag.
    destruct (legacy_score_total (Legacy.text_norm_of r)) as (score & ->).
    eexists. split; [reflexivity |]. simpl. now rewrite E.
Qed.

End AnalyzerFacts.

(** ** Normalization *)

(** C5: text normalization is total and idempotent: for every text [s],
    [normalize_text (normalize_text s) = normalize_text s]; the empty text
    is normalized to the empty text, and a missing cell is read as the empty
    text before it is normalized.  The result is always a sequence of words
    over [a-z0-9] joined by single spaces. *)
Theorem normalize_text_idempotent `{UnicodeTables} :
  (forall s, normalize_text (normalize_text s) = normalize_text s)
  /\ (forall s, exists ws,
        Forall (fun w => is_word w = true) ws /\ normalize_text s = join [32%N] ws)
  /\ normalize_text [] = []
  /\ normalize_text (fillna_str None) = [].
Proof.
  assert (W : forall s, exists ws,
             Forall (fun w => is_word w = true) ws /\ normalize_text s = join [32%N] ws).
  { intros s. exists (split (NON_ALNUM_RE_sub (lower s))).
    split; [apply normalized_words | reflexivity]. }
  repeat split; try reflexivity; [| exact W].
  intros s. destruct (W s) as (ws & Hws & ->). now apply normalize_text_join.
Qed.

(** ** The tiers of the precise analyzer *)

(** C2: for every normalized text, the keyword decision of the precise
    analyzer is: some primary pattern is found in the text, or some
    secondary pattern and some context pattern are both found in it.  The
    three rule sets are the compiled [PRIMARY_PATTERNS],
    [SECONDARY_PATTERNS] and [CONTEXT_PATTERNS]. *)
Theorem keyword_match_tiers `{UnicodeTables} (text_norm : text) :
  compile_patterns Precise.PRIMARY_PATTERNS = Some Precise.primary_patterns
  /\ compile_patterns Precise.SECONDARY_PATTERNS = Some Precise.secondary_patterns
  /\ compile_patterns Precise.CONTEXT_PATTERNS = Some Precise.context_patterns
  /\ Precise.keyword_match text_norm
     = existsb (fun p => search p text_norm) Precise.primary_patterns
       || (existsb (fun p => search p text_norm) Precise.secondary_patterns
           && existsb (fun p => search p text_norm) Precise.context_patterns)
  /\ (Precise.keyword_match text_norm = true <->
      (exists p, In p Precise.primary_patterns /\ found p text_norm)
      \/ ((exists p, In p Precise.secondary_patterns /\ found p text_norm)
          /\ (exists p, In p Precise.context_patterns /\ found p text_norm))).
Proof.
  assert (E : Precise.keyword_match text_norm
     = existsb (fun p => search p text_norm) Precise.primary_patterns
       || (existsb (fun p => search p text_norm) Precise.secondary_patterns
           && existsb (fun p => search p text_norm) Precise.context_patterns)).
  { unfold Precise.keyword_match.
    now rewrite matches_any_primary, matches_any_secondary, matches_any_context. }
  repeat split; try exact E;
    try solve [exact primary_compiled | exact secondary_compiled | exact context_compiled].
  - rewrite E, orb_true_iff, andb_true_iff, !some_found. tauto.
  - rewrite E, orb_true_iff, andb_true_iff, !some_found. tauto.
Qed.

(** ** The fuzzy fallback *)

(** C4: for every normalized text the flag of a row is the keyword decision
    or-ed with the comparison of the fuzzy score against the threshold, in
    the precise and in the legacy analyzer; with [--disable-fuzzy] the fuzzy
    entry is false and the flag is the keyword decision alone, so a row
    flagged with the fuzzy matching disabled is flagged with it enabled. *)
Theorem fuzzy_is_a_fallback `{UnicodeTables} `{FuzzyScorer} (threshold : Z) (text_norm : text) :
  let enabled := {| Precise.fuzzy_threshold := threshold; Precise.disable_fuzzy := false |} in
  let disabled := {| Precise.fuzzy_threshold := threshold; Precise.disable_fuzzy := true |} in
  (exists score,
     max_fuzzy_score text_norm Precise.fuzzy_phrases = Some score
     /\ Precise.ai_flag enabled text_norm
        = Some (Precise.keyword_match text_norm || (threshold <=? score)%Z))
  /\ Precise.fuzzy_match disabled text_norm = Some false
  /\ Precise.ai_flag disabled text_norm = Some (Precise.keyword_match text_norm)
  /\ (Precise.ai_flag disabled text_norm = Some true ->
      Precise.ai_flag enabled text_norm = Some true)
  /\ (exists score,
        max_fuzzy_score text_norm Legacy.keyword_norms = Some score
        /\ Legacy.ai_flag {| Legacy.fuzzy_threshold := threshold |} text_norm
           = Some (Legacy.contains_keyword text_norm Legacy.keyword_norms
                   || (threshold <=? score)%Z)).
Proof.
  intros enabled disabled.
  destruct (precise_score_total text_norm) as (score & Hs).
  destruct (legacy_score_total text_norm) as (score' & Hs').
  assert (En : Precise.ai_flag enabled text_norm
               = Some (Precise.keyword_match text_norm || (threshold <=? score)%Z)).
  { unfold Precise.ai_flag, Precise.fuzzy_match. simpl. now rewrite Hs. }
  assert (Di : Precise.ai_flag disabled text_norm = Some (Precise.keyword_match text_norm)).
  { unfold Precise.ai_flag, Precise.fuzzy_match. simpl. now rewrite orb_false_r. }
  split; [exists score; now split |].
  split; [reflexivity |].
  split; [exact Di |].
  split.
  - rewrite Di, En. intros E. injection E as ->. reflexivity.
  - exists score'. split; [exact Hs' |].
    unfold Legacy.ai_flag. simpl. now rewrite Hs'.
Qed.

(** ** Secondary terms need a context term *)

(** C3, as amended: in the precise analyzer a secondary term alone does
    not count.  A row with neither a primary nor a context hit is classified
    [is_ai_related = false] whenever the fuzzy matching does not reach its
    threshold, and a row with a secondary and a context hit is classified
    [true].  The row "Professional Ethics" / "Discusses moral
    responsibility." has the secondary hit "ethics" and no primary or
    context hit; with "Uses artificial intelligence and raises ethics
    concerns." added it has a context hit.  (The legacy analyzer has no
    such gating: "ethics" is one of its keywords.) *)
Theorem ethics_needs_context `{UnicodeTables} `{FuzzyScorer} `{EthicsMatcher}
        (args : Precise.Args) :
  (forall r,
     Precise.fuzzy_match args (Precise.text_norm_of r) = Some false ->
     Precise.matches_any (Precise.text_norm_of r) Precise.primary_patterns = false ->
     Precise.matches_any (Precise.text_norm_of r) Precise.context_patterns = false ->
     option_map Precise.is_ai_related (Precise.classify_row args r) = Some false)
  /\ (forall r,
        Precise.matches_any (Precise.text_norm_of r) Precise.secondary_patterns = true ->
        Precise.matches_any (Precise.text_norm_of r) Precise.context_patterns = true ->
        option_map Precise.is_ai_related (Precise.classify_row args r) = Some true)
  /\ Precise.matches_any (Precise.text_norm_of ethics_row) Precise.secondary_patterns = true
  /\ Precise.matches_any (Precise.text_norm_of ethics_row) Precise.context_patterns = false
  /\ Precise.matches_any (Precise.text_norm_of ethics_row) Precise.primary_patterns = false
  /\ Precise.matches_any (Precise.text_norm_of ethics_ai_row) Precise.secondary_patterns = true
  /\ Precise.matches_any (Precise.text_norm_of ethics_ai_row) Precise.context_patterns = true.
Proof.
  split; [| split].
  - intros r Hf Hp Hc. unfold Precise.classify_row, Precise.ai_flag, Precise.keyword_match.
    rewrite Hf, Hp, Hc, andb_false_r. reflexivity.
  - intros r Hs Hc. unfold Precise.classify_row, Precise.ai_flag, Precise.keyword_match.
    rewrite Hs, Hc, orb_true_r.
    destruct (Precise.fuzzy_match args (Precise.text_norm_of r)) eqn:E; [reflexivity |].
    exfalso. unfold Precise.fuzzy_match in E.
    destruct (Precise.disable_fuzzy args); [discriminate |].
    destruct (precise_score_total (Precise.text_norm_of r)) as (s & Hs').
    rewrite Hs' in E. discriminate.
  - repeat split; vm_compute; reflexivity.
Qed.

(** ** Rows without text *)

(** C8, as amended: for every row whose title and description are both
    empty or missing, the classification of the precise analyzer does not
    raise: the joint text normalizes to the empty text, no tier matches, the
    fuzzy score is 0, and [is_ai_related] is false when the fuzzy matching is
    disabled or the threshold is positive (it is the comparison
    [0 >= threshold] otherwise); [is_ethics_related] is what the ethics
    matcher answers on two empty texts. *)
Theorem blank_row_is_not_flagged `{UnicodeTables} `{FuzzyScorer} `{EthicsMatcher}
        (args : Precise.Args) (r : Row) :
  fillna_str (title r) = [] ->
  fillna_str (description r) = [] ->
  Precise.text_norm_of r = []
  /\ (forall patterns, Precise.matches_any (Precise.text_norm_of r) patterns = false)
  /\ Precise.keyword_match (Precise.text_norm_of r) = false
  /\ (forall phrases, max_fuzzy_score (Precise.text_norm_of r) phrases = Some 0%Z)
  /\ Precise.classify_row args r
     = Some {| Precise.row := r;
               Precise.is_ai_related :=
                 negb (Precise.disable_fuzzy args)
                 && (Precise.fuzzy_threshold args <=? 0)%Z;
               Precise.is_ethics_related := is_match [] [] |}
  /\ (Precise.disable_fuzzy args = true \/ (0 < Precise.fuzzy_threshold args)%Z ->
      option_map Precise.is_ai_related (Precise.classify_row args r) = Some false).
Proof.
  intros Ht Hd.
  assert (E : Precise.text_norm_of r = []).
  { unfold Precise.text_norm_of. rewrite Ht, Hd. reflexivity. }
  assert (C : Precise.classify_row args r
     = Some {| Precise.row := r;
               Precise.is_ai_related :=
                 negb (Precise.disable_fuzzy args)
                 && (Precise.fuzzy_threshold args <=? 0)%Z;
               Precise.is_ethics_related := is_match [] [] |}).
  { unfold Precise.classify_row, Precise.ai_flag, Precise.fuzzy_match, Precise.ethics_flag.
    rewrite E, Ht, Hd. destruct (Precise.disable_fuzzy args); reflexivity. }
  rewrite E. repeat split; try reflexivity; [exact C |].
  rewrite C. simpl. intros [-> | Hpos]; [reflexivity |].
  replace (Precise.fuzzy_threshold args <=? 0)%Z with false by (symmetry; apply Z.leb_gt; lia).
  now rewrite andb_false_r.
Qed.

(** ** Keywords of the legacy analyzer *)


(** ** The reasons of the broad-recall analyzer *)

Lemma sorted_set_in hs l : In l (Broad.sorted_set hs) <-> In l hs.
Proof.
  unfold Broad.sorted_set.
  rewrite (Permutation_in' eq_refl (sort_values_perm (fun l => l) text_leb _)).
  rewrite (drop_duplicates_in (fun l => l) text_eqb text_eqb_eq). split.
  - intros Hf. now apply (first_of_some (fun l => l) text_eqb text_eqb_eq) in Hf.
  - intros Hl. destruct (first_of_in (fun l => l) text_eqb text_eqb_eq l _ Hl) as (y & Hy).
    rewrite Hy. f_equal. now apply (first_of_some (fun l => l) text_eqb text_eqb_eq) in Hy.
Qed.

Lemma sorted_set_nodup hs : NoDup (Broad.sorted_set hs).
Proof.
  unfold Broad.sorted_set.
  apply (Permutation_NoDup (Permutation_sym (sort_values_perm (fun l => l) text_leb _))).
  rewrite <- (map_id (drop_duplicates _ _ _)).
  apply (drop_duplicates_from_nodup (fun l => l) text_eqb text_eqb_eq).
Qed.

Lemma sorted_set_sorted hs :
  StronglySorted (fun a b => text_leb a b = true) (Broad.sorted_set hs).
Proof.
  apply (sort_values_sorted (fun l : text => l) text_leb text_leb_total text_leb_trans).
Qed.

Lemma join_not_empty sep w ws : w <> [] -> join sep (w :: ws) <> [].
Proof.
  intros Hw E. rewrite join_cons in E. apply app_eq_nil in E. tauto.
Qed.

Section BroadFacts.
Context `{UnicodeTables} `{FuzzyScorer}.







End BroadFacts.

(** ** One course per key, in ascending order *)

Section SortedUnique.
Variable K : Type.
Variable leb : K -> K -> bool.
Hypothesis leb_antisym : forall a b, leb a b = true -> leb b a = true -> a = b.

(** Two ascending lists without repetition that hold the same keys are
    the same list. *)
Lemma sorted_nodup_unique (l1 : list K) : forall l2,
  StronglySorted (fun a b => leb a b = true) l1 ->
  StronglySorted (fun a b => leb a b = true) l2 ->
  NoDup l1 -> NoDup l2 ->
  (forall k, In k l1 <-> In k l2) -> l1 = l2.
Proof.
  induction l1 as [| a t1 IH]; intros l2 S1 S2 N1 N2 Hin.
  - destruct l2 as [| b t2]; [reflexivity |].
    exfalso. apply (Hin b). now left.
  - destruct l2 as [| b t2]; [exfalso; apply (Hin a); now left |].
    inversion S1 as [| ? ? S1' F1]; inversion S2 as [| ? ? S2' F2]; subst.
    inversion N1 as [| ? ? Na N1']; inversion N2 as [| ? ? Nb N2']; subst.
    rewrite Forall_forall in F1, F2.
    assert (E : a = b).
    { destruct (proj1 (Hin a) (or_introl eq_refl)) as [E | Ha]; [now symmetry |].
      destruct (proj2 (Hin b) (or_introl eq_refl)) as [E | Hb]; [assumption |].
      apply leb_antisym; [now apply F1 | now apply F2]. }
    subst b. f_equal. apply IH; try assumption.
    intros k. split; intros Hk.
    + destruct (proj1 (Hin k) (or_intror Hk)) as [E | Hk2]; [congruence | exact Hk2].
    + destruct (proj2 (Hin k) (or_intror Hk)) as [E | Hk1]; [congruence | exact Hk1].
Qed.

End SortedUnique.

Lemma canonical_rows_keys df :
  map Precise.flagged_key (canonical_rows df)
  = group_keys Precise.flagged_key key_eqb key_leb df.
Proof.
  apply (sorted_nodup_unique key_leb key_leb_antisym).
  - apply StronglySorted_map, canonical_rows_sorted.
  - apply (sort_values_sorted (fun k : key => k) key_leb key_leb_total key_leb_trans).
  - apply (drop_duplicates_from_nodup Precise.flagged_key key_eqb key_eqb_eq).
  - apply (group_keys_nodup Precise.flagged_key key_eqb key_leb key_eqb_eq).
  - intros k. rewrite (group_keys_in Precise.flagged_key key_eqb key_leb key_eqb_eq).
    rewrite !in_map_iff. split.
    + intros (f & <- & Hf). exists f. split; [reflexivity | now apply canonical_rows_in].
    + intros (f & <- & Hf). destruct (canonical_rows_cover _ _ Hf) as (c & Hc & E).
      exists c. now split.
Qed.

Lemma unique_courses_by_key df :
  Precise.unique_courses df
  = flat_map (course_of df) (group_keys Precise.flagged_key key_eqb key_leb df).
Proof.
  rewrite unique_courses_closed, <- canonical_rows_keys.
  assert (F : Forall (fun f => first_of Precise.flagged_key key_eqb
                                 (Precise.flagged_key f) df = Some f)
                     (canonical_rows df)).
  { apply Forall_forall. intros f. apply canonical_rows_first. }
  induction F as [| f l Hf Hl IH]; [reflexivity |].
  simpl. rewrite IH. unfold course_of at 2. now rewrite Hf.
Qed.

(** C7: the choice of the canonical row is deterministic.  The rows are
    ordered by (prefix, number), ascending; the unique courses come in
    that order, one for each key of the table; the other columns of a
    course are those of the first row of its key after the sort, which is
    also the first row of its key in the input, the row that the legacy
    analyzer keeps.  The unique-course output is this function of the
    input table, so two runs over the same table give the same output. *)
Theorem canonical_row_is_first_after_sort
        (df : list Precise.Flagged) (old : list Legacy.Flagged) :
  let sorted := sort_values Precise.flagged_key key_leb df in
  StronglySorted (fun a b => key_leb a b = true) (map Precise.flagged_key sorted)
  /\ Permutation sorted df
  /\ map (fun p => course_key (fst p)) (Precise.unique_courses df)
     = group_keys Precise.flagged_key key_eqb key_leb df
  /\ StronglySorted (fun a b => key_leb a b = true)
       (map (fun p => course_key (fst p)) (Precise.unique_courses df))
  /\ NoDup (map (fun p => course_key (fst p)) (Precise.unique_courses df))
  /\ Forall (fun p =>
               option_map Precise.row
                 (first_of Precise.flagged_key key_eqb (course_key (fst p)) sorted)
               = Some (fst p))
            (Precise.unique_courses df)
  /\ Forall (fun p =>
               option_map Precise.row
                 (first_of Precise.flagged_key key_eqb (course_key (fst p)) df)
               = Some (fst p))
            (Precise.unique_courses df)
  /\ Precise.unique_courses df
     = flat_map (course_of df) (group_keys Precise.flagged_key key_eqb key_leb df)
  /\ Forall (fun u =>
               first_of Legacy.flagged_key key_eqb (Legacy.flagged_key u)
                 (sort_values Legacy.flagged_key key_leb old)
               = Some u)
            (Legacy.unique_courses old).
Proof.
  intros sorted. subst sorted.
  assert (F : Forall (fun p =>
               option_map Precise.row
                 (first_of Precise.flagged_key key_eqb (course_key (fst p)) df)
               = Some (fst p))
            (Precise.unique_courses df)).
  { rewrite unique_courses_closed. apply Forall_map, Forall_forall.
    intros f Hf. simpl. apply canonical_rows_first in Hf.
    change (course_key (Precise.row f)) with (Precise.flagged_key f). now rewrite Hf. }
  split; [apply StronglySorted_map;
          apply (sort_values_sorted Precise.flagged_key key_leb key_leb_total key_leb_trans) |].
  split; [apply sort_values_perm |].
  split; [rewrite unique_courses_keys; apply canonical_rows_keys |].
  split; [rewrite unique_courses_keys; apply StronglySorted_map, canonical_rows_sorted |].
  split; [rewrite unique_courses_keys;
          apply (drop_duplicates_from_nodup Precise.flagged_key key_eqb key_eqb_eq) |].
  split.
  - revert F. apply Forall_impl. intros p Hp.
    now rewrite (first_of_sort_values Precise.flagged_key key_eqb key_leb
                   key_eqb_eq key_leb_total).
  - split; [exact F |]. split; [apply unique_courses_by_key |].
    apply Forall_forall. intros u Hu.
    rewrite (first_of_sort_values Legacy.flagged_key key_eqb key_leb
               key_eqb_eq key_leb_total).
    now apply (drop_duplicates_in Legacy.flagged_key key_eqb key_eqb_eq).
Qed.

(** ** Prefix totals *)

(** C6: for every table, the [total_courses] of the prefix totals add up
    to [total_unique_courses]; every unique course is counted in the row
    of its prefix, the row of the missing prefix included, and no prefix
    has two rows. *)
Theorem prefix_totals_sum (df : list Precise.Flagged) :
  list_sum (map snd (Precise.prefix_totals df)) = Precise.total_unique_courses df
  /\ Forall (fun p : Row * bool =>
               exists n, 0 < n /\ In (prefix (fst p), n) (Precise.prefix_totals df))
            (Precise.unique_courses df)
  /\ NoDup (map fst (Precise.prefix_totals df)).
Proof.
  unfold Precise.prefix_totals, Precise.total_unique_courses.
  set (u := Precise.unique_courses df).
  set (by_prefix := fun p : Row * bool => prefix (fst p)).
  set (g := groupby_size by_prefix cell_eqb cell_leb u).
  assert (P : Permutation (sort_values fst cell_leb g) g) by apply sort_values_perm.
  split; [| split].
  - rewrite (Permutation_list_sum (Permutation_map snd P)).
    apply (groupby_size_sum by_prefix cell_eqb cell_leb cell_eqb_eq).
  - apply Forall_forall. intros p Hp.
    exists (List.length (group by_prefix cell_eqb (by_prefix p) u)). split.
    + assert (Hg : In p (group by_prefix cell_eqb (by_prefix p) u)).
      { apply filter_In. split; [exact Hp | now apply cell_eqb_eq]. }
      destruct (group by_prefix cell_eqb (by_prefix p) u); [contradiction | simpl; lia].
    + apply (Permutation_in _ (Permutation_sym P)).
      now apply (groupby_size_in by_prefix cell_eqb cell_leb cell_eqb_eq).
  - apply (Permutation_NoDup (Permutation_map fst (Permutation_sym P))).
    unfold g, groupby_size. rewrite map_map. simpl. rewrite map_id.
    apply (group_keys_nodup by_prefix cell_eqb cell_leb cell_eqb_eq).
Qed.

(** ** The flag of a unique course *)

Lemma any_ai_related_spec k df :
  any_ai_related k df = true <->
  exists f, In f df /\ Precise.flagged_key f = k /\ Precise.is_ai_related f = true.
Proof.
  unfold any_ai_related, group. rewrite existsb_exists. split.
  - intros (f & Hf & Hai). apply filter_In in Hf. destruct Hf as [Hf Hk].
    apply key_eqb_eq in Hk. eauto.
  - intros (f & Hf & Hk & Hai). exists f. split; [| exact Hai].
    apply filter_In. split; [exact Hf | now apply key_eqb_eq].
Qed.

(** X1: in the precise analyzer the flag of a unique course is the logical
    or of the flags of all the rows of its key, every key of the table has
    its unique course, and no key has two. *)
Theorem precise_flag_is_group_or (df : list Precise.Flagged) :
  Forall (fun p : Row * bool =>
            snd p = existsb Precise.is_ai_related
                      (group Precise.flagged_key key_eqb (course_key (fst p)) df)
            /\ (snd p = true <->
                exists f, In f df /\ Precise.flagged_key f = course_key (fst p)
                          /\ Precise.is_ai_related f = true))
         (Precise.unique_courses df)
  /\ Forall (fun f =>
               exists p, In p (Precise.unique_courses df)
                         /\ course_key (fst p) = Precise.flagged_key f
                         /\ (Precise.is_ai_related f = true -> snd p = true))
            df
  /\ NoDup (map (fun p => course_key (fst p)) (Precise.unique_courses df)).
Proof.
  split; [| split].
  - rewrite unique_courses_closed. apply Forall_map, Forall_forall.
    intros f _. cbn [fst snd].
    change (course_key (Precise.row f)) with (Precise.flagged_key f).
    split; [reflexivity | apply any_ai_related_spec].
  - apply Forall_forall. intros f Hf.
    destruct (canonical_rows_cover _ _ Hf) as (c & Hc & Ek).
    exists (Precise.row c, any_ai_related (Precise.flagged_key c) df).
    split; [| split].
    + rewrite unique_courses_closed.
      apply (in_map (fun f => (Precise.row f, any_ai_related (Precise.flagged_key f) df))).
      exact Hc.
    + exact Ek.
    + intros Hai. cbn [snd]. apply any_ai_related_spec. exists f. now rewrite Ek.
  - rewrite unique_courses_keys.
    apply (drop_duplicates_from_nodup Precise.flagged_key key_eqb key_eqb_eq).
Qed.

(** C1: the legacy analyzer does not aggregate.  Its unique course is
    the first row of the key with the flag of that row: on the two
    snapshots it is not flagged and the prefix summary counts no
    AI-related course, while the AI subset of the same run holds the
    course; the precise analyzer flags the course on the same rows. *)
Theorem legacy_unique_course_keeps_first_flag :
  (forall df, Forall (fun u => first_of Legacy.flagged_key key_eqb
                                 (Legacy.flagged_key u) df = Some u)
                     (Legacy.unique_courses df))
  /\ Legacy.unique_courses legacy_snapshots
     = [ {| Legacy.row := old_snapshot; Legacy.is_ai_related := false |} ]
  /\ Legacy.summary legacy_snapshots = [ (Some (codes "CS"), 1, 0) ]
  /\ Legacy.ai_subset legacy_snapshots
     = [ {| Legacy.row := new_snapshot; Legacy.is_ai_related := true |} ]
  /\ Precise.unique_courses precise_snapshots = [ (old_snapshot, true) ].
Proof.
  split.
  - intros df. apply Forall_forall. intros u Hu.
    now apply (drop_duplicates_in Legacy.flagged_key key_eqb key_eqb_eq).
  - repeat split; vm_compute; reflexivity.
Qed.

(** ** Worked examples

    The texts below are ASCII, so the instance of the Unicode tables is
    not consulted; the scorer is [exact_scorer]. *)

Section Examples.
#[local] Existing Instance ascii_tables.
#[local] Existing Instance exact_scorer.
#[local] Existing Instance no_ethics.

(** The ethics row under the default threshold of the precise analyzer. *)
Lemma ethics_needs_context_default :
  Precise.fuzzy_match default_args (Precise.text_norm_of ethics_row) = Some false
  /\ option_map Precise.is_ai_related (Precise.classify_row default_args ethics_row)
     = Some false
  /\ option_map Precise.is_ai_related (Precise.classify_row default_args ethics_ai_row)
     = Some true.
Proof.
  destruct (ethics_needs_context default_args) as (G1 & G2 & S1 & C1 & P1 & S2 & C2).
  assert (Hf : Precise.fuzzy_match default_args (Precise.text_norm_of ethics_row)
               = Some false) by (vm_compute; reflexivity).
  split; [exact Hf |].
  split; [exact (G1 ethics_row Hf P1 C1) | exact (G2 ethics_ai_row S2 C2)].
Defined.

(** The legacy analyzer has "ethics" among its keywords: the same row is
    flagged, also when the threshold is above every score. *)
Lemma legacy_flags_ethics_row :
  Legacy.contains_keyword (Legacy.text_norm_of ethics_row) Legacy.keyword_norms = true
  /\ max_fuzzy_score (Legacy.text_norm_of ethics_row) Legacy.keyword_norms = Some 100%Z
  /\ Legacy.classify_row {| Legacy.fuzzy_threshold := 101 |} ethics_row
     = Some {| Legacy.row := ethics_row; Legacy.is_ai_related := true |}.
Proof. repeat split; vm_compute; reflexivity. Qed.

Lemma blank_row_default :
  fillna_str (title blank_row) = []
  /\ fillna_str (description blank_row) = []
  /\ Precise.text_norm_of blank_row = []
  /\ option_map Precise.is_ai_related (Precise.classify_row default_args blank_row)
     = Some false.
Proof.
  split; [reflexivity |]. split; [reflexivity |].
  destruct (blank_row_is_not_flagged default_args blank_row eq_refl eq_refl)
    as (E & _ & _ & _ & _ & F).
  split; [exact E |]. apply F. right. reflexivity.
Defined.

(** With [--fuzzy-threshold 0] the score 0 of a blank row reaches the
    threshold, and the row is flagged. *)
Lemma blank_row_threshold_zero :
  Precise.classify_row
    {| Precise.fuzzy_threshold := 0; Precise.disable_fuzzy := false |} blank_row
  = Some {| Precise.row := blank_row; Precise.is_ai_related := true;
            Precise.is_ethics_related := false |}.
Proof. vm_compute. reflexivity. Qed.


(** The pattern of the precise analyzer for the same word is bounded. *)
Lemma precise_skips_reagents :
  Precise.keyword_match (Precise.text_norm_of reagents_row) = false.
Proof. vm_compute. reflexivity. Qed.


(** Several rules with one label: the label is recorded once. *)
Lemma broad_reason_sorted_labels :
  Broad.ai_candidate_reason
    (Broad.candidate {| Broad.fuzzy_threshold := 85; Broad.disable_fuzzy := true |}
       (normalize_text (codes "NLP: natural language processing for robotics and AI")))
  = codes "ai,nlp,robotics".
Proof. vm_compute. reflexivity. Qed.

(** The two snapshots of CS 599, classified row by row. *)
Lemma snapshots_classified :
  Legacy.classify {| Legacy.fuzzy_threshold := 85 |} [old_snapshot; new_snapshot]
  = Some legacy_snapshots
  /\ Precise.classify default_args [old_snapshot; new_snapshot]
     = Some precise_snapshots.
Proof. split; vm_compute; reflexivity. Qed.

(** A course without prefix has its own row in the prefix totals. *)
Lemma prefix_totals_missing_prefix :
  Precise.prefix_totals
    [ {| Precise.row := old_snapshot; Precise.is_ai_related := false;
         Precise.is_ethics_related := false |};
      {| Precise.row := {| prefix := None; number := Some (codes "100");
                           title := Some (codes "Seminar"); description := None;
                           others := [] |};
         Precise.is_ai_related := false; Precise.is_ethics_related := false |};
      {| Precise.row := new_snapshot; Precise.is_ai_related := true;
         Precise.is_ethics_related := false |} ]
  = [ (Some (codes "CS"), 1); (None, 1) ].
Proof. vm_compute. reflexivity. Qed.

(** Rows with primary hits. *)
Lemma primary_hits :
  Precise.keyword_match
    (Precise.text_norm_of (course "CS" "470" "Intro to AI" "Covers neural networks."))
  = true
  /\ Precise.keyword_match
       (Precise.text_norm_of
          (course "CS" "471" "Intelligent Agents Seminar"
             "Studies artificial intelligence and autonomous systems."))
     = true.
Proof. split; vm_compute; reflexivity. Qed.

End Examples.

(** * Further properties of the analyzers *)

(** ** The context patterns are primary patterns *)

Lemma context_in_primary : incl Precise.context_patterns Precise.primary_patterns.
Proof.
  assert (E : Precise.context_patterns
              = map (fun i => nth i Precise.primary_patterns Empty)
                    [14; 0; 1; 2; 3; 4; 5; 6; 7; 8; 10; 11; 12; 13]%nat)
    by (vm_compute; reflexivity).
  rewrite E. intros r Hr. apply in_map_iff in Hr. destruct Hr as (i & <- & Hi).
  apply nth_In.
  replace (List.length Precise.primary_patterns) with 18%nat by (vm_compute; reflexivity).
  simpl in Hi. repeat (destruct Hi as [<- | Hi]; [lia |]). contradiction.
Qed.

Lemma context_hit_is_primary `{UnicodeTables} (text_norm : text) :
  Precise.matches_any text_norm Precise.context_patterns = true ->
  Precise.matches_any text_norm Precise.primary_patterns = true.
Proof.
  unfold Precise.matches_any. destruct text_norm as [| c t]; [discriminate |].
  rewrite !existsb_exists. intros (p & Hp & Hs). exists p.
  split; [now apply context_in_primary | exact Hs].
Qed.

Lemma gated_tier_adds_nothing `{UnicodeTables} (text_norm : text) secondary :
  Precise.matches_any text_norm Precise.primary_patterns
  || (Precise.matches_any text_norm secondary
      && Precise.matches_any text_norm Precise.context_patterns)
  = Precise.matches_any text_norm Precise.primary_patterns.
Proof.
  pose proof (context_hit_is_primary text_norm) as I.
  destruct (Precise.matches_any text_norm Precise.primary_patterns) eqn:P;
    [reflexivity |].
  destruct (Precise.matches_any text_norm Precise.context_patterns) eqn:C.
  - specialize (I eq_refl). discriminate.
  - now rewrite andb_false_r.
Qed.

Lemma keyword_match_primary `{UnicodeTables} (text_norm : text) :
  Precise.keyword_match text_norm
  = Precise.matches_any text_norm Precise.primary_patterns.
Proof. unfold Precise.keyword_match. apply gated_tier_adds_nothing. Qed.

(** X2: every context pattern of the precise analyzer is also one of its
    primary patterns, so a text with a context hit has a primary hit, and
    the keyword decision is the primary match alone: the secondary
    patterns never change it. *)
Theorem keyword_match_is_primary `{UnicodeTables} (text_norm : text) :
  incl Precise.context_patterns Precise.primary_patterns
  /\ (Precise.matches_any text_norm Precise.context_patterns = true ->
      Precise.matches_any text_norm Precise.primary_patterns = true)
  /\ Precise.keyword_match text_norm
     = Precise.matches_any text_norm Precise.primary_patterns
  /\ (forall secondary,
        Precise.matches_any text_norm Precise.primary_patterns
        || (Precise.matches_any text_norm secondary
            && Precise.matches_any text_norm Precise.context_patterns)
        = Precise.keyword_match text_norm).
Proof.
  split; [exact context_in_primary |].
  split; [apply context_hit_is_primary |].
  split; [apply keyword_match_primary |].
  intros secondary. now rewrite keyword_match_primary, gated_tier_adds_nothing.
Qed.

(** ** The best fuzzy score *)

Lemma fold_max_spec (l : list Z) : forall x,
  (x <= fold_left Z.max l x)%Z
  /\ Forall (fun y => (y <= fold_left Z.max l x)%Z) l
  /\ In (fold_left Z.max l x) (x :: l).
Proof.
  induction l as [| y l IH]; intros x.
  - simpl. split; [lia |]. split; [constructor | now left].
  - cbn [fold_left]. destruct (IH (Z.max x y)) as (Hx & Hl & Hin).
    split; [lia |]. split.
    + constructor; [lia | exact Hl].
    + destruct Hin as [E | Hin]; [| now right; right].
      rewrite <- E.
      destruct (Z.max_spec x y) as [[_ E'] | [_ E']]; rewrite E'; simpl; auto.
Qed.

Section FuzzyFacts.
Context `{FuzzyScorer}.

Lemma max_fuzzy_score_reached (t : text) (phrases : list text) score :
  t <> [] ->
  max_fuzzy_score t phrases = Some score ->
  Forall (fun p => (partial_ratio t p <= score)%Z) phrases
  /\ exists p, In p phrases /\ partial_ratio t p = score.
Proof.
  intros Hne Hs. unfold max_fuzzy_score in Hs.
  destruct t as [| c t]; [congruence |].
  destruct phrases as [| p ps]; [discriminate |].
  simpl in Hs. injection Hs as <-.
  destruct (fold_max_spec (map (fun keyword => partial_ratio (c :: t) keyword) ps)
              (partial_ratio (c :: t) p)) as (Hx & Hl & Hin).
  split.
  - constructor; [exact Hx |]. rewrite Forall_map in Hl. exact Hl.
  - destruct Hin as [E | Hin].
    + exists p. split; [now left | now symmetry].
    + apply in_map_iff in Hin. destruct Hin as (q & E & Hq).
      exists q. split; [now right | exact E].
Qed.

(** X3: [max_fuzzy_score] gives 0 for the empty text without scoring;
    for another text it raises exactly when there is no phrase, and
    otherwise gives a score that some phrase reaches and none exceeds. *)
Theorem max_fuzzy_score_is_max (text_norm : text) (phrases : list text) :
  max_fuzzy_score [] phrases = Some 0%Z
  /\ (max_fuzzy_score text_norm phrases = None <-> text_norm <> [] /\ phrases = [])
  /\ (forall score,
        text_norm <> [] ->
        max_fuzzy_score text_norm phrases = Some score ->
        Forall (fun p => (partial_ratio text_norm p <= score)%Z) phrases
        /\ exists p, In p phrases /\ partial_ratio text_norm p = score).
Proof.
  split; [reflexivity |]. split.
  - unfold max_fuzzy_score. destruct text_norm as [| c t].
    + split; [discriminate | intros [N _]; congruence].
    + destruct phrases as [| p ps]; simpl.
      * split; [intros _; split; [discriminate | reflexivity] | reflexivity].
      * split; [discriminate | intros [_ E]; discriminate].
  - intros score. apply max_fuzzy_score_reached.
Qed.

(** The loop of [best_fuzzy_match], from any best score and phrase so far. *)
Lemma best_loop_spec (t : text) (phrases : list text) : forall b bp s p,
  fold_left
    (fun (best : Z * text) phrase =>
       let score := partial_ratio t phrase in
       if (fst best <? score)%Z then (score, phrase) else best)
    phrases (b, bp) = (s, p) ->
  (b <= s)%Z
  /\ Forall (fun q => (partial_ratio t q <= s)%Z) phrases
  /\ ((s = b /\ p = bp)
      \/ (exists l1 l2, phrases = l1 ++ p :: l2 /\ partial_ratio t p = s /\ (b < s)%Z
                        /\ Forall (fun q => (partial_ratio t q < s)%Z) l1)).
Proof.
  induction phrases as [| q l IH]; intros b bp s p; simpl.
  - intros E. injection E as <- <-. split; [lia |]. split; [constructor | now left].
  - destruct (Z.ltb_spec b (partial_ratio t q)) as [Hlt | Hge]; intros E;
      destruct (IH _ _ _ _ E) as (Hb & Hl & Hc).
    + split; [lia |]. split; [constructor; [exact Hb | exact Hl] |]. right.
      destruct Hc as [[-> ->] | (l1 & l2 & -> & E1 & E2 & E3)].
      * exists [], l. repeat split; try assumption; constructor.
      * exists (q :: l1), l2. repeat split; try assumption; try lia.
        constructor; [lia | exact E3].
    + split; [exact Hb |]. split; [constructor; [lia | exact Hl] |].
      destruct Hc as [[-> ->] | (l1 & l2 & -> & E1 & E2 & E3)]; [now left | right].
      exists (q :: l1), l2. repeat split; try assumption.
      constructor; [lia | exact E3].
Qed.

Lemma best_fuzzy_match_first (t : text) (phrases : list text) :
  t <> [] ->
  (-1 <= fst (Broad.best_fuzzy_match t phrases))%Z
  /\ Forall (fun q => (partial_ratio t q <= fst (Broad.best_fuzzy_match t phrases))%Z)
            phrases
  /\ ((Broad.best_fuzzy_match t phrases = ((-1)%Z, []))
      \/ (exists l1 l2,
            phrases = l1 ++ snd (Broad.best_fuzzy_match t phrases) :: l2
            /\ partial_ratio t (snd (Broad.best_fuzzy_match t phrases))
               = fst (Broad.best_fuzzy_match t phrases)
            /\ Forall (fun q => (partial_ratio t q
                                 < fst (Broad.best_fuzzy_match t phrases))%Z) l1)).
Proof.
  intros Hne. unfold Broad.best_fuzzy_match. destruct t as [| c t]; [congruence |].
  match goal with |- context [fold_left ?f phrases ?i] =>
    destruct (fold_left f phrases i) as [s p] eqn:E end.
  apply best_loop_spec in E. destruct E as (Hb & Hl & Hc). simpl.
  split; [exact Hb |]. split; [exact Hl |].
  destruct Hc as [[-> ->] | (l1 & l2 & E1 & E2 & _ & E3)]; [now left | right].
  exists l1, l2. now repeat split.
Qed.

(** The score of [best_fuzzy_match] is the score of [max_fuzzy_score]
    when no score is negative. *)
Lemma best_score_is_max_score (t : text) (phrases : list text) score :
  t <> [] ->
  Forall (fun q => (0 <= partial_ratio t q)%Z) phrases ->
  max_fuzzy_score t phrases = Some score ->
  fst (Broad.best_fuzzy_match t phrases) = score.
Proof.
  intros Hne Hpos Hs.
  destruct (@max_fuzzy_score_reached t phrases score Hne Hs) as (Hle & p & Hp & Ep).
  destruct (@best_fuzzy_match_first t phrases Hne) as (_ & Bl & Bc).
  rewrite Forall_forall in Hle, Bl, Hpos.
  specialize (Bl p Hp). specialize (Hpos p Hp).
  destruct Bc as [E | (l1 & l2 & E1 & E2 & _)].
  - rewrite E in Bl. simpl in Bl. lia.
  - assert (Hin : In (snd (Broad.best_fuzzy_match t phrases)) phrases).
    { rewrite E1 at 2. apply in_or_app. right. now left. }
    specialize (Hle _ Hin). lia.
Qed.

(** X4: [best_fuzzy_match] gives [(0, "")] for the empty text; for
    another text the score is at least -1 and no phrase exceeds it, and
    either no phrase scores above -1 and the result is [(-1, "")], or the
    phrase is the first one of the list that reaches the best score.  When
    no score is negative the best score is the one of [max_fuzzy_score]. *)
Theorem best_fuzzy_match_is_first_best (text_norm : text) (phrases : list text) :
  Broad.best_fuzzy_match [] phrases = (0%Z, [])
  /\ (text_norm <> [] ->
      (-1 <= fst (Broad.best_fuzzy_match text_norm phrases))%Z
      /\ Forall (fun q => (partial_ratio text_norm q
                           <= fst (Broad.best_fuzzy_match text_norm phrases))%Z)
                phrases
      /\ ((Broad.best_fuzzy_match text_norm phrases = ((-1)%Z, []))
          \/ (exists l1 l2,
                phrases = l1 ++ snd (Broad.best_fuzzy_match text_norm phrases) :: l2
                /\ partial_ratio text_norm (snd (Broad.best_fuzzy_match text_norm phrases))
                   = fst (Broad.best_fuzzy_match text_norm phrases)
                /\ Forall (fun q => (partial_ratio text_norm q
                                     < fst (Broad.best_fuzzy_match text_norm phrases))%Z)
                          l1)))
  /\ (forall score,
        text_norm <> [] ->
        Forall (fun q => (0 <= partial_ratio text_norm q)%Z) phrases ->
        max_fuzzy_score text_norm phrases = Some score ->
        fst (Broad.best_fuzzy_match text_norm phrases) = score).
Proof.
  split; [reflexivity |]. split.
  - apply best_fuzzy_match_first.
  - intros score. apply best_score_is_max_score.
Qed.

End FuzzyFacts.

(** ** The AI subsets *)

Section SortedFrames.
Variables A K : Type.
Variable by_ : A -> K.
Variable leb : K -> K -> bool.

(** Sorting a frame that is in order leaves it as it is. *)
Lemma sort_values_of_sorted l :
  StronglySorted (fun x y => leb (by_ x) (by_ y) = true) l ->
  sort_values by_ leb l = l.
Proof.
  induction 1 as [| x t Ht IH Hx]; [reflexivity |].
  simpl. rewrite IH. destruct t as [| y t']; [reflexivity |].
  simpl. inversion Hx as [| ? ? Hxy _]; subst. now rewrite Hxy.
Qed.

Lemma StronglySorted_filter (R : A -> A -> Prop) (keep : A -> bool) l :
  StronglySorted R l -> StronglySorted R (filter keep l).
Proof.
  induction 1 as [| x t Ht IH Hx]; simpl; [constructor |].
  destruct (keep x); [| exact IH]. constructor; [exact IH |].
  apply Forall_forall. intros y Hy. apply filter_In in Hy.
  rewrite Forall_forall in Hx. now apply Hx.
Qed.

Lemma NoDup_map_filter (keep : A -> bool) l :
  NoDup (map by_ l) -> NoDup (map by_ (filter keep l)).
Proof.
  induction l as [| x t IH]; simpl; [trivial |].
  intros Hn. inversion Hn as [| ? ? Hx Ht]; subst.
  destruct (keep x); [| now apply IH]. simpl. constructor; [| now apply IH].
  intros Hin. apply Hx. apply in_map_iff in Hin. destruct Hin as (y & E & Hy).
  apply filter_In in Hy. apply in_map_iff. exists y. tauto.
Qed.

End SortedFrames.

Lemma unique_courses_sorted df :
  StronglySorted
    (fun p q : Row * bool => key_leb (course_key (fst p)) (course_key (fst q)) = true)
    (Precise.unique_courses df).
Proof.
  rewrite unique_courses_closed.
  assert (S := canonical_rows_sorted df).
  induction S as [| f t Ht IH Hf]; simpl; constructor; [exact IH |].
  apply Forall_map. exact Hf.
Qed.

(** X5: the AI subset of the precise analyzer is the unique courses with
    a true flag, in the order they already have: the final sort changes
    nothing.  It holds one course for every key with some flagged row,
    and no other course. *)
Theorem precise_ai_subset_courses (df : list Precise.Flagged) :
  Precise.ai_subset df = filter snd (Precise.unique_courses df)
  /\ Forall (fun p : Row * bool => snd p = true) (Precise.ai_subset df)
  /\ NoDup (map (fun p => course_key (fst p)) (Precise.ai_subset df))
  /\ (forall k,
        In k (map (fun p => course_key (fst p)) (Precise.ai_subset df))
        <-> exists f, In f df /\ Precise.flagged_key f = k
                      /\ Precise.is_ai_related f = true).
Proof.
  assert (E : Precise.ai_subset df = filter snd (Precise.unique_courses df)).
  { unfold Precise.ai_subset. apply sort_values_of_sorted.
    apply StronglySorted_filter, unique_courses_sorted. }
  rewrite E. split; [reflexivity |]. split; [| split].
  - apply Forall_forall. intros p Hp. now apply filter_In in Hp.
  - apply NoDup_map_filter. rewrite unique_courses_keys.
    apply (drop_duplicates_from_nodup Precise.flagged_key key_eqb key_eqb_eq).
  - intros k. rewrite in_map_iff. split.
    + intros (p & <- & Hp). apply filter_In in Hp. destruct Hp as [Hp Hs].
      rewrite unique_courses_closed in Hp. apply in_map_iff in Hp.
      destruct Hp as (c & <- & Hc). simpl in Hs. now apply any_ai_related_spec.
    + intros (f & Hf & <- & Hai).
      destruct (canonical_rows_cover _ _ Hf) as (c & Hc & Ek).
      exists (Precise.row c, any_ai_related (Precise.flagged_key c) df). split.
      * exact Ek.
      * apply filter_In. split.
        -- rewrite unique_courses_closed.
           apply (in_map (fun f => (Precise.row f,
                                    any_ai_related (Precise.flagged_key f) df))).
           exact Hc.
        -- simpl. apply any_ai_related_spec. exists f. now rewrite Ek.
Qed.

Section FlaggedSubset.
Variable A : Type.
Variable by_ : A -> key.
Variable flag : A -> bool.

(** The rows with a true flag, one for each key, ordered by key: the
    pipeline of the AI subset of the legacy analyzer and of the candidate
    list of the broad-recall analyzer. *)
Let subset (l : list A) : list A :=
  sort_values by_ key_leb (drop_duplicates by_ key_eqb (filter flag l)).

Lemma subset_in l x :
  In x (subset l) <-> first_of by_ key_eqb (by_ x) (filter flag l) = Some x.
Proof.
  unfold subset.
  rewrite (Permutation_in' eq_refl (sort_values_perm by_ key_leb _)).
  apply (drop_duplicates_in by_ key_eqb key_eqb_eq).
Qed.

Lemma subset_flagged l : Forall (fun x => flag x = true /\ In x l) (subset l).
Proof.
  apply Forall_forall. intros x Hx. apply subset_in in Hx.
  apply (first_of_some by_ key_eqb key_eqb_eq) in Hx. destruct Hx as [Hx _].
  apply filter_In in Hx. tauto.
Qed.

Lemma subset_nodup l : NoDup (map by_ (subset l)).
Proof.
  unfold subset.
  apply (Permutation_NoDup
           (Permutation_map by_ (Permutation_sym (sort_values_perm by_ key_leb _)))).
  apply (drop_duplicates_from_nodup by_ key_eqb key_eqb_eq).
Qed.

Lemma subset_sorted l :
  StronglySorted (fun x y => key_leb (by_ x) (by_ y) = true) (subset l).
Proof. apply (sort_values_sorted by_ key_leb key_leb_total key_leb_trans). Qed.

Lemma subset_keys l k :
  In k (map by_ (subset l)) <-> exists y, In y l /\ by_ y = k /\ flag y = true.
Proof.
  rewrite in_map_iff. split.
  - intros (x & <- & Hx). exists x.
    pose proof (subset_flagged l) as F. rewrite Forall_forall in F.
    destruct (F x Hx). tauto.
  - intros (y & Hy & <- & Hf).
    assert (Hin : In y (filter flag l)) by (apply filter_In; tauto).
    destruct (first_of_in by_ key_eqb key_eqb_eq y _ Hin) as (x & Hx).
    destruct (first_of_some by_ key_eqb key_eqb_eq _ _ Hx) as [_ Ek].
    exists x. split; [exact Ek |]. apply subset_in. now rewrite Ek.
Qed.

End FlaggedSubset.

(** ** The prefix summary of the legacy analyzer *)

Lemma find_in_counts (g : cell -> nat) p ks :
  find (fun kn : cell * nat => cell_eqb (fst kn) p) (map (fun k => (k, g k)) ks)
  = if existsb (cell_eqb p) ks then Some (p, g p) else None.
Proof.
  induction ks as [| k ks IH]; [reflexivity |].
  simpl. rewrite (eqb_sym cell_eqb cell_eqb_eq p k).
  destruct (cell_eqb k p) eqn:E; [| exact IH].
  apply cell_eqb_eq in E. now subst.
Qed.

Lemma count_of_size p (l : list Legacy.Flagged) :
  Legacy.count_of p (groupby_size legacy_prefix cell_eqb cell_leb l)
  = List.length (group legacy_prefix cell_eqb p l).
Proof.
  unfold Legacy.count_of, groupby_size. rewrite find_in_counts.
  destruct (existsb (cell_eqb p) (group_keys legacy_prefix cell_eqb cell_leb l)) eqn:E;
    [reflexivity |].
  destruct (group legacy_prefix cell_eqb p l) as [| x t] eqn:G; [reflexivity |].
  exfalso. assert (Hx : In x (group legacy_prefix cell_eqb p l)) by (rewrite G; now left).
  apply filter_In in Hx. destruct Hx as [Hx Hp]. apply cell_eqb_eq in Hp.
  assert (Hk : existsb (cell_eqb p) (group_keys legacy_prefix cell_eqb cell_leb l) = true).
  { apply (existsb_eqb_In cell_eqb cell_eqb_eq).
    apply (group_keys_in legacy_prefix cell_eqb cell_leb cell_eqb_eq).
    rewrite <- Hp. now apply in_map. }
  congruence.
Qed.

Lemma length_filter_le (X : Type) (keep : X -> bool) l :
  List.length (filter keep l) <= List.length l.
Proof. induction l as [| x t IH]; simpl; [lia |]. destruct (keep x); simpl; lia. Qed.

Lemma length_group_filter (keep : Legacy.Flagged -> bool) p l :
  List.length (group legacy_prefix cell_eqb p (filter keep l))
  <= List.length (group legacy_prefix cell_eqb p l).
Proof.
  unfold group. induction l as [| x t IH]; simpl; [lia |].
  destruct (keep x); simpl; destruct (cell_eqb (legacy_prefix x) p); simpl; lia.
Qed.

(** The summary in closed form: one row for every prefix of the unique
    courses, in ascending order. *)
Lemma legacy_summary_closed df :
  Legacy.summary df
  = map (fun p =>
           (p,
            List.length (group legacy_prefix cell_eqb p (Legacy.unique_courses df)),
            List.length (group legacy_prefix cell_eqb p
                           (filter Legacy.is_ai_related (Legacy.unique_courses df)))))
        (group_keys legacy_prefix cell_eqb cell_leb (Legacy.unique_courses df)).
Proof.
  unfold Legacy.summary, Legacy.total_counts, Legacy.ai_counts.
  fold legacy_prefix. set (u := Legacy.unique_courses df).
  unfold groupby_size at 2. rewrite map_map. cbn [fst snd].
  rewrite sort_values_of_sorted.
  - apply map_ext. intros p. now rewrite count_of_size.
  - assert (S : StronglySorted (fun a b => cell_leb a b = true)
                  (group_keys legacy_prefix cell_eqb cell_leb u))
      by apply (sort_values_sorted (fun k : cell => k) cell_leb
                  cell_leb_total cell_leb_trans).
    induction S as [| k ks Hks IH Hk]; simpl; constructor; [exact IH |].
    apply Forall_map. exact Hk.
Qed.

(** X6: the prefix summary of the legacy analyzer has one row for every
    prefix of the table, the missing prefix included, in ascending order;
    [total_courses] counts the unique courses of the prefix and is at
    least 1; [ai_related_courses] counts those whose kept row is flagged,
    is 0 and not missing when there is none, and never exceeds
    [total_courses]; the totals add up to the number of unique courses. *)
Theorem legacy_summary_counts (df : list Legacy.Flagged) :
  let prefix_of := fun r : cell * nat * nat => fst (fst r) in
  let total_of := fun r : cell * nat * nat => snd (fst r) in
  let ai_of := fun r : cell * nat * nat => snd r in
  NoDup (map prefix_of (Legacy.summary df))
  /\ StronglySorted (fun a b => cell_leb a b = true) (map prefix_of (Legacy.summary df))
  /\ (forall p, In p (map prefix_of (Legacy.summary df))
                <-> exists f, In f df /\ legacy_prefix f = p)
  /\ Forall (fun r =>
               total_of r
               = List.length (group legacy_prefix cell_eqb (prefix_of r)
                                (Legacy.unique_courses df))
               /\ ai_of r
                  = List.length (filter Legacy.is_ai_related
                                   (group legacy_prefix cell_eqb (prefix_of r)
                                      (Legacy.unique_courses df)))
               /\ 1 <= total_of r /\ ai_of r <= total_of r)
            (Legacy.summary df)
  /\ list_sum (map total_of (Legacy.summary df))
     = List.length (Legacy.unique_courses df)
  /\ list_sum (map ai_of (Legacy.summary df))
     = List.length (filter Legacy.is_ai_related (Legacy.unique_courses df)).
Proof.
  intros prefix_of total_of ai_of. subst prefix_of total_of ai_of.
  rewrite legacy_summary_closed. set (u := Legacy.unique_courses df).
  set (ks := group_keys legacy_prefix cell_eqb cell_leb u).
  assert (Nk : NoDup ks) by apply (group_keys_nodup legacy_prefix cell_eqb cell_leb cell_eqb_eq).
  assert (Ik : forall k, In k ks <-> In k (map legacy_prefix u))
    by apply (group_keys_in legacy_prefix cell_eqb cell_leb cell_eqb_eq).
  rewrite !map_map. cbn [fst snd]. rewrite map_id.
  split; [exact Nk |]. split.
  { apply (sort_values_sorted (fun k : cell => k) cell_leb cell_leb_total cell_leb_trans). }
  split.
  { intros p. rewrite Ik, in_map_iff. split.
    - intros (f & E & Hf). exists f. split; [| exact E].
      apply (drop_duplicates_in Legacy.flagged_key key_eqb key_eqb_eq) in Hf.
      now apply (first_of_some Legacy.flagged_key key_eqb key_eqb_eq) in Hf.
    - intros (f & Hf & E).
      destruct (first_of_in Legacy.flagged_key key_eqb key_eqb_eq f df Hf) as (c & Hc).
      destruct (first_of_some Legacy.flagged_key key_eqb key_eqb_eq _ _ Hc) as [_ Ek].
      exists c. split.
      + rewrite <- E. unfold legacy_prefix.
        change (fst (Legacy.flagged_key c) = fst (Legacy.flagged_key f)). now rewrite Ek.
      + apply (drop_duplicates_in Legacy.flagged_key key_eqb key_eqb_eq).
        now rewrite Ek. }
  split.
  { apply Forall_map, Forall_forall. intros p Hp. cbn [fst snd].
    split; [reflexivity |].
    assert (G : group legacy_prefix cell_eqb p (filter Legacy.is_ai_related u)
                = filter Legacy.is_ai_related (group legacy_prefix cell_eqb p u)).
    { unfold group. clear. induction u as [| x t IH]; simpl; [reflexivity |].
      destruct (Legacy.is_ai_related x) eqn:Ea, (cell_eqb (legacy_prefix x) p) eqn:Ep;
        simpl; rewrite ?Ea, ?Ep, IH; reflexivity. }
    split; [now rewrite G |]. split.
    - apply Ik, in_map_iff in Hp. destruct Hp as (x & E & Hx).
      assert (Hg : In x (group legacy_prefix cell_eqb p u))
        by (apply filter_In; split; [exact Hx | now apply cell_eqb_eq]).
      destruct (group legacy_prefix cell_eqb p u); [contradiction | simpl; lia].
    - apply length_group_filter. }
  split.
  - apply (sum_group_sizes legacy_prefix cell_eqb cell_leb cell_eqb_eq); [exact Nk |].
    intros x Hx. apply Ik. now apply in_map.
  - apply (sum_group_sizes legacy_prefix cell_eqb cell_leb cell_eqb_eq); [exact Nk |].
    intros x Hx. apply Ik. apply filter_In in Hx. apply in_map. tauto.
Qed.

Lemma legacy_summary_below_subset df p :
  List.length (group legacy_prefix cell_eqb p
                 (filter Legacy.is_ai_related (Legacy.unique_courses df)))
  <= List.length (group legacy_prefix cell_eqb p (Legacy.ai_subset df)).
Proof.
  set (a := group legacy_prefix cell_eqb p
              (filter Legacy.is_ai_related (Legacy.unique_courses df))).
  set (b := group legacy_prefix cell_eqb p (Legacy.ai_subset df)).
  rewrite <- (length_map Legacy.flagged_key a), <- (length_map Legacy.flagged_key b).
  apply NoDup_incl_length.
  - unfold a, group. do 2 apply NoDup_map_filter.
    apply (drop_duplicates_from_nodup Legacy.flagged_key key_eqb key_eqb_eq).
  - intros k Hk. apply in_map_iff in Hk. destruct Hk as (x & <- & Hx).
    apply filter_In in Hx. destruct Hx as [Hx Hp].
    apply filter_In in Hx. destruct Hx as [Hx Hai].
    apply (drop_duplicates_in Legacy.flagged_key key_eqb key_eqb_eq) in Hx.
    apply (first_of_some Legacy.flagged_key key_eqb key_eqb_eq) in Hx.
    destruct Hx as [Hx _].
    assert (Hs : In (Legacy.flagged_key x)
                    (map Legacy.flagged_key (Legacy.ai_subset df))).
    { apply (subset_keys Legacy.flagged_key Legacy.is_ai_related). eauto. }
    apply in_map_iff in Hs. destruct Hs as (y & Ey & Hy).
    apply in_map_iff. exists y. split; [exact Ey |].
    apply filter_In. split; [exact Hy |].
    unfold legacy_prefix in *.
    change (prefix (Legacy.row y)) with (fst (Legacy.flagged_key y)).
    rewrite Ey. exact Hp.
Qed.

(** X7: the AI subset of the legacy analyzer filters the rows before it
    drops duplicates: it holds, in key order, one row for every key with
    some flagged row, namely the first flagged row of the key.  The prefix
    summary of the same run counts only the courses whose first row is
    flagged, so for every prefix its [ai_related_courses] is at most the
    number of rows of the prefix in the AI subset. *)
Theorem legacy_ai_subset_any_row (df : list Legacy.Flagged) :
  (forall k,
     In k (map Legacy.flagged_key (Legacy.ai_subset df))
     <-> exists f, In f df /\ Legacy.flagged_key f = k /\ Legacy.is_ai_related f = true)
  /\ Forall (fun x =>
               Legacy.is_ai_related x = true
               /\ first_of Legacy.flagged_key key_eqb (Legacy.flagged_key x)
                    (filter Legacy.is_ai_related df) = Some x)
            (Legacy.ai_subset df)
  /\ NoDup (map Legacy.flagged_key (Legacy.ai_subset df))
  /\ StronglySorted (fun a b => key_leb a b = true)
       (map Legacy.flagged_key (Legacy.ai_subset df))
  /\ Forall (fun r : cell * nat * nat =>
               snd r <= List.length (group legacy_prefix cell_eqb (fst (fst r))
                                       (Legacy.ai_subset df)))
            (Legacy.summary df).
Proof.
  split; [intros k; apply (subset_keys Legacy.flagged_key Legacy.is_ai_related) |].
  split.
  { apply Forall_forall. intros x Hx. split.
    - pose proof (subset_flagged Legacy.flagged_key Legacy.is_ai_related df) as F.
      rewrite Forall_forall in F. now destruct (F x Hx).
    - now apply (subset_in Legacy.flagged_key Legacy.is_ai_related). }
  split; [apply (subset_nodup Legacy.flagged_key Legacy.is_ai_related) |].
  split; [apply StronglySorted_map;
          apply (subset_sorted Legacy.flagged_key Legacy.is_ai_related) |].
  rewrite legacy_summary_closed. apply Forall_map, Forall_forall. intros p _.
  cbn [fst snd]. apply legacy_summary_below_subset.
Qed.

(** X8: the candidate list of the broad-recall analyzer holds, in key
    order, one row for every key with some candidate row: the first
    candidate row of the key, with the reason and the fuzzy columns of
    that row. *)
Theorem broad_subset_first_candidate (df : list candidate_row) :
  let key_of := fun cr : candidate_row => course_key (fst cr) in
  let is_candidate := fun cr : candidate_row => Broad.is_ai_candidate (snd cr) in
  (forall k,
     In k (map key_of (broad_subset df))
     <-> exists cr, In cr df /\ key_of cr = k /\ is_candidate cr = true)
  /\ Forall (fun cr =>
               is_candidate cr = true
               /\ first_of key_of key_eqb (key_of cr) (filter is_candidate df) = Some cr)
            (broad_subset df)
  /\ NoDup (map key_of (broad_subset df))
  /\ StronglySorted (fun a b => key_leb a b = true) (map key_of (broad_subset df)).
Proof.
  intros key_of is_candidate.
  split; [intros k; apply (subset_keys key_of is_candidate) |].
  split.
  { apply Forall_forall. intros x Hx. split.
    - pose proof (subset_flagged key_of is_candidate df) as F.
      rewrite Forall_forall in F. now destruct (F x Hx).
    - now apply (subset_in key_of is_candidate). }
  split; [apply (subset_nodup key_of is_candidate) |].
  apply StronglySorted_map. apply (subset_sorted key_of is_candidate).
Qed.

(** ** The empty-prefix report *)

Section DistinctFrames.
Variables A K : Type.
Variable by_ : A -> K.
Variable eqb : K -> K -> bool.
Hypothesis eqb_eq : forall a b, eqb a b = true <-> a = b.

(** A frame without duplicates loses no row. *)
Lemma drop_duplicates_from_distinct seen l :
  NoDup (map by_ l) -> (forall x, In x l -> ~ In (by_ x) seen) ->
  drop_duplicates_from by_ eqb seen l = l.
Proof.
  revert seen. induction l as [| x t IH]; intros seen Hn Hs; [reflexivity |].
  simpl. inversion Hn as [| ? ? Hx Ht]; subst.
  replace (existsb (eqb (by_ x)) seen) with false.
  - f_equal. apply IH; [exact Ht |].
    intros y Hy [E | Hin].
    + apply Hx. rewrite E. now apply in_map.
    + apply (Hs y); [now right | exact Hin].
  - symmetry. destruct (existsb (eqb (by_ x)) seen) eqn:E; [| reflexivity].
    apply (existsb_eqb_In eqb eqb_eq) in E. exfalso. apply (Hs x); [now left | exact E].
Qed.

Lemma drop_duplicates_distinct l :
  NoDup (map by_ l) -> drop_duplicates by_ eqb l = l.
Proof. intros Hn. apply drop_duplicates_from_distinct; [exact Hn | tauto]. Qed.

End DistinctFrames.

Lemma lstrip_no_lead s : no_lead (lstrip s).
Proof.
  induction s as [| c t IH]; simpl; [exact I |].
  destruct (isspace c) eqn:E; [exact IH | exact E].
Qed.

Lemma lstrip_id s : no_lead s -> lstrip s = s.
Proof. destruct s as [| c t]; simpl; [reflexivity |]. now intros ->. Qed.

Lemma lstrip_suffix s : exists sp, s = sp ++ lstrip s.
Proof.
  induction s as [| c t (sp & IH)]; [now exists [] |].
  simpl. destruct (isspace c).
  - exists (c :: sp). simpl. now f_equal.
  - now exists [].
Qed.

Lemma no_lead_rev_lstrip u : no_lead u -> no_lead (rev (lstrip (rev u))).
Proof.
  intros Hu. destruct (lstrip_suffix (rev u)) as (sp & E).
  apply (f_equal (@rev N)) in E. rewrite rev_involutive, rev_app_distr in E.
  destruct (rev (lstrip (rev u))) as [| c t]; [exact I |].
  rewrite E in Hu. exact Hu.
Qed.

Lemma strip_no_lead s : no_lead (strip s) /\ no_lead (rev (strip s)).
Proof.
  unfold strip. split.
  - apply no_lead_rev_lstrip, lstrip_no_lead.
  - rewrite rev_involutive. apply lstrip_no_lead.
Qed.

Lemma strip_id s : no_lead s -> no_lead (rev s) -> strip s = s.
Proof.
  intros H1 H2. unfold strip. rewrite (lstrip_id _ H1), (lstrip_id _ H2).
  apply rev_involutive.
Qed.

Lemma strip_strip s : strip (strip s) = strip s.
Proof. destruct (strip_no_lead s). now apply strip_id. Qed.

Section EmptyPrefixFacts.
Context `{UnicodeTables}.

Lemma prefix_of_row_stripped row p :
  prefix_of_row row = Some p -> p <> [] /\ strip p = p.
Proof.
  unfold prefix_of_row. destruct row as [| first rest]; [discriminate |].
  destruct (is_header (lower (strip first))); [discriminate |].
  destruct (3 <=? List.length (first :: rest))%nat.
  - destruct (strip (nth 2 (first :: rest) [])) eqn:E; [discriminate |].
    intros Hp. injection Hp as <-. split; [discriminate |].
    rewrite <- E. apply strip_strip.
  - destruct (strip first) eqn:E; [discriminate |].
    intros Hp. injection Hp as <-. split; [discriminate |].
    rewrite <- E. apply strip_strip.
Qed.

Lemma collect_prefixes_in rows p :
  In p (collect_prefixes rows) <-> exists row, In row rows /\ prefix_of_row row = Some p.
Proof.
  induction rows as [| row rest IH]; simpl.
  - split; [contradiction | intros (r & [] & _)].
  - destruct (prefix_of_row row) as [q |] eqn:E; simpl; rewrite IH; split.
    + intros [<- | (r & Hr & Hp)]; [exists row; tauto | exists r; tauto].
    + intros (r & [<- | Hr] & Hp); [left; congruence | right; eauto].
    + intros (r & Hr & Hp). exists r. tauto.
    + intros (r & [<- | Hr] & Hp); [congruence | eauto].
Qed.

Lemma collect_prefixes_app rows rows' :
  collect_prefixes (rows ++ rows') = collect_prefixes rows ++ collect_prefixes rows'.
Proof.
  induction rows as [| row rest IH]; [reflexivity |].
  simpl. destruct (prefix_of_row row); simpl; now rewrite IH.
Qed.

(** What [sorted(set(...))] gives is in ascending order without repetition. *)
Lemma read_sorted file :
  StronglySorted (fun a b => text_leb a b = true) (read_empty_prefixes file)
  /\ NoDup (read_empty_prefixes file).
Proof.
  destruct file as [rows |]; simpl; [| split; constructor]. split.
  - apply (sort_values_sorted (fun p : text => p) text_leb text_leb_total text_leb_trans).
  - apply sorted_set_nodup.
Qed.

Lemma read_in rows p :
  In p (read_empty_prefixes (Some rows)) <-> In p (collect_prefixes rows).
Proof. apply sorted_set_in. Qed.

(** A list in the form that [read_empty_prefixes] gives is read as itself. *)
Lemma sorted_set_of_sorted l :
  StronglySorted (fun a b => text_leb a b = true) l -> NoDup l ->
  sort_values (fun p => p) text_leb (drop_duplicates (fun p => p) text_eqb l) = l.
Proof.
  intros Hs Hn.
  rewrite (drop_duplicates_distinct (fun p => p) text_eqb text_eqb_eq)
    by now rewrite map_id.
  now apply sort_values_of_sorted.
Qed.

End EmptyPrefixFacts.

Section EmptyPrefixTheorems.
Context `{UnicodeTables}.

(** X9: [read_empty_prefixes] gives no prefix for a path that does not
    exist; otherwise it gives, in ascending order and without repetition,
    the prefixes of the rows that are not empty and do not start with the
    cell "term" or "prefix" (in any case, spaces around it apart): the
    third cell of a row of three cells or more, the first cell of a shorter
    row, without the spaces around it, and only if something is left. *)
Theorem read_empty_prefixes_sorted_set (file : csv_file) :
  read_empty_prefixes None = []
  /\ StronglySorted (fun a b => text_leb a b = true) (read_empty_prefixes file)
  /\ NoDup (read_empty_prefixes file)
  /\ Forall (fun p => p <> [] /\ strip p = p) (read_empty_prefixes file)
  /\ (forall rows p,
        In p (read_empty_prefixes (Some rows))
        <-> p <> []
            /\ exists first rest,
                 In (first :: rest) rows
                 /\ is_header (lower (strip first)) = false
                 /\ p = strip (if (3 <=? List.length (first :: rest))%nat
                               then nth 2 (first :: rest) [] else first)).
Proof.
  split; [reflexivity |].
  destruct (read_sorted file) as [Hs Hn]. split; [exact Hs |]. split; [exact Hn |].
  split.
  - destruct file as [rows |]; [| constructor].
    apply Forall_forall. intros p Hp. apply read_in, collect_prefixes_in in Hp.
    destruct Hp as (row & _ & Hp). now apply prefix_of_row_stripped in Hp.
  - intros rows p. rewrite read_in, collect_prefixes_in. split.
    + intros (row & Hr & Hp). split; [now apply prefix_of_row_stripped in Hp |].
      unfold prefix_of_row in Hp. destruct row as [| first rest]; [discriminate |].
      exists first, rest. split; [exact Hr |].
      destruct (is_header (lower (strip first))); [discriminate |].
      split; [reflexivity |].
      destruct (3 <=? List.length (first :: rest))%nat;
        match type of Hp with match ?s with _ => _ end = _ =>
          destruct s; [discriminate | now injection Hp as <-] end.
    + intros (Hne & first & rest & Hr & Hh & ->).
      exists (first :: rest). split; [exact Hr |].
      unfold prefix_of_row. rewrite Hh.
      destruct (3 <=? List.length (first :: rest))%nat;
        match goal with |- match ?s with _ => _ end = _ =>
          destruct s; [congruence | reflexivity] end.
Qed.

Lemma header_rows_skipped :
  prefix_of_row (map codes ["term"; "term_code"; "prefix"; "error"]%string) = None
  /\ prefix_of_row [codes "prefix"] = None.
Proof. split; vm_compute; reflexivity. Qed.

Lemma logged_row_prefix e :
  is_header (lower (strip (term_label e))) = false ->
  prefix_of_row (logged_row e)
  = if not_empty (strip (empty_prefix e)) then Some (strip (empty_prefix e)) else None.
Proof.
  intros Hh. unfold prefix_of_row, logged_row. rewrite Hh. simpl.
  now destruct (strip (empty_prefix e)).
Qed.

Lemma log_appends entries : forall rows,
  fold_left log_empty_prefix entries (Some rows)
  = Some (rows ++ map logged_row entries).
Proof.
  induction entries as [| e es IH]; intros rows; simpl.
  - now rewrite app_nil_r.
  - rewrite IH, <- app_assoc. reflexivity.
Qed.

Lemma collect_logged entries :
  Forall (fun e => is_header (lower (strip (term_label e))) = false) entries ->
  collect_prefixes (map logged_row entries)
  = filter not_empty (map (fun e => strip (empty_prefix e)) entries).
Proof.
  induction 1 as [| e es He Hes IH]; [reflexivity |].
  cbn [map collect_prefixes filter]. rewrite (logged_row_prefix _ He), IH.
  now destruct (not_empty (strip (empty_prefix e))).
Qed.

(** Reading back a file that [log_empty_prefix] built. *)
Lemma read_logged (entries : list EmptyPrefix) :
  Forall (fun e => is_header (lower (strip (term_label e))) = false) entries ->
  read_empty_prefixes (fold_left log_empty_prefix entries None)
  = sort_values (fun p => p) text_leb
      (drop_duplicates (fun p => p) text_eqb
         (filter not_empty (map (fun e => strip (empty_prefix e)) entries)))
  /\ (forall p,
        In p (read_empty_prefixes (fold_left log_empty_prefix entries None))
        <-> p <> [] /\ exists e, In e entries /\ strip (empty_prefix e) = p).
Proof.
  intros He.
  assert (E : read_empty_prefixes (fold_left log_empty_prefix entries None)
              = sort_values (fun p => p) text_leb
                  (drop_duplicates (fun p => p) text_eqb
                     (filter not_empty
                        (map (fun e => strip (empty_prefix e)) entries)))).
  { destruct entries as [| e es]; [reflexivity |].
    cbn [fold_left]. unfold log_empty_prefix at 2.
    rewrite log_appends. unfold read_empty_prefixes.
    change ([map codes ["term"; "term_code"; "prefix"; "error"]%string;
             [term_label e; term_code e; empty_prefix e; error e]] ++ map logged_row es)
      with ([map codes ["term"; "term_code"; "prefix"; "error"]%string]
              ++ map logged_row (e :: es)).
    rewrite collect_prefixes_app, (collect_logged He).
    cbn [collect_prefixes]. destruct header_rows_skipped as [-> _]. reflexivity. }
  split; [exact E |].
  intros p. rewrite E. etransitivity; [apply sorted_set_in |].
  rewrite filter_In, in_map_iff. split.
  - intros [(e & <- & Hin) Hp]. split; [| eauto].
    intros N. rewrite N in Hp. discriminate.
  - intros (Hne & e & Hin & <-). split; [eauto |].
    now destruct (strip (empty_prefix e)).
Qed.

(** X10: the file that the scraper builds with [log_empty_prefix],
    starting from no file, is read by [read_empty_prefixes] as the logged
    prefixes, stripped, without the empty ones, sorted and without
    repetition, provided no term label is "term" or "prefix". *)
Theorem read_logged_prefixes (entries : list EmptyPrefix) :
  Forall (fun e => is_header (lower (strip (term_label e))) = false) entries ->
  read_empty_prefixes (fold_left log_empty_prefix entries None)
  = sort_values (fun p => p) text_leb
      (drop_duplicates (fun p => p) text_eqb
         (filter not_empty (map (fun e => strip (empty_prefix e)) entries)))
  /\ (forall p,
        In p (read_empty_prefixes (fold_left log_empty_prefix entries None))
        <-> p <> [] /\ exists e, In e entries /\ strip (empty_prefix e) = p).
Proof. apply read_logged. Qed.

Lemma collect_gap_report l :
  Forall (fun p => p <> [] /\ strip p = p /\ is_header (lower p) = false) l ->
  collect_prefixes (gap_report l) = l.
Proof.
  intros Hl. unfold gap_report. cbn [collect_prefixes].
  destruct header_rows_skipped as [_ ->].
  induction Hl as [| p t (Hne & Hs & Hh) Ht IH]; [reflexivity |].
  cbn [map collect_prefixes]. unfold prefix_of_row at 1.
  rewrite Hs, Hh. cbn [List.length Nat.leb]. rewrite IH.
  destruct p; [congruence | reflexivity].
Qed.

(** X11: the gap report that the legacy [main] writes can be read back:
    [read_empty_prefixes] of the report of the prefixes it read gives the
    same prefixes, provided none of them is "term" or "prefix" in lower
    case.  The header "prefix" of the report is skipped and each row of one
    cell gives its prefix. *)
Theorem gap_report_read_back (file : csv_file) :
  Forall (fun p => is_header (lower p) = false) (read_empty_prefixes file) ->
  read_empty_prefixes (Some (gap_report (read_empty_prefixes file)))
  = read_empty_prefixes file.
Proof.
  intros Hh. destruct (read_sorted file) as [Hs Hn].
  assert (F : Forall (fun p => p <> [] /\ strip p = p /\ is_header (lower p) = false)
                     (read_empty_prefixes file)).
  { apply Forall_forall. intros p Hp. rewrite Forall_forall in Hh.
    destruct file as [rows |]; [| contradiction].
    pose proof Hp as Hp'. apply read_in, collect_prefixes_in in Hp'.
    destruct Hp' as (row & _ & Hr). apply prefix_of_row_stripped in Hr.
    destruct Hr. auto. }
  unfold read_empty_prefixes at 1. rewrite (collect_gap_report F).
  now apply sorted_set_of_sorted.
Qed.

End EmptyPrefixTheorems.

(** ** The words of a text *)

Section WordFacts.
Context `{UnicodeTables}.

Lemma runs_of_cleaned s : forall acc b,
  (b = true -> acc = []) ->
  split_from acc (NON_ALNUM_RE_sub_from b s) = alnum_runs_from acc s.
Proof.
  induction s as [| c t IH]; intros acc b Hb; [reflexivity |].
  simpl. destruct (in_a_z0_9 c) eqn:E.
  - simpl. rewrite (in_a_z0_9_not_space _ E). apply IH. discriminate.
  - destruct b.
    + rewrite (Hb eq_refl). now apply IH.
    + simpl. destruct acc; rewrite IH; auto.
Qed.

Lemma normalize_text_words s : normalize_text s = join [32%N] (words s).
Proof.
  unfold normalize_text, words, split, NON_ALNUM_RE_sub.
  rewrite runs_of_cleaned; [reflexivity | discriminate].
Qed.

Lemma words_are_words s : Forall (fun w => is_word w = true) (words s).
Proof.
  unfold words. rewrite <- (runs_of_cleaned (lower s) (acc := []) (b := false))
    by discriminate.
  apply normalized_words.
Qed.

Lemma runs_app a c b : forall acc,
  in_a_z0_9 c = false ->
  alnum_runs_from acc (a ++ c :: b) = alnum_runs_from acc a ++ alnum_runs_from [] b.
Proof.
  induction a as [| x a IH]; intros acc Hc; simpl.
  - rewrite Hc. now destruct acc.
  - destruct (in_a_z0_9 x); [now apply IH |].
    destruct acc; simpl; now rewrite IH.
Qed.

Lemma lower_ascii_app a b :
  forallb is_ascii a = true -> forallb is_ascii b = true ->
  lower (a ++ [32%N] ++ b) = lower a ++ [32%N] ++ lower b.
Proof.
  intros Ha Hb. unfold lower.
  rewrite Ha, Hb, forallb_app, Ha. simpl. rewrite Hb, map_app. reflexivity.
Qed.

(** The words of two ASCII texts joined by a space are the words of the
    first followed by the words of the second. *)
Lemma words_app a b :
  forallb is_ascii a = true -> forallb is_ascii b = true ->
  words (a ++ [32%N] ++ b) = words a ++ words b.
Proof.
  intros Ha Hb. unfold words. rewrite (lower_ascii_app _ _ Ha Hb).
  simpl. now apply runs_app.
Qed.

Lemma words_join ws :
  Forall (fun w => is_word w = true) ws -> words (join [32%N] ws) = ws.
Proof.
  intros Hws. unfold words.
  rewrite lower_normal by now apply join_chars.
  rewrite <- (runs_of_cleaned (join [32%N] ws) (acc := []) (b := false)) by discriminate.
  rewrite sub_from_join by assumption. now apply split_join.
Qed.

End WordFacts.

(** ** Phrases between word boundaries *)

Lemma join_cons_more sep (w v : text) l :
  join sep (w :: v :: l) = w ++ sep ++ join sep (v :: l).
Proof. reflexivity. Qed.

Lemma join_app sep (a b : list text) :
  join sep (a ++ b)
  = match a, b with
    | [], _ => join sep b
    | _, [] => join sep a
    | _, _ => join sep a ++ sep ++ join sep b
    end.
Proof.
  induction a as [| w a IH]; [reflexivity |].
  destruct b as [| v b]; [now rewrite app_nil_r |].
  destruct a as [| w' a'].
  - reflexivity.
  - change ((w :: w' :: a') ++ v :: b) with (w :: w' :: (a' ++ v :: b)).
    rewrite !join_cons_more.
    change (w' :: a' ++ v :: b) with ((w' :: a') ++ v :: b).
    rewrite IH, <- !app_assoc. reflexivity.
Qed.

Lemma split_from_space x y : forall acc,
  split_from acc (x ++ 32%N :: y) = split_from acc x ++ split_from [] y.
Proof.
  induction x as [| c x IH]; intros acc; simpl.
  - now destruct acc.
  - destruct (isspace c); [| apply IH].
    destruct acc; simpl; now rewrite IH.
Qed.

Lemma split_space x y : split (x ++ 32%N :: y) = split x ++ split y.
Proof. apply split_from_space. Qed.

Section PhraseFacts.
Context `{UnicodeTables}.

Lemma word_char_alnum c : in_a_z0_9 c = true -> is_word_char c = true.
Proof.
  intros Hc. unfold is_word_char.
  rewrite (in_a_z0_9_is_ascii _ Hc : (c <? 128)%N = true).
  unfold in_a_z0_9 in Hc. apply orb_true_iff in Hc. destruct Hc as [-> | ->];
    [reflexivity | now rewrite !orb_true_r].
Qed.

Lemma literal_match w rest : forall prev s k,
  match_here (literal w rest) prev s k = true
  <-> exists s', s = w ++ s'
                 /\ match_here rest (last (map Some w) prev) s' k = true.
Proof.
  induction w as [| c w IH]; intros prev s k.
  - simpl. split; [intros Hm; now exists s | intros (s' & -> & Hm); exact Hm].
  - cbn [literal match_here]. destruct s as [| x t].
    + split; [discriminate | intros (s' & E & _); discriminate].
    + rewrite andb_true_iff, N.eqb_eq, IH, last_shift. split.
      * intros [-> (s' & -> & Hm)]. now exists s'.
      * intros (s' & E & Hm). injection E as -> ->. split; [reflexivity | now exists s'].
Qed.

(** Where a pattern is found: the matcher succeeds at some position. *)
Lemma search_positions r s :
  search r s = true
  <-> exists before rest,
        s = before ++ rest
        /\ match_here r (last (map Some before) None) rest (fun _ _ => true) = true.
Proof.
  unfold search. rewrite search_from_spec. split.
  - intros (before & rest & p & s' & E & Hm). exists before, rest. split; [exact E |].
    apply match_here_spec. eauto.
  - intros (before & rest & E & Hm). apply match_here_spec in Hm.
    destruct Hm as (p & s' & Hm & _). eauto 6.
Qed.

(** A phrase that starts and ends with a word character is found where
    it stands between two positions without a word character next to
    it on the outside. *)
Lemma phrase_search w t first last_ :
  hd_error w = Some first -> last (map Some w) None = Some last_ ->
  is_word_char first = true -> is_word_char last_ = true ->
  (search (phrase_pattern w) t = true
   <-> exists before after,
         t = before ++ w ++ after
         /\ word_at (last (map Some before) None) = false
         /\ word_at (hd_error after) = false).
Proof.
  intros Hf Hl Wf Wl. rewrite search_positions.
  assert (L : forall prev, last (map Some w) prev = Some last_).
  { intros prev. destruct w as [| c w']; [discriminate |].
    rewrite !last_shift in *. exact Hl. }
  split.
  - intros (before & rest & -> & Hm). unfold phrase_pattern in Hm.
    cbn [match_here] in Hm. apply andb_true_iff in Hm. destruct Hm as [Hb Hm].
    apply literal_match in Hm. destruct Hm as (after & -> & Hm).
    cbn [match_here] in Hm. rewrite andb_true_r, L in Hm.
    exists before, after. split; [reflexivity |].
    assert (Hw : hd_error (w ++ after) = Some first)
      by (destruct w; [discriminate | exact Hf]).
    rewrite Hw in Hb. simpl in Hb, Hm. rewrite Wf in Hb. rewrite Wl in Hm.
    split.
    + now destruct (word_at (last (map Some before) None)).
    + now destruct (word_at (hd_error after)).
  - intros (before & after & -> & Hb & Ha). exists before, (w ++ after).
    split; [reflexivity |]. unfold phrase_pattern. cbn [match_here].
    apply andb_true_iff. split.
    + assert (Hw : hd_error (w ++ after) = Some first)
        by (destruct w; [discriminate | exact Hf]).
      rewrite Hw, Hb. simpl. now rewrite Wf.
    + apply literal_match. exists after. split; [reflexivity |].
      cbn [match_here]. rewrite L, Ha. simpl. now rewrite Wl.
Qed.

End PhraseFacts.

Section PhraseWords.
Context `{UnicodeTables}.

Lemma last_map_app (a b : text) d :
  b <> [] -> last (map Some (a ++ b)) d = last (map Some b) d.
Proof.
  intros Hb. induction a as [| x a IH]; [reflexivity |].
  change ((x :: a) ++ b) with (x :: (a ++ b)). rewrite last_shift, <- IH.
  destruct (a ++ b) as [| y l] eqn:E.
  - apply app_eq_nil in E. tauto.
  - now rewrite !last_shift.
Qed.

Lemma word_ends w :
  is_word w = true ->
  exists first last_,
    hd_error w = Some first /\ last (map Some w) None = Some last_
    /\ in_a_z0_9 first = true /\ in_a_z0_9 last_ = true.
Proof.
  intros Hw. apply is_word_inv in Hw. destruct Hw as [Hne Hw].
  destruct w as [| c w']; [congruence |]. inversion Hw as [| ? ? Hc Hw']; subst.
  exists c. clear Hne Hw.
  revert c Hc. induction Hw' as [| d w'' Hd Hw'' IH]; intros c Hc.
  - exists c. auto.
  - destruct (IH d Hd) as (l & _ & El & _ & Hl). exists l.
    rewrite last_shift. rewrite last_shift in El.
    split; [reflexivity |]. split; [| tauto].
    rewrite last_shift. destruct w'' as [| e w3]; [exact El |].
    rewrite !last_shift in *. exact El.
Qed.

Lemma phrase_ends ps :
  ps <> [] -> Forall (fun w => is_word w = true) ps ->
  exists first last_,
    hd_error (join [32%N] ps) = Some first
    /\ last (map Some (join [32%N] ps)) None = Some last_
    /\ in_a_z0_9 first = true /\ in_a_z0_9 last_ = true.
Proof.
  intros Hne Hps. destruct ps as [| p ps]; [congruence |]. clear Hne.
  inversion Hps as [| ? ? Hp Hps']; subst.
  destruct (word_ends _ Hp) as (f & l & Ef & El & Hf & Hl).
  exists f. revert p Hp f l Ef El Hf Hl Hps.
  induction Hps' as [| q ps Hq Hqs IH]; intros p Hp f l Ef El Hf Hl Hps.
  - exists l. simpl. auto.
  - destruct (word_ends _ Hq) as (f' & l' & Ef' & El' & Hf' & Hl').
    destruct (IH q Hq f' l' Ef' El' Hf' Hl') as (l'' & _ & El'' & _ & Hl'').
    { now constructor. }
    exists l''. rewrite join_cons_more. split.
    + destruct p; [discriminate | exact Ef].
    + split; [| tauto].
      rewrite last_map_app; [rewrite last_map_app; [exact El'' |] |].
      * destruct q; [discriminate |]. rewrite join_cons. discriminate.
      * discriminate.
Qed.

(** In a text of word characters and spaces, a position has no word
    character before it at the start and after a space, and none after
    it at the end and before a space. *)
Lemma no_word_before before :
  Forall (fun c => in_a_z0_9 c = true \/ c = 32%N) before ->
  (word_at (last (map Some before) None) = false
   <-> before = [] \/ exists b, before = b ++ [32%N]).
Proof.
  intros Hc. destruct before as [| c0 t] using rev_ind; [simpl; tauto |].
  rewrite map_app. simpl map. rewrite last_last. simpl.
  apply Forall_app in Hc. destruct Hc as [_ Hx]. inversion Hx as [| ? ? Hx' _]; subst.
  split.
  - intros Hw. right. exists t. destruct Hx' as [Hx' | ->]; [| reflexivity].
    rewrite (@word_char_alnum _ _ Hx') in Hw. discriminate.
  - intros [E | (b & E)].
    + apply app_eq_nil in E. destruct E; discriminate.
    + apply app_inj_tail in E. destruct E as [_ ->]. reflexivity.
Qed.

Lemma no_word_after after :
  Forall (fun c => in_a_z0_9 c = true \/ c = 32%N) after ->
  (word_at (hd_error after) = false
   <-> after = [] \/ exists a, after = 32%N :: a).
Proof.
  intros Hc. destruct after as [| x a]; [simpl; tauto |]. simpl.
  inversion Hc as [| ? ? Hx _]; subst. split.
  - intros Hw. right. exists a. destruct Hx as [Hx | ->]; [| reflexivity].
    rewrite (@word_char_alnum _ _ Hx) in Hw. discriminate.
  - intros [E | (a' & E)]; [discriminate |]. injection E as -> _. reflexivity.
Qed.

(** On a normalized text, a phrase between two [\b] is found exactly
    when its words stand in the text one after the other. *)
Lemma phrase_in_words ps ws :
  ps <> [] ->
  Forall (fun w => is_word w = true) ps ->
  Forall (fun w => is_word w = true) ws ->
  (search (phrase_pattern (join [32%N] ps)) (join [32%N] ws) = true
   <-> contiguous ps ws).
Proof.
  intros Hne Hps Hws.
  destruct (phrase_ends Hne Hps) as (f & l & Ef & El & Hf & Hl).
  rewrite (@phrase_search _ (join [32%N] ps) (join [32%N] ws) f l Ef El
             (@word_char_alnum _ f Hf) (@word_char_alnum _ l Hl)).
  split.
  - intros (before & after & E & Hb & Ha).
    pose proof (join_chars Hws) as Hc. rewrite E in Hc.
    apply Forall_app in Hc. destruct Hc as [Hcb Hc].
    apply Forall_app in Hc. destruct Hc as [_ Hca].
    apply (no_word_before Hcb) in Hb. apply (no_word_after Hca) in Ha.
    apply (f_equal split) in E. rewrite (split_join Hws) in E.
    destruct Hb as [-> | (b & ->)], Ha as [-> | (a & ->)].
    + exists [], []. rewrite app_nil_r in E. simpl in E.
      now rewrite E, (split_join Hps), app_nil_r.
    + exists [], (split a). simpl in E. now rewrite E, split_space, (split_join Hps).
    + exists (split b), []. rewrite app_nil_r, <- app_assoc in E. simpl in E.
      now rewrite E, split_space, (split_join Hps), app_nil_r.
    + exists (split b), (split a). rewrite <- app_assoc in E. simpl in E.
      now rewrite E, split_space, split_space, (split_join Hps).
  - intros (l1 & l2 & ->).
    exists (match l1 with [] => [] | _ => join [32%N] l1 ++ [32%N] end),
           (match l2 with [] => [] | _ => 32%N :: join [32%N] l2 end).
    split; [| split].
    + rewrite !join_app. destruct ps as [| p ps']; [congruence |].
      destruct l1 as [| a l1'], l2 as [| b l2']; cbv iota;
        rewrite ?app_nil_r, <- ?app_assoc; reflexivity.
    + destruct l1 as [| a l1']; [reflexivity |].
      rewrite map_app. simpl map. now rewrite last_last.
    + now destruct l2.
Qed.

End PhraseWords.

(** ** Normalized texts, word by word *)

Lemma plain_phrases_in_primary :
  map (fun ps => phrase_pattern (join [32%N] ps)) plain_primary_phrases
  = map (fun i => nth i Precise.primary_patterns Empty)
        [0; 1; 2; 3; 5; 6; 7; 9; 10; 11; 12; 14; 15]%nat.
Proof. vm_compute. reflexivity. Qed.

Lemma plain_phrase_pattern ps :
  In ps plain_primary_phrases ->
  In (phrase_pattern (join [32%N] ps)) Precise.primary_patterns.
Proof.
  intros Hps.
  apply (in_map (fun ps => phrase_pattern (join [32%N] ps))) in Hps.
  rewrite plain_phrases_in_primary in Hps. apply in_map_iff in Hps.
  destruct Hps as (i & <- & Hi). apply nth_In.
  replace (List.length Precise.primary_patterns) with 18%nat by (vm_compute; reflexivity).
  simpl in Hi. repeat (destruct Hi as [<- | Hi]; [lia |]). contradiction.
Qed.

Lemma plain_phrase_words ps :
  In ps plain_primary_phrases ->
  ps <> [] /\ Forall (fun w => is_word w = true) ps.
Proof.
  intros Hps.
  assert (F : forallb (fun ps : list text => not_empty (List.concat ps) && forallb is_word ps)
                      plain_primary_phrases = true) by (vm_compute; reflexivity).
  rewrite forallb_forall in F. specialize (F _ Hps).
  apply andb_true_iff in F. destruct F as [Hn Hw]. split.
  - intros ->. discriminate.
  - apply Forall_forall. now apply forallb_forall.
Qed.

Section WordTheorems.
Context `{UnicodeTables}.

(** X12: the normalized text is the words of the text joined by single
    spaces, where the words are the maximal runs of code points of
    [a-z0-9] of the lower-cased text; it is empty exactly when the text has
    no such code point, and a text made of words joined by single spaces
    has exactly these words. *)
Theorem normalize_text_is_words (s : text) :
  normalize_text s = join [32%N] (words s)
  /\ Forall (fun w => is_word w = true) (words s)
  /\ (normalize_text s = [] <-> words s = [])
  /\ words (normalize_text s) = words s
  /\ (forall ws, Forall (fun w => is_word w = true) ws -> words (join [32%N] ws) = ws).
Proof.
  pose proof (words_are_words s) as Hw.
  split; [apply normalize_text_words |]. split; [exact Hw |]. split; [| split].
  - rewrite normalize_text_words. split.
    + intros E. destruct (words s) as [| w ws]; [reflexivity |].
      inversion Hw as [| ? ? Hw1 _]; subst. apply is_word_inv in Hw1.
      exfalso. now apply (join_not_empty [32%N] ws (proj1 Hw1)).
    + now intros ->.
  - rewrite normalize_text_words. now apply words_join.
  - apply words_join.
Qed.

Lemma joint_text_norm (r : Row) :
  forallb is_ascii (fillna_str (title r)) = true ->
  forallb is_ascii (fillna_str (description r)) = true ->
  normalize_text (joint_text r)
  = join [32%N] (words (fillna_str (title r)) ++ words (fillna_str (description r))).
Proof.
  intros Ht Hd. unfold joint_text. now rewrite normalize_text_words, words_app.
Qed.

(** X13: for a row whose title and description are ASCII, the text that
    the three analyzers match is the words of the title followed by the
    words of the description, joined by single spaces: the last word of
    the title and the first word of the description become neighbours. *)
Theorem joint_text_is_title_then_description (r : Row) :
  forallb is_ascii (fillna_str (title r)) = true ->
  forallb is_ascii (fillna_str (description r)) = true ->
  let ws := words (fillna_str (title r)) ++ words (fillna_str (description r)) in
  Precise.text_norm_of r = join [32%N] ws
  /\ Legacy.text_norm_of r = join [32%N] ws
  /\ Broad.text_norm_of r = join [32%N] ws
  /\ Forall (fun w => is_word w = true) ws.
Proof.
  intros Ht Hd ws. subst ws.
  pose proof (joint_text_norm r Ht Hd) as E. unfold joint_text in E.
  repeat split; try exact E.
  apply Forall_app. split; apply words_are_words.
Qed.

(** X14: on a normalized text, a pattern [\bphrase\b] whose phrase is
    words joined by single spaces is found exactly when these words stand
    in the text one after the other, as whole words.  Thirteen of the
    primary patterns of the precise analyzer are such patterns. *)
Theorem phrase_found_iff_whole_words (ps ws : list text) :
  ps <> [] ->
  Forall (fun w => is_word w = true) ps ->
  Forall (fun w => is_word w = true) ws ->
  (search (phrase_pattern (join [32%N] ps)) (join [32%N] ws) = true
   <-> contiguous ps ws)
  /\ Forall (fun qs => In (phrase_pattern (join [32%N] qs)) Precise.primary_patterns)
            plain_primary_phrases.
Proof.
  intros Hne Hps Hws. split; [now apply phrase_in_words |].
  apply Forall_forall. intros qs. apply plain_phrase_pattern.
Qed.

End WordTheorems.

(** ** Primary phrases *)

Lemma shared_phrases_patterns :
  map phrase_pattern shared_phrases
  = map (fun i => nth i Precise.primary_patterns Empty) [15; 5; 2; 3; 0; 1; 6; 7]%nat.
Proof. vm_compute. reflexivity. Qed.

Section PhraseTheorems.
Context `{UnicodeTables} `{FuzzyScorer}.

Lemma primary_hit_flags `{EthicsMatcher} (args : Precise.Args) (r : Row) :
  Precise.matches_any (Precise.text_norm_of r) Precise.primary_patterns = true ->
  Precise.classify_row args r
  = Some {| Precise.row := r; Precise.is_ai_related := true;
            Precise.is_ethics_related := Precise.ethics_flag r |}.
Proof.
  intros Hp. unfold Precise.classify_row.
  destruct (precise_ai_flag_total args (Precise.text_norm_of r)) as (b & Hb).
  rewrite Hb. unfold Precise.ai_flag, Precise.keyword_match in Hb. rewrite Hp in Hb.
  destruct (Precise.fuzzy_match args (Precise.text_norm_of r)); [| discriminate].
  injection Hb as <-. reflexivity.
Qed.

(** X15: a row with ASCII title and description in which the words of
    a plain primary phrase stand one after the other, in the title, in the
    description or across the two, is classified [is_ai_related = true] by
    the precise analyzer, whatever the threshold, the fuzzy switch and the
    fuzzy scores. *)
Theorem primary_phrase_flags_row `{EthicsMatcher}
        (args : Precise.Args) (r : Row) (ps : list text) :
  In ps plain_primary_phrases ->
  forallb is_ascii (fillna_str (title r)) = true ->
  forallb is_ascii (fillna_str (description r)) = true ->
  contiguous ps (words (fillna_str (title r)) ++ words (fillna_str (description r))) ->
  Precise.keyword_match (Precise.text_norm_of r) = true
  /\ Precise.classify_row args r
     = Some {| Precise.row := r; Precise.is_ai_related := true;
               Precise.is_ethics_related := Precise.ethics_flag r |}.
Proof.
  intros Hps Ht Hd Hc.
  destruct (plain_phrase_words Hps) as [Hne Hw].
  set (ws := words (fillna_str (title r)) ++ words (fillna_str (description r))) in *.
  assert (Hws : Forall (fun w => is_word w = true) ws)
    by (apply Forall_app; split; apply words_are_words).
  assert (E : Precise.text_norm_of r = join [32%N] ws) by now apply joint_text_norm.
  assert (Hs : search (phrase_pattern (join [32%N] ps)) (join [32%N] ws) = true)
    by now apply phrase_in_words.
  assert (Hp : Precise.matches_any (Precise.text_norm_of r) Precise.primary_patterns
               = true).
  { rewrite E. unfold Precise.matches_any.
    destruct (join [32%N] ws) as [| c t] eqn:Ej.
    - exfalso. destruct Hc as (l1 & l2 & El).
      destruct ws as [| a ws'].
      + symmetry in El. apply app_eq_nil in El. destruct El as [_ El].
        apply app_eq_nil in El. tauto.
      + inversion Hws as [| ? ? Ha _]; subst. apply is_word_inv in Ha.
        now apply (join_not_empty [32%N] ws' (proj1 Ha)).
    - apply existsb_exists. exists (phrase_pattern (join [32%N] ps)).
      split; [now apply plain_phrase_pattern | exact Hs]. }
  split.
  - unfold Precise.keyword_match. now rewrite Hp.
  - now apply primary_hit_flags.
Qed.

(** X16: a text in which the precise pattern [\bphrase\b] of one of the
    eight phrases that are also legacy keywords is found holds the keyword,
    so the legacy analyzer flags it as well. *)
Theorem precise_phrase_is_legacy_keyword (args : Legacy.Args) (w t : text) :
  In w shared_phrases ->
  search (phrase_pattern w) t = true ->
  In (phrase_pattern w) Precise.primary_patterns
  /\ In w Legacy.keyword_norms
  /\ occurs_in w t = true
  /\ Legacy.ai_flag args t = Some true.
Proof.
  intros Hw Hs.
  assert (Hk : In w Legacy.keyword_norms).
  { rewrite legacy_keyword_norms. unfold shared_phrases in Hw. simpl in Hw |- *.
    intuition. }
  assert (Ho : occurs_in w t = true).
  { apply search_positions in Hs. destruct Hs as (before & rest & -> & Hm).
    unfold phrase_pattern in Hm. cbn [match_here] in Hm.
    apply andb_true_iff in Hm. destruct Hm as [_ Hm].
    apply literal_match in Hm. destruct Hm as (after & -> & _).
    apply occurs_in_spec. eauto. }
  split.
  { apply (in_map phrase_pattern) in Hw. rewrite shared_phrases_patterns in Hw.
    apply in_map_iff in Hw. destruct Hw as (i & <- & Hi). apply nth_In.
    replace (List.length Precise.primary_patterns) with 18%nat
      by (vm_compute; reflexivity).
    simpl in Hi. repeat (destruct Hi as [<- | Hi]; [lia |]). contradiction. }
  split; [exact Hk |]. split; [exact Ho |].
  unfold Legacy.ai_flag.
  destruct (legacy_score_total t) as (score & ->).
  replace (Legacy.contains_keyword t Legacy.keyword_norms) with true; [reflexivity |].
  symmetry. unfold Legacy.contains_keyword. destruct t as [| c t'].
  - exfalso. apply occurs_in_spec in Ho. destruct Ho as (b & a & E).
    symmetry in E. apply app_eq_nil in E. destruct E as [_ E].
    apply app_eq_nil in E. destruct E as [-> _].
    unfold shared_phrases in Hw. simpl in Hw.
    repeat (destruct Hw as [Hw | Hw]; [discriminate |]). exact Hw.
  - apply existsb_exists. eauto.
Qed.

End PhraseTheorems.

(** ** Whole tables *)

Lemma traverse_total (X Y : Type) (f : X -> option Y) l :
  (forall x, In x l -> exists y, f x = Some y) ->
  exists ys, traverse f l = Some ys /\ Forall2 (fun x y => f x = Some y) l ys.
Proof.
  induction l as [| x t IH]; intros Hf; simpl.
  - exists []. split; [reflexivity | constructor].
  - destruct (Hf x (or_introl eq_refl)) as (y & Hy).
    destruct IH as (ys & E & F); [intros; apply Hf; now right |].
    rewrite Hy, E. exists (y :: ys). split; [reflexivity | now constructor].
Qed.

Lemma traverse_none (X Y : Type) (f : X -> option Y) l :
  traverse f l = None <-> exists x, In x l /\ f x = None.
Proof.
  induction l as [| x t IH]; simpl.
  - split; [discriminate | intros (x & [] & _)].
  - destruct (f x) as [y |] eqn:E.
    + destruct (traverse f t) as [ys |] eqn:Et.
      * split; [discriminate |]. intros (z & [<- | Hz] & Ez); [congruence |].
        assert (N : @None (list Y) = None) by reflexivity.
        destruct IH as [_ IH]. discriminate IH. eauto.
      * split; [| reflexivity]. intros _.
        destruct IH as [IH _]. destruct (IH eq_refl) as (z & Hz & Ez). eauto.
    + split; [| reflexivity]. intros _. eauto.
Qed.

(** X17: the classification of a table by the precise and by the legacy
    analyzer never raises: it gives one flagged row for every row, in the
    order of the table and with the row unchanged, each with the flag of
    its own normalized text. *)
Theorem classify_row_by_row `{UnicodeTables} `{FuzzyScorer} `{EthicsMatcher}
        (args : Precise.Args) (old_args : Legacy.Args) (df : list Row) :
  (exists flagged,
     Precise.classify args df = Some flagged
     /\ map Precise.row flagged = df
     /\ Forall (fun f =>
                  Precise.ai_flag args (Precise.text_norm_of (Precise.row f))
                  = Some (Precise.is_ai_related f)
                  /\ Precise.is_ethics_related f = Precise.ethics_flag (Precise.row f))
               flagged)
  /\ (exists flagged,
        Legacy.classify old_args df = Some flagged
        /\ map Legacy.row flagged = df
        /\ Forall (fun f =>
                     Legacy.ai_flag old_args (Legacy.text_norm_of (Legacy.row f))
                     = Some (Legacy.is_ai_related f))
                  flagged).
Proof.
  split.
  - destruct (traverse_total (Precise.classify_row args) df) as (ys & E & F).
    { intros r _. unfold Precise.classify_row.
      destruct (precise_ai_flag_total args (Precise.text_norm_of r)) as (b & ->). eauto. }
    exists ys. split; [exact E |].
    clear E. induction F as [| r y df' ys' Hr F' IH]; [repeat split; constructor |].
    destruct IH as [IH1 IH2]. unfold Precise.classify_row in Hr.
    destruct (Precise.ai_flag args (Precise.text_norm_of r)) as [b |] eqn:Eb;
      [| discriminate].
    injection Hr as <-. split; [simpl; now rewrite IH1 |].
    constructor; [simpl; now split | exact IH2].
  - destruct (traverse_total (Legacy.classify_row old_args) df) as (ys & E & F).
    { intros r _. unfold Legacy.classify_row, Legacy.ai_flag.
      destruct (legacy_score_total (Legacy.text_norm_of r)) as (s & ->). eauto. }
    exists ys. split; [exact E |].
    clear E. induction F as [| r y df' ys' Hr F' IH]; [repeat split; constructor |].
    destruct IH as [IH1 IH2]. unfold Legacy.classify_row in Hr.
    destruct (Legacy.ai_flag old_args (Legacy.text_norm_of r)) as [b |] eqn:Eb;
      [| discriminate].
    injection Hr as <-. split; [simpl; now rewrite IH1 |].
    constructor; [simpl; exact Eb | exact IH2].
Qed.

(** ** The fuzzy columns of the broad-recall analyzer *)

Section BroadFuzzy.
Context `{UnicodeTables} `{FuzzyScorer}.

Lemma broad_hits_empty : Broad.hits [] = [].
Proof. vm_compute. reflexivity. Qed.

(** X18: in a row of the broad-recall analyzer, with [--disable-fuzzy]
    the fuzzy score is 0, the fuzzy phrase is empty and the row is a
    candidate exactly when a rule matched; a fuzzy phrase that is not
    empty is one of the normalized fuzzy phrases, the score of the row is
    its score, no phrase scores more, and the score reaches the threshold;
    for the empty text no rule matches and reason and phrase are empty. *)
Theorem broad_fuzzy_columns (args : Broad.Args) (text_norm : text) :
  let c := Broad.candidate args text_norm in
  (Broad.disable_fuzzy args = true ->
   Broad.ai_candidate_fuzzy_score c = 0%Z
   /\ Broad.ai_candidate_fuzzy_phrase c = []
   /\ Broad.is_ai_candidate c = Broad.matched text_norm)
  /\ (Broad.ai_candidate_fuzzy_phrase c <> [] ->
      Broad.disable_fuzzy args = false
      /\ (Broad.fuzzy_threshold args <= Broad.ai_candidate_fuzzy_score c)%Z
      /\ In (Broad.ai_candidate_fuzzy_phrase c) Broad.fuzzy_phrases
      /\ partial_ratio text_norm (Broad.ai_candidate_fuzzy_phrase c)
         = Broad.ai_candidate_fuzzy_score c
      /\ Forall (fun q => (partial_ratio text_norm q
                           <= Broad.ai_candidate_fuzzy_score c)%Z)
                Broad.fuzzy_phrases)
  /\ (text_norm = [] ->
      Broad.matched text_norm = false
      /\ Broad.ai_candidate_reason c = []
      /\ Broad.ai_candidate_fuzzy_phrase c = []
      /\ Broad.is_ai_candidate c
         = negb (Broad.disable_fuzzy args) && (Broad.fuzzy_threshold args <=? 0)%Z).
Proof.
  intros c. subst c. unfold Broad.candidate, Broad.fuzzy_columns.
  split; [| split].
  - intros ->. cbn. now rewrite orb_false_r.
  - destruct (Broad.disable_fuzzy args); [cbn; congruence |].
    destruct (Broad.best_fuzzy_match text_norm Broad.fuzzy_phrases) as [s p] eqn:E.
    cbn [Broad.ai_candidate_fuzzy_phrase Broad.ai_candidate_fuzzy_score].
    destruct (Z.leb_spec (Broad.fuzzy_threshold args) s) as [Hle | Hgt]; [| congruence].
    intros Hp. split; [reflexivity |]. split; [exact Hle |].
    assert (Hne : text_norm <> []).
    { intros ->. simpl in E. injection E as <- <-. congruence. }
    destruct (@best_fuzzy_match_first _ text_norm Broad.fuzzy_phrases Hne)
      as (_ & Hl & Hc).
    rewrite E in Hl, Hc. cbn [fst snd] in Hl, Hc.
    destruct Hc as [Hc | (l1 & l2 & E1 & E2 & _)].
    + injection Hc as _ ->. congruence.
    + split; [rewrite E1; apply in_or_app; right; now left |]. now split.
  - intros ->. unfold Broad.matched, Broad.reason. rewrite broad_hits_empty.
    destruct (Broad.disable_fuzzy args); cbn.
    + now repeat split.
    + repeat split. now destruct (Broad.fuzzy_threshold args <=? 0)%Z.
      now destruct (Broad.fuzzy_threshold args <=? 0)%Z.
Qed.

End BroadFuzzy.

(** ** The recorded reason of the broad-recall analyzer *)

Section BroadReason.
Context `{UnicodeTables} `{FuzzyScorer}.









End BroadReason.

Section BroadReasonExamples.
#[local] Existing Instance ascii_tables.
#[local] Existing Instance exact_scorer.

(** The empty text at a threshold of 0: a candidate through the fuzzy
    fallback, with no phrase and no reason. *)
Lemma broad_blank_text_threshold_zero :
  Broad.candidate {| Broad.fuzzy_threshold := 0; Broad.disable_fuzzy := false |} []
  = {| Broad.is_ai_candidate := true;
       Broad.ai_candidate_reason := [];
       Broad.ai_candidate_fuzzy_phrase := [];
       Broad.ai_candidate_fuzzy_score := 0 |}.
Proof. vm_compute. reflexivity. Qed.

End BroadReasonExamples.

(** ** More worked examples *)

Section MoreExamples.
#[local] Existing Instance ascii_tables.
#[local] Existing Instance exact_scorer.
#[local] Existing Instance no_ethics.

(** A log of the scraper with a repeated prefix, spaces and a blank prefix. *)
Lemma read_scraper_log :
  Forall (fun e => is_header (lower (strip (term_label e))) = false) scraper_log
  /\ read_empty_prefixes (fold_left log_empty_prefix scraper_log None)
     = [codes "ABC"; codes "ZZZ"].
Proof.
  assert (F : Forall (fun e => is_header (lower (strip (term_label e))) = false)
                     scraper_log)
    by (repeat (constructor; [vm_compute; reflexivity |]); constructor).
  split; [exact F |].
  destruct (@read_logged_prefixes _ scraper_log F) as [E _].
  rewrite E. vm_compute. reflexivity.
Defined.

(** The gap report of that log, read back. *)
Lemma gap_report_of_scraper_log :
  let file := fold_left log_empty_prefix scraper_log None in
  Forall (fun p => is_header (lower p) = false) (read_empty_prefixes file)
  /\ gap_report (read_empty_prefixes file)
     = [[codes "prefix"]; [codes "ABC"]; [codes "ZZZ"]]
  /\ read_empty_prefixes (Some (gap_report (read_empty_prefixes file)))
     = read_empty_prefixes file.
Proof.
  intros file.
  assert (F : Forall (fun p => is_header (lower p) = false) (read_empty_prefixes file))
    by (vm_compute; repeat (constructor; [reflexivity |]); constructor).
  split; [exact F |]. split; [vm_compute; reflexivity |].
  exact (@gap_report_read_back _ file F).
Defined.

Lemma deep_row_words :
  forallb is_ascii (fillna_str (title deep_row)) = true
  /\ forallb is_ascii (fillna_str (description deep_row)) = true
  /\ Precise.text_norm_of deep_row
     = join [32%N] (map codes ["going"; "deep"; "learning"; "from"; "data"]%string).
Proof.
  assert (Ht : forallb is_ascii (fillna_str (title deep_row)) = true) by reflexivity.
  assert (Hd : forallb is_ascii (fillna_str (description deep_row)) = true)
    by reflexivity.
  split; [exact Ht |]. split; [exact Hd |].
  destruct (@joint_text_is_title_then_description _ deep_row Ht Hd) as (E & _).
  rewrite E. vm_compute. reflexivity.
Defined.

Lemma machine_learning_whole_words :
  let ps := map codes ["machine"; "learning"]%string in
  let ws := map codes ["intro"; "to"; "machine"; "learning"]%string in
  ps <> []
  /\ Forall (fun w => is_word w = true) ps
  /\ Forall (fun w => is_word w = true) ws
  /\ contiguous ps ws
  /\ search (phrase_pattern (join [32%N] ps)) (join [32%N] ws) = true.
Proof.
  intros ps ws.
  assert (Hne : ps <> []) by discriminate.
  assert (Hps : Forall (fun w => is_word w = true) ps)
    by (repeat (constructor; [reflexivity |]); constructor).
  assert (Hws : Forall (fun w => is_word w = true) ws)
    by (repeat (constructor; [reflexivity |]); constructor).
  assert (Hc : contiguous ps ws)
    by (exists (map codes ["intro"; "to"]%string), []; reflexivity).
  split; [exact Hne |]. split; [exact Hps |]. split; [exact Hws |].
  split; [exact Hc |].
  destruct (@phrase_found_iff_whole_words _ ps ws Hne Hps Hws) as [[_ I] _]. exact (I Hc).
Defined.

(** "deep learning" across the title and the description. *)
Lemma deep_row_flagged :
  In (map codes ["deep"; "learning"]%string) plain_primary_phrases
  /\ contiguous (map codes ["deep"; "learning"]%string)
       (words (fillna_str (title deep_row)) ++ words (fillna_str (description deep_row)))
  /\ Precise.classify_row default_args deep_row
     = Some {| Precise.row := deep_row; Precise.is_ai_related := true;
               Precise.is_ethics_related := false |}.
Proof.
  assert (Hin : In (map codes ["deep"; "learning"]%string) plain_primary_phrases)
    by (right; right; left; reflexivity).
  assert (Hc : contiguous (map codes ["deep"; "learning"]%string)
                 (words (fillna_str (title deep_row))
                  ++ words (fillna_str (description deep_row))))
    by (exists [codes "going"], (map codes ["from"; "data"]%string);
        vm_compute; reflexivity).
  split; [exact Hin |]. split; [exact Hc |].
  exact (proj2 (@primary_phrase_flags_row _ _ _ default_args deep_row _ Hin eq_refl eq_refl Hc)).
Defined.

Lemma gpt_flagged_by_both :
  In (codes "gpt") shared_phrases
  /\ search (phrase_pattern (codes "gpt")) (normalize_text (codes "Uses GPT models."))
     = true
  /\ Legacy.ai_flag {| Legacy.fuzzy_threshold := 85 |}
       (normalize_text (codes "Uses GPT models.")) = Some true.
Proof.
  assert (Hin : In (codes "gpt") shared_phrases) by (vm_compute; tauto).
  assert (Hs : search (phrase_pattern (codes "gpt"))
                 (normalize_text (codes "Uses GPT models.")) = true)
    by (vm_compute; reflexivity).
  split; [exact Hin |]. split; [exact Hs |].
  exact (proj2 (proj2 (proj2
    (@precise_phrase_is_legacy_keyword _ _ {| Legacy.fuzzy_threshold := 85 |} _ _ Hin Hs)))).
Defined.

End MoreExamples.

(** ** The rule sets as lists of phrases *)

Lemma existsb_orb (X : Type) (f g : X -> bool) l :
  existsb (fun x => f x || g x) l = existsb f l || existsb g l.
Proof.
  induction l as [| x t IH]; [reflexivity |]. simpl. rewrite IH.
  destruct (f x), (g x), (existsb f t), (existsb g t); reflexivity.
Qed.

Lemma existsb_map (X Y : Type) (f : Y -> bool) (g : X -> Y) l :
  existsb f (map g l) = existsb (fun x => f (g x)) l.
Proof. induction l as [| x t IH]; [reflexivity |]. simpl. now rewrite IH. Qed.

Lemma existsb_flat_map (X Y : Type) (f : Y -> bool) (g : X -> list Y) l :
  existsb f (flat_map g l) = existsb (fun x => existsb f (g x)) l.
Proof.
  induction l as [| x t IH]; [reflexivity |]. simpl. now rewrite existsb_app, IH.
Qed.

Lemma existsb_same (X : Type) (f g : X -> bool) l :
  (forall x, f x = g x) -> existsb f l = existsb g l.
Proof. intros E. induction l as [| x t IH]; [reflexivity |]. simpl. now rewrite E, IH. Qed.

Section Expansion.
Context `{UnicodeTables}.

Lemma match_here_ext r : forall prev s k k',
  (forall p s', k p s' = k' p s') ->
  match_here r prev s k = match_here r prev s k'.
Proof.
  induction r as [| c | cs | | r1 IH1 r2 IH2 | r1 IH1 r2 IH2 | r1 IH1];
    intros prev s k k' E; simpl.
  - apply E.
  - destruct s; [reflexivity | now rewrite E].
  - destruct s; [reflexivity | now rewrite E].
  - now rewrite E.
  - apply IH1. intros p s'. now apply IH2.
  - now rewrite (IH1 _ _ k k' E), (IH2 _ _ k k' E).
  - now rewrite (IH1 _ _ k k' E), E.
Qed.

(** Matching before one of several continuations. *)
Lemma match_here_existsb (X : Type) r (l : list X) : forall prev s k,
  match_here r prev s (fun p s' => existsb (fun x => k x p s') l)
  = existsb (fun x => match_here r prev s (k x)) l.
Proof.
  induction r as [| c | cs | | r1 IH1 r2 IH2 | r1 IH1 r2 IH2 | r1 IH1];
    intros prev s k; simpl.
  - reflexivity.
  - destruct s as [| x t].
    + induction l; simpl; auto.
    + destruct (x =? c)%N; simpl; [reflexivity | induction l; simpl; auto].
  - destruct s as [| x t].
    + induction l; simpl; auto.
    + destruct (existsb (N.eqb x) cs); simpl; [reflexivity | induction l; simpl; auto].
  - destruct (xorb (word_at prev) (word_at (hd_error s))); simpl;
      [reflexivity | induction l; simpl; auto].
  - rewrite <- IH1. apply match_here_ext. intros p s'. apply IH2.
  - rewrite IH1, IH2. symmetry. apply existsb_orb.
  - rewrite IH1. symmetry. apply existsb_orb.
Qed.

Lemma seq_of_app e1 e2 : forall prev s k,
  match_here (seq_of (e1 ++ e2)) prev s k
  = match_here (seq_of e1) prev s (fun p s' => match_here (seq_of e2) p s' k).
Proof.
  induction e1 as [| i e1 IH]; intros prev s k; [reflexivity |].
  destruct i as [c |]; simpl.
  - destruct s as [| x t]; [reflexivity |]. now rewrite IH.
  - now rewrite IH.
Qed.

(** A pattern matches where one of its sequences does. *)
Lemma expand_match r : forall prev s k,
  match_here r prev s k
  = existsb (fun e => match_here (seq_of e) prev s k) (expand r).
Proof.
  induction r as [| c | cs | | r1 IH1 r2 IH2 | r1 IH1 r2 IH2 | r1 IH1];
    intros prev s k.
  - simpl. now rewrite orb_false_r.
  - simpl. now rewrite orb_false_r.
  - cbn [expand]. rewrite existsb_map. simpl. destruct s as [| x t].
    + induction cs; simpl; auto.
    + induction cs as [| c cs IH]; [reflexivity |]. simpl. rewrite <- IH.
      destruct (x =? c)%N, (existsb (N.eqb x) cs), (k (Some x) t); reflexivity.
  - simpl. now rewrite orb_false_r.
  - cbn [expand match_here]. rewrite existsb_flat_map, IH1.
    apply existsb_same. intros e1. rewrite existsb_map.
    rewrite (match_here_ext (seq_of e1) prev s _
               (fun p s' => existsb (fun e2 => match_here (seq_of e2) p s' k) (expand r2)))
      by (intros; apply IH2).
    rewrite match_here_existsb. apply existsb_same. intros e2.
    symmetry. apply seq_of_app.
  - cbn [expand match_here]. now rewrite existsb_app, IH1, IH2.
  - cbn [expand match_here]. rewrite existsb_app, IH1. simpl. now rewrite orb_false_r.
Qed.

Lemma expand_search_from r : forall s prev,
  search_from r prev s
  = existsb (fun e => search_from (seq_of e) prev s) (expand r).
Proof.
  induction s as [| c t IH]; intros prev; simpl.
  - rewrite expand_match, !orb_false_r. apply existsb_same. intros e.
    now rewrite orb_false_r.
  - rewrite expand_match, IH. symmetry. apply existsb_orb.
Qed.

Lemma expand_search r s :
  search r s = existsb (fun e => search (seq_of e) s) (expand r).
Proof. apply expand_search_from. Qed.

Lemma seq_of_phrase w : seq_of (phrase_items w) = phrase_pattern w.
Proof.
  unfold phrase_items, phrase_pattern. simpl. f_equal.
  induction w as [| c w IH]; [reflexivity |]. simpl. now rewrite IH.
Qed.

(** A phrase is found only in a text that holds it. *)
Lemma phrase_search_occurs w t :
  search (phrase_pattern w) t = true -> exists before after, t = before ++ w ++ after.
Proof.
  intros Hs. apply search_positions in Hs. destruct Hs as (before & rest & -> & Hm).
  unfold phrase_pattern in Hm. cbn [match_here] in Hm.
  apply andb_true_iff in Hm. destruct Hm as [_ Hm].
  apply literal_match in Hm. destruct Hm as (after & -> & _). eauto.
Qed.

(** Patterns whose sequences are phrases of words, or hold a hyphen,
    are found in a normalized text exactly when the words of one of the
    phrases stand in it one after the other. *)
Lemma rules_on_words (rs : list regex) (phrases : list (list text)) (others : list text) ws :
  flat_map expand rs
  = map phrase_items (map (join [32%N]) phrases ++ others) \/
  (forall e, In e (flat_map expand rs)
             <-> In e (map phrase_items (map (join [32%N]) phrases ++ others))) ->
  Forall (fun ps => ps <> [] /\ Forall (fun w => is_word w = true) ps) phrases ->
  Forall (fun w => In 45%N w) others ->
  Forall (fun w => is_word w = true) ws ->
  (existsb (fun r => search r (join [32%N] ws)) rs = true
   <-> exists ps, In ps phrases /\ contiguous ps ws).
Proof.
  intros Hex Hph Hot Hws.
  assert (Hex' : forall e, In e (flat_map expand rs)
             <-> In e (map phrase_items (map (join [32%N]) phrases ++ others))).
  { destruct Hex as [-> | Hex]; [reflexivity | exact Hex]. }
  clear Hex.
  assert (E : existsb (fun r => search r (join [32%N] ws)) rs = true
              <-> exists e, In e (flat_map expand rs)
                            /\ search (seq_of e) (join [32%N] ws) = true).
  { rewrite (existsb_same _ (fun r => existsb (fun e => search (seq_of e) (join [32%N] ws))
                                        (expand r)))
      by (intros; apply expand_search).
    rewrite <- existsb_flat_map. apply existsb_exists. }
  rewrite E. rewrite Forall_forall in Hph, Hot. split.
  - intros (e & He & Hs). apply Hex', in_map_iff in He. destruct He as (w & <- & Hw).
    rewrite seq_of_phrase in Hs. apply in_app_or in Hw. destruct Hw as [Hw | Hw].
    + apply in_map_iff in Hw. destruct Hw as (ps & <- & Hps). exists ps.
      split; [exact Hps |]. destruct (Hph _ Hps) as [Hne Hw].
      now apply (phrase_in_words Hne Hw Hws).
    + exfalso. apply phrase_search_occurs in Hs. destruct Hs as (b & a & Ej).
      pose proof (join_chars Hws) as Hc. rewrite Ej, Forall_forall in Hc.
      destruct (Hc 45%N) as [Hc' | Hc']; [| discriminate Hc' | discriminate Hc'].
      apply in_or_app. right. apply in_or_app. left. now apply Hot.
  - intros (ps & Hps & Hc). exists (phrase_items (join [32%N] ps)). split.
    + apply Hex', in_map, in_or_app. left. now apply in_map.
    + rewrite seq_of_phrase. destruct (Hph _ Hps) as [Hne Hw].
      now apply (phrase_in_words Hne Hw Hws).
Qed.

End Expansion.

Lemma phrase_ok_spec phrases :
  forallb phrase_ok phrases = true ->
  Forall (fun ps => ps <> [] /\ Forall (fun w => is_word w = true) ps) phrases.
Proof.
  intros Hf. apply Forall_forall. intros ps Hps.
  rewrite forallb_forall in Hf. specialize (Hf _ Hps).
  destruct ps as [| w ps]; [discriminate |]. split; [discriminate |].
  apply Forall_forall. now apply forallb_forall.
Qed.

(** The sequences of the primary patterns. *)
Lemma primary_expansion :
  flat_map expand Precise.primary_patterns
  = map phrase_items
      (firstn 19 (map (join [32%N]) primary_phrases)
       ++ hyphenated ++ skipn 19 (map (join [32%N]) primary_phrases)).
Proof. vm_compute. reflexivity. Qed.

(** The sequences of the rules of the broad-recall analyzer. *)
Lemma broad_expansion :
  map (fun lr : text * regex => (fst lr, expand (snd lr))) Broad.compiled_rules
  = map (fun lp : text * list (list text) =>
           (fst lp, map phrase_items (map (join [32%N]) (snd lp)))) broad_phrases.
Proof. vm_compute. reflexivity. Qed.

Section PhraseRules.
Context `{UnicodeTables}.

Lemma primary_on_words ws :
  Forall (fun w => is_word w = true) ws ->
  (existsb (fun r => search r (join [32%N] ws)) Precise.primary_patterns = true
   <-> exists ps, In ps primary_phrases /\ contiguous ps ws).
Proof.
  intros Hws. apply (@rules_on_words _ _ primary_phrases hyphenated ws).
  - right. intros e. rewrite primary_expansion, !in_map_iff.
    split; intros (w & E & Hw); exists w; (split; [exact E |]).
    + rewrite <- (firstn_skipn 19 (map (join [32%N]) primary_phrases)).
      rewrite !in_app_iff in *. tauto.
    + rewrite <- (firstn_skipn 19 (map (join [32%N]) primary_phrases)) in Hw.
      rewrite !in_app_iff in *. tauto.
  - apply phrase_ok_spec. vm_compute. reflexivity.
  - repeat constructor; vm_compute; tauto.
  - exact Hws.
Qed.

Lemma broad_rule_phrases label rx :
  In (label, rx) Broad.compiled_rules ->
  exists pss, In (label, pss) broad_phrases
              /\ expand rx = map phrase_items (map (join [32%N]) pss).
Proof.
  intros Hin.
  apply (in_map (fun lr : text * regex => (fst lr, expand (snd lr)))) in Hin.
  rewrite broad_expansion in Hin. apply in_map_iff in Hin.
  destruct Hin as ([l pss] & E & Hp). cbn [fst snd] in E. injection E as -> E.
  exists pss. split; [exact Hp | now symmetry].
Qed.

Lemma broad_phrases_rule label pss :
  In (label, pss) broad_phrases ->
  exists rx, In (label, rx) Broad.compiled_rules
             /\ expand rx = map phrase_items (map (join [32%N]) pss).
Proof.
  intros Hin.
  apply (in_map (fun lp : text * list (list text) =>
                   (fst lp, map phrase_items (map (join [32%N]) (snd lp))))) in Hin.
  rewrite <- broad_expansion in Hin. apply in_map_iff in Hin.
  destruct Hin as ([l rx] & E & Hr). cbn [fst snd] in E. injection E as -> E.
  exists rx. split; [exact Hr | exact E].
Qed.

Lemma broad_phrases_ok label pss :
  In (label, pss) broad_phrases ->
  Forall (fun ps => ps <> [] /\ Forall (fun w => is_word w = true) ps) pss.
Proof.
  intros Hin. apply phrase_ok_spec.
  assert (A : forallb (fun lp : text * list (list text) => forallb phrase_ok (snd lp))
                      broad_phrases = true) by (vm_compute; reflexivity).
  rewrite forallb_forall in A. exact (A _ Hin).
Qed.

Lemma rule_on_words rx pss ws :
  expand rx = map phrase_items (map (join [32%N]) pss) ->
  Forall (fun ps => ps <> [] /\ Forall (fun w => is_word w = true) ps) pss ->
  Forall (fun w => is_word w = true) ws ->
  (search rx (join [32%N] ws) = true <-> exists ps, In ps pss /\ contiguous ps ws).
Proof.
  intros E Hp Hws.
  rewrite <- (@rules_on_words _ [rx] pss [] ws); [| | exact Hp | constructor | exact Hws].
  - cbn [existsb]. now rewrite orb_false_r.
  - left. cbn [flat_map]. now rewrite !app_nil_r, E.
Qed.

Lemma broad_hits_on_words label ws :
  Forall (fun w => is_word w = true) ws ->
  (In label (Broad.hits (join [32%N] ws))
   <-> exists pss ps, In (label, pss) broad_phrases /\ In ps pss /\ contiguous ps ws).
Proof.
  intros Hws. unfold Broad.hits, Broad.hits_of. rewrite in_map_iff. split.
  - intros ([l rx] & E & Hin). cbn [fst] in E. subst l.
    apply filter_In in Hin. destruct Hin as [Hin Hs]. cbn [snd] in Hs.
    destruct (broad_rule_phrases Hin) as (pss & Hp & Ex).
    apply (@rule_on_words rx pss ws Ex (broad_phrases_ok Hp) Hws) in Hs.
    destruct Hs as (ps & Hps & Hc). now exists pss, ps.
  - intros (pss & ps & Hp & Hps & Hc).
    destruct (broad_phrases_rule Hp) as (rx & Hr & Ex).
    exists (label, rx). split; [reflexivity |]. apply filter_In.
    split; [exact Hr |]. cbn [snd].
    apply (@rule_on_words rx pss ws Ex (broad_phrases_ok Hp) Hws). now exists ps.
Qed.

(** X19: the keyword decision of the precise analyzer on the normalized
    form of any text holds exactly when the words of the text contain,
    one after the other, the words of one of the 23 primary phrases; the
    hyphenated alternatives of the multi-agent pattern never contribute,
    and with fuzzy matching disabled this is the whole AI flag. *)
Theorem precise_keywords_are_phrases `{FuzzyScorer} (args : Precise.Args) (s : text) :
  (Precise.keyword_match (normalize_text s) = true
   <-> exists ps, In ps primary_phrases /\ contiguous ps (words s))
  /\ (forall w, In w hyphenated ->
        search (phrase_pattern w) (normalize_text s) = false)
  /\ (Precise.disable_fuzzy args = true ->
      (Precise.ai_flag args (normalize_text s) = Some true
       <-> exists ps, In ps primary_phrases /\ contiguous ps (words s))).
Proof.
  assert (K : Precise.keyword_match (normalize_text s) = true
              <-> exists ps, In ps primary_phrases /\ contiguous ps (words s)).
  { rewrite keyword_match_primary, matches_any_primary, normalize_text_words.
    apply primary_on_words, words_are_words. }
  split; [exact K |]. split.
  - intros w Hw. destruct (search (phrase_pattern w) (normalize_text s)) eqn:Hs;
      [exfalso | reflexivity].
    apply phrase_search_occurs in Hs. destruct Hs as (b & a & Ej).
    pose proof (join_chars (words_are_words s)) as Hc.
    rewrite <- normalize_text_words, Ej, Forall_forall in Hc.
    assert (H45 : In 45%N w).
    { destruct Hw as [<- | [<- | []]]; vm_compute; tauto. }
    destruct (Hc 45%N) as [Hc' | Hc']; [| discriminate Hc' | discriminate Hc'].
    apply in_or_app. right. apply in_or_app. now left.
  - intros Hd. rewrite <- K. unfold Precise.ai_flag, Precise.fuzzy_match.
    rewrite Hd. destruct (Precise.keyword_match (normalize_text s));
      split; intros E; try reflexivity; try discriminate E.
Qed.

(** X20: in the broad-recall analyzer a label is among the hits of the
    normalized form of a text exactly when the words of the text contain,
    one after the other, the words of one of the phrases of a rule with
    that label; the text is matched exactly when this holds for some
    label. *)
Theorem broad_hits_are_phrases `{FuzzyScorer} (s : text) :
  (forall label,
     In label (Broad.hits (normalize_text s))
     <-> exists pss ps, In (label, pss) broad_phrases /\ In ps pss
                        /\ contiguous ps (words s))
  /\ (Broad.matched (normalize_text s) = true
      <-> exists label pss ps, In (label, pss) broad_phrases /\ In ps pss
                               /\ contiguous ps (words s)).
Proof.
  assert (A : forall label,
     In label (Broad.hits (normalize_text s))
     <-> exists pss ps, In (label, pss) broad_phrases /\ In ps pss
                        /\ contiguous ps (words s)).
  { intros label. rewrite normalize_text_words.
    apply broad_hits_on_words, words_are_words. }
  split; [exact A |]. unfold Broad.matched. split.
  - destruct (Broad.hits (normalize_text s)) as [| l hs] eqn:E; [discriminate |].
    intros _. exists l. apply A. now left.
  - intros (label & Hl). apply A in Hl.
    destruct (Broad.hits (normalize_text s)); [contradiction | reflexivity].
Qed.

End PhraseRules.

(** * The scraper *)

(** ** The links of a results page *)

Lemma absolute_not_empty href : href <> [] -> Scraper.absolute href <> [].
Proof.
  unfold Scraper.absolute. destruct (starts_with (codes "course?") href);
    [discriminate | tauto].
Qed.

Lemma collect_links_in hrefs l :
  In l (Scraper.collect_links hrefs)
  <-> exists href, href <> [] /\ In (Some href) hrefs /\ l = Scraper.absolute href.
Proof.
  induction hrefs as [| [[| c h] |] rest IH]; cbn [Scraper.collect_links].
  - split; [contradiction | intros (h & _ & [] & _)].
  - rewrite IH. split.
    + intros (h & Hne & Hin & E). exists h. split; [exact Hne |]. split; [now right | exact E].
    + intros (h & Hne & [E' | Hin] & E); [congruence | eauto].
  - cbn [In]. rewrite IH. split.
    + intros [<- | (h' & Hne & Hin & E)].
      * exists (c :: h). split; [discriminate |]. split; [now left | reflexivity].
      * exists h'. split; [exact Hne |]. split; [now right | exact E].
    + intros (h' & Hne & [E' | Hin] & E).
      * left. injection E' as <-. now symmetry.
      * right. eauto.
  - rewrite IH. split.
    + intros (h & Hne & Hin & E). exists h. split; [exact Hne |]. split; [now right | exact E].
    + intros (h & Hne & [E' | Hin] & E); [discriminate | eauto].
Qed.

Lemma sorted_links hrefs :
  is_link_list (Broad.sorted_set (Scraper.collect_links hrefs)).
Proof.
  split; [apply sorted_set_sorted |]. split; [apply sorted_set_nodup |].
  apply Forall_forall. intros l Hl. apply sorted_set_in, collect_links_in in Hl.
  destruct Hl as (h & Hne & _ & ->). now apply absolute_not_empty.
Qed.

Section ScraperLinks.
Context `{Scraper.Browser}.

Lemma get_course_links_from_spec prefix term_code : forall retries request,
  exists last,
    Scraper.get_course_links_from (S retries) request prefix term_code
    = (S last, links_of_page (Scraper.results_at last prefix term_code))
    /\ request <= last <= request + retries
    /\ (forall n, request <= n < last ->
                  Scraper.results_at n prefix term_code = Scraper.TimedOut)
    /\ (Scraper.results_at last prefix term_code = Scraper.TimedOut ->
        last = request + retries).
Proof.
  induction retries as [| r IH]; intros request.
  - exists request. cbn [Scraper.get_course_links_from].
    split; [now destruct (Scraper.results_at request prefix term_code) |].
    split; [lia |]. split; [intros n Hn; lia | intros _; lia].
  - cbn [Scraper.get_course_links_from].
    destruct (Scraper.results_at request prefix term_code) eqn:E.
    + destruct (IH (S request)) as (last & E' & Hb & Ht & Hl).
      exists last. split; [exact E' |]. split; [lia |]. split.
      * intros n Hn. destruct (Nat.eq_dec n request) as [-> | Hne]; [exact E |].
        apply Ht. lia.
      * intros Hlast. specialize (Hl Hlast). lia.
    + exists request. rewrite E. split; [reflexivity |]. split; [lia |].
      split; [intros n Hn; lia | discriminate].
    + exists request. rewrite E. split; [reflexivity |]. split; [lia |].
      split; [intros n Hn; lia | discriminate].
    + exists request. rewrite E. split; [reflexivity |]. split; [lia |].
      split; [intros n Hn; lia | discriminate].
Qed.

Lemma get_course_links_list request prefix term_code retries links :
  snd (Scraper.get_course_links request prefix term_code retries) = Some links ->
  is_link_list links.
Proof.
  unfold Scraper.get_course_links.
  destruct (get_course_links_from_spec prefix term_code retries request)
    as (last & -> & _). cbn [snd].
  destruct (Scraper.results_at last prefix term_code); cbn [links_of_page];
    intros E; try discriminate E; injection E as <-;
    try (split; [constructor | split; constructor]).
  apply sorted_links.
Qed.

(** X21: [get_course_links] loads the results page again only after a
    timeout, at most [retries] more times, and answers from the page of
    its last request: no links when that request timed out too or the
    page says that no courses were found, otherwise the links of the
    page that are not empty, made absolute, sorted and without
    repetition; an exception that is not a timeout leaves the function. *)
Theorem get_course_links_answers_from_last_page
        (request : nat) (prefix : text) (term_code : Z) (retries : nat) :
  exists last,
    Scraper.get_course_links request prefix term_code retries
    = (S last, links_of_page (Scraper.results_at last prefix term_code))
    /\ request <= last <= request + retries
    /\ (forall n, request <= n < last ->
                  Scraper.results_at n prefix term_code = Scraper.TimedOut)
    /\ (Scraper.results_at last prefix term_code = Scraper.TimedOut ->
        last = request + retries)
    /\ (forall links,
          links_of_page (Scraper.results_at last prefix term_code) = Some links ->
          is_link_list links
          /\ forall l, In l links
               <-> exists hrefs href,
                     Scraper.results_at last prefix term_code = Scraper.Anchors hrefs
                     /\ href <> [] /\ In (Some href) hrefs
                     /\ l = Scraper.absolute href).
Proof.
  destruct (get_course_links_from_spec prefix term_code retries request)
    as (last & E & Hb & Ht & Hl).
  exists last. split; [exact E |]. split; [exact Hb |]. split; [exact Ht |].
  split; [exact Hl |]. intros links Hlinks. split.
  - apply (@get_course_links_list request prefix term_code retries).
    unfold Scraper.get_course_links. now rewrite E.
  - intros l. destruct (Scraper.results_at last prefix term_code) as [| | hrefs |];
      cbn [links_of_page] in Hlinks; try discriminate Hlinks; injection Hlinks as <-.
    + split; [contradiction | intros (hs & h & Ea & _); discriminate Ea].
    + split; [contradiction | intros (hs & h & Ea & _); discriminate Ea].
    + rewrite sorted_set_in, collect_links_in. split.
      * intros (h & Hne & Hin & El). now exists hrefs, h.
      * intros (hs & h & Ea & Hne & Hin & El). injection Ea as <-. now exists h.
Qed.

End ScraperLinks.

(** ** The rows of a run *)

Lemma dict_set_fresh d link row :
  ~ In link (map fst d) -> Scraper.dict_set d link row = d ++ [(link, row)].
Proof.
  induction d as [| [k v] d IH]; intros Hn; [reflexivity |].
  cbn [Scraper.dict_set]. destruct (text_eqb k link) eqn:E.
  - apply text_eqb_eq in E. exfalso. apply Hn. now left.
  - cbn [app]. f_equal. apply IH. intros Hin. apply Hn. now right.
Qed.

Lemma for_each_invariant (X Y : Type) (body : X -> Y -> Scraper.progress X)
      (P : X -> Prop) (Q : Scraper.State -> Prop) (D : Y -> Prop) :
  (forall x y, P x -> D y ->
     match body x y with Scraper.Continue x' => P x' | Scraper.Raise s => Q s end) ->
  forall l x, Forall D l -> P x ->
    match Scraper.for_each body l x with
    | Scraper.Continue x' => P x'
    | Scraper.Raise s => Q s
    end.
Proof.
  intros Hb. induction l as [| y l IH]; intros x Hl Hx; [exact Hx |].
  cbn [Scraper.for_each]. inversion Hl as [| ? ? Hy Hl']; subst.
  pose proof (Hb x y Hx Hy) as Hs. destruct (body x y) as [x' | s]; [| exact Hs].
  now apply IH.
Qed.

Section ScraperRun.
Context `{Scraper.Browser}.
Variable existing_urls : list text.

Lemma invariant_tick overwrite n s : run_invariant overwrite existing_urls n s -> run_invariant overwrite existing_urls n (Scraper.tick s).
Proof. intros [I1 I2 I3 I4 I5 I6]. now constructor. Qed.

Lemma invariant_set_clock overwrite n request s :
  run_invariant overwrite existing_urls n s -> run_invariant overwrite existing_urls n (Scraper.set_clock request s).
Proof. intros [I1 I2 I3 I4 I5 I6]. now constructor. Qed.

Lemma invariant_log overwrite n e s : run_invariant overwrite existing_urls n s -> run_invariant overwrite existing_urls n (Scraper.log_empty e s).
Proof. intros [I1 I2 I3 I4 I5 I6]. now constructor. Qed.

Lemma invariant_add_new overwrite n s : run_invariant overwrite existing_urls n s -> run_invariant overwrite existing_urls 0 (Scraper.add_new n s).
Proof.
  intros [I1 I2 I3 I4 I5 I6]. constructor; try assumption.
  unfold written in *. cbn [Scraper.add_new Scraper.new_total Scraper.existing_rows
                            Scraper.appended] in *.
  lia.
Qed.

Lemma invariant_record overwrite n s link page label :
  run_invariant overwrite existing_urls n s ->
  link <> [] ->
  (exists t, In t Scraper.TERM_CODES /\ label = fst t) ->
  existsb (text_eqb link) (Scraper.seen_urls s) = false ->
  run_invariant overwrite existing_urls (S n)
    (Scraper.record_course overwrite link (Scraper.scrape_course page link label) s).
Proof.
  intros [I1 I2 I3 I4 I5 I6] Hne Hl Hnew.
  assert (Hnot : ~ In link (Scraper.seen_urls s)).
  { intros Hin. apply not_true_iff_false in Hnew. apply Hnew.
    apply existsb_exists. exists link. split; [exact Hin | now apply text_eqb_eq]. }
  assert (Hrow : is_scraped_row (Scraper.scrape_course page link label))
    by (split; [exact Hne | exact Hl]).
  unfold Scraper.record_course, written in *. destruct overwrite.
  - assert (Hk : ~ In link (map fst (Scraper.existing_rows s))).
    { intros Hin. apply Hnot. rewrite I1, <- I3. apply in_or_app. left.
      now apply in_rev in Hin. }
    constructor; cbn; rewrite ?(@dict_set_fresh _ _ _ Hk).
    + rewrite !map_app, rev_app_distr. cbn. now rewrite I1.
    + now constructor.
    + rewrite !map_app. cbn. now rewrite I3.
    + exact I4.
    + rewrite !map_app, length_app. cbn. lia.
    + rewrite map_app. apply Forall_app. split; [exact I6 | now constructor].
  - constructor; cbn.
    + rewrite !map_app, rev_app_distr. cbn. now rewrite I1.
    + now constructor.
    + exact I3.
    + exact I4.
    + rewrite length_app. cbn. lia.
    + apply Forall_app. split; [exact I6 | now constructor].
Qed.

Lemma scrape_link_invariant overwrite label sn link :
  (exists t, In t Scraper.TERM_CODES /\ label = fst t) ->
  run_invariant overwrite existing_urls (snd sn) (fst sn) -> link <> [] ->
  match Scraper.scrape_link overwrite label sn link with
  | Scraper.Continue sn' => run_invariant overwrite existing_urls (snd sn') (fst sn')
  | Scraper.Raise s => exists n, run_invariant overwrite existing_urls n s
  end.
Proof.
  intros Hl Hi Hne. destruct sn as [s n]. cbn [fst snd] in Hi.
  unfold Scraper.scrape_link.
  destruct (existsb (text_eqb link) (Scraper.seen_urls s)) eqn:Hseen; [exact Hi |].
  destruct (Scraper.course_at (Scraper.clock s) link) as [page | | |].
  - cbn [fst snd]. apply invariant_record; auto using invariant_tick.
  - destruct (Scraper.make_driver_at (S (Scraper.clock s)));
      [cbn [fst snd] | exists n]; auto using invariant_tick.
  - cbn [fst snd]. auto using invariant_tick.
  - exists n. auto using invariant_tick.
Qed.

Lemma scrape_prefix_invariant overwrite label code s prefix :
  (exists t, In t Scraper.TERM_CODES /\ label = fst t) ->
  run_invariant overwrite existing_urls 0 s ->
  match Scraper.scrape_prefix overwrite label code s prefix with
  | Scraper.Continue s' => run_invariant overwrite existing_urls 0 s'
  | Scraper.Raise s' => exists n, run_invariant overwrite existing_urls n s'
  end.
Proof.
  intros Hl Hi. unfold Scraper.scrape_prefix.
  destruct (Scraper.get_course_links (Scraper.clock s) prefix code 2)
    as [request [links |]] eqn:E.
  - assert (Hlinks : is_link_list links).
    { apply (@get_course_links_list _ (Scraper.clock s) prefix code 2). now rewrite E. }
    destruct links as [| l links]; [auto using invariant_log, invariant_set_clock |].
    destruct Hlinks as (_ & _ & Hne).
    pose proof (@for_each_invariant _ _ (Scraper.scrape_link overwrite label)
                  (fun sn => run_invariant overwrite existing_urls (snd sn) (fst sn))
                  (fun s' => exists n, run_invariant overwrite existing_urls n s')
                  (fun link => link <> [])
                  (fun sn link Hs Hk => @scrape_link_invariant overwrite label sn link Hl Hs Hk)
                  (l :: links) (Scraper.set_clock request s, 0) Hne
                  (invariant_set_clock request Hi)) as Hrun.
    destruct (Scraper.for_each (Scraper.scrape_link overwrite label) (l :: links)
                               (Scraper.set_clock request s, 0)) as [[s' n] | s'];
      [| exact Hrun].
    cbn [fst snd] in Hrun. destruct n as [| n]; [exact Hrun |].
    cbn [Nat.ltb Nat.leb]. now apply invariant_add_new.
  - exists 0. now apply invariant_set_clock.
Qed.

Lemma scrape_term_invariant overwrite prefixes s t :
  In t Scraper.TERM_CODES ->
  run_invariant overwrite existing_urls 0 s ->
  match Scraper.scrape_term overwrite prefixes s t with
  | Scraper.Continue s' => run_invariant overwrite existing_urls 0 s'
  | Scraper.Raise s' => exists n, run_invariant overwrite existing_urls n s'
  end.
Proof.
  intros Ht Hi. unfold Scraper.scrape_term.
  apply (@for_each_invariant _ _ (Scraper.scrape_prefix overwrite (fst t) (snd t))
           (run_invariant overwrite existing_urls 0) (fun s' => exists n, run_invariant overwrite existing_urls n s') (fun _ => True)).
  - intros x y Hx _. apply scrape_prefix_invariant; [now exists t | exact Hx].
  - apply Forall_forall. tauto.
  - exact Hi.
Qed.

Lemma run_invariant_holds overwrite prefixes s :
  run_invariant overwrite existing_urls 0 s ->
  match Scraper.for_each (Scraper.scrape_term overwrite prefixes) Scraper.TERM_CODES s with
  | Scraper.Continue s' => run_invariant overwrite existing_urls 0 s'
  | Scraper.Raise s' => exists n, run_invariant overwrite existing_urls n s'
  end.
Proof.
  intros Hi.
  apply (@for_each_invariant _ _ (Scraper.scrape_term overwrite prefixes)
           (run_invariant overwrite existing_urls 0) (fun s' => exists n, run_invariant overwrite existing_urls n s')
           (fun t => In t Scraper.TERM_CODES)).
  - intros x y Hx Hy. now apply scrape_term_invariant.
  - apply Forall_forall. tauto.
  - exact Hi.
Qed.

End ScraperRun.

Lemma set_in (l : list text) x : In x (drop_duplicates (fun u => u) text_eqb l) <-> In x l.
Proof.
  rewrite (drop_duplicates_in (fun l => l) text_eqb text_eqb_eq). split.
  - intros Hf. now apply (first_of_some (fun l => l) text_eqb text_eqb_eq) in Hf.
  - intros Hl. destruct (first_of_in (fun l => l) text_eqb text_eqb_eq x _ Hl) as (y & Hy).
    rewrite Hy. f_equal. now apply (first_of_some (fun l => l) text_eqb text_eqb_eq) in Hy.
Qed.

Lemma set_nodup (l : list text) : NoDup (drop_duplicates (fun u => u) text_eqb l).
Proof.
  rewrite <- (map_id (drop_duplicates _ _ _)).
  apply (drop_duplicates_from_nodup (fun l => l) text_eqb text_eqb_eq).
Qed.

Lemma set_app_fresh (l2 : list text) : forall l1 seen,
  NoDup l2 -> (forall y, In y l2 -> ~ In y l1 /\ ~ In y seen) ->
  drop_duplicates_from (fun u => u) text_eqb seen (l1 ++ l2)
  = drop_duplicates_from (fun u => u) text_eqb seen l1 ++ l2.
Proof.
  induction l1 as [| x l1 IH]; intros seen Hn Hf.
  - cbn [app drop_duplicates_from].
    apply (drop_duplicates_from_distinct (fun u => u) text_eqb text_eqb_eq).
    + now rewrite map_id.
    + intros y Hy. now apply Hf.
  - cbn [app drop_duplicates_from].
    destruct (existsb (text_eqb x) seen).
    + apply IH; [exact Hn |]. intros y Hy. destruct (Hf y Hy) as [H1 H2].
      split; [| exact H2]. intros Hin. apply H1. now right.
    + cbn [app]. f_equal. apply IH; [exact Hn |]. intros y Hy.
      destruct (Hf y Hy) as [H1 H2]. split.
      * intros Hin. apply H1. now right.
      * intros [E | Hin]; [apply H1; now left | now apply H2].
Qed.

Lemma nodup_rev_app (a b : list text) :
  NoDup (rev a ++ b) -> NoDup a /\ forall x, In x a -> ~ In x b.
Proof.
  intros Hn. split.
  - apply NoDup_app_remove_r in Hn. apply NoDup_rev in Hn. now rewrite rev_involutive in Hn.
  - intros x Ha Hb. revert Hn Ha Hb. generalize (rev a) (in_rev a x). intros r Hr Hn Ha Hb.
    apply Hr in Ha. clear Hr. induction r as [| y r IH]; [contradiction |].
    cbn [app] in Hn. inversion Hn as [| ? ? Hy Hn']; subst.
    destruct Ha as [-> | Ha]; [| now apply IH].
    apply Hy. apply in_or_app. now right.
Qed.

Lemma filter_all (X : Type) (f : X -> bool) l :
  Forall (fun x => f x = true) l -> filter f l = l.
Proof.
  induction 1 as [| x l Hx Hl IH]; [reflexivity |]. cbn [filter]. now rewrite Hx, IH.
Qed.

Lemma load_existing_urls_nodup file : NoDup (Scraper.load_existing_urls file).
Proof. destruct file as [rows |]; [apply set_nodup | constructor]. Qed.

Lemma load_existing_urls_in file u :
  In u (Scraper.load_existing_urls file)
  <-> u <> [] /\ exists row, In row (Scraper.rows_of file) /\ Scraper.url row = u.
Proof.
  destruct file as [rows |]; cbn [Scraper.load_existing_urls Scraper.rows_of].
  - rewrite set_in, filter_In, in_map_iff. split.
    + intros [(row & E & Hr) Hne]. split; [| eauto]. intros N. rewrite N in Hne. discriminate.
    + intros (Hne & row & Hr & E). split; [eauto |]. now destruct u.
  - split; [contradiction | intros (_ & row & [] & _)].
Qed.

Lemma load_after_append file added :
  NoDup (map Scraper.url added) ->
  Forall (fun c => Scraper.url c <> []
                   /\ ~ In (Scraper.url c) (Scraper.load_existing_urls file)) added ->
  Scraper.load_existing_urls (Some (Scraper.rows_of file ++ added))
  = Scraper.load_existing_urls file ++ map Scraper.url added.
Proof.
  intros Hn Hf. cbn [Scraper.load_existing_urls].
  rewrite map_app, filter_app.
  rewrite (@filter_all _ not_empty (map Scraper.url added)).
  - unfold drop_duplicates. rewrite set_app_fresh.
    + f_equal. now destruct file.
    + exact Hn.
    + intros y Hy. split; [| tauto]. apply in_map_iff in Hy.
      destruct Hy as (c & <- & Hc). rewrite Forall_forall in Hf.
      destruct (Hf c Hc) as [Hne Hnew]. intros Hin. apply Hnew.
      apply load_existing_urls_in. split; [exact Hne |].
      apply filter_In in Hin. destruct Hin as [Hin _]. apply in_map_iff in Hin.
      destruct Hin as (row & E & Hr). eauto.
  - apply Forall_forall. intros u Hu. apply in_map_iff in Hu.
    destruct Hu as (c & <- & Hc). rewrite Forall_forall in Hf.
    destruct (Hf c Hc) as [Hne _]. now destruct (Scraper.url c).
Qed.

Section ScraperTheorems.
Context `{Scraper.Browser}.

Lemma start_invariant overwrite existing_urls log :
  NoDup existing_urls ->
  run_invariant overwrite existing_urls 0
    {| Scraper.clock := 0; Scraper.seen_urls := existing_urls;
       Scraper.existing_rows := []; Scraper.appended := [];
       Scraper.empty_log := log; Scraper.new_total := 0 |}.
Proof. intros Hn. constructor; unfold written; destruct overwrite; cbn; auto. Qed.

Lemma invariant_rows overwrite existing_urls n s :
  run_invariant overwrite existing_urls n s ->
  NoDup (map Scraper.url (written overwrite s))
  /\ Forall (fun c => is_scraped_row c /\ ~ In (Scraper.url c) existing_urls)
            (written overwrite s).
Proof.
  intros [I1 I2 I3 I4 I5 I6]. rewrite I1 in I2. apply nodup_rev_app in I2.
  destruct I2 as [Hn Hd]. split; [exact Hn |].
  apply Forall_forall. intros c Hc. rewrite Forall_forall in I6.
  split; [now apply I6 |]. apply Hd. now apply in_map.
Qed.

(** X22: a run of the scraper without [--overwrite], whatever the browser
    shows and whether the run reaches its end or an exception leaves it,
    leaves the rows of the course file in place and adds rows after them.
    The links of the added rows are not empty, differ from each other and
    from every link that was in the file, and each added row carries the
    label of one of the terms.  The total that a finished run prints is
    the number of distinct links of the old file plus the number of added
    rows, and it is the number of links that the next run loads from the
    file. *)
Theorem append_run_adds_new_links
        (prefixes : list text) (courses : option (list Scraper.Course)) (log : csv_file) :
  exists added,
    Scraper.courses_csv (Scraper.main false prefixes courses log)
    = Some (Scraper.rows_of courses ++ added)
    /\ NoDup (map Scraper.url added)
    /\ Forall (fun c => is_scraped_row c
                        /\ ~ In (Scraper.url c) (Scraper.load_existing_urls courses))
              added
    /\ Scraper.load_existing_urls (Scraper.courses_csv (Scraper.main false prefixes courses log))
       = Scraper.load_existing_urls courses ++ map Scraper.url added
    /\ (forall n, Scraper.total (Scraper.main false prefixes courses log) = Some n ->
          n = List.length (Scraper.load_existing_urls courses) + List.length added
          /\ n = List.length (Scraper.load_existing_urls
                                (Scraper.courses_csv (Scraper.main false prefixes courses log)))).
Proof.
  unfold Scraper.main.
  pose proof (@run_invariant_holds _ _ false prefixes _
                (start_invariant false log (load_existing_urls_nodup courses))) as Hrun.
  match type of Hrun with match ?run with _ => _ end => destruct run as [s | s] end.
  - exists (Scraper.appended s). cbn [Scraper.courses_csv Scraper.total].
    destruct (invariant_rows Hrun) as [Hn Hf]. unfold written in Hn, Hf.
    assert (Hl : Scraper.load_existing_urls (Some (Scraper.rows_of courses ++ Scraper.appended s))
                 = Scraper.load_existing_urls courses ++ map Scraper.url (Scraper.appended s)).
    { apply load_after_append; [exact Hn |]. revert Hf. apply Forall_impl.
      intros c [[Hne _] Hnew]. now split. }
    split; [reflexivity |]. split; [exact Hn |]. split; [exact Hf |].
    split; [exact Hl |]. intros n E. injection E as <-.
    destruct Hrun as [_ _ _ _ I5 _]. unfold written in I5.
    rewrite Hl, length_app, length_map. lia.
  - exists (Scraper.appended s). cbn [Scraper.courses_csv Scraper.total].
    destruct Hrun as (n & Hrun).
    destruct (invariant_rows Hrun) as [Hn Hf]. unfold written in Hn, Hf.
    split; [reflexivity |]. split; [exact Hn |]. split; [exact Hf |]. split.
    + apply load_after_append; [exact Hn |]. revert Hf. apply Forall_impl.
      intros c [[Hne _] Hnew]. now split.
    + intros k E. discriminate E.
Qed.

(** X23: a run of the scraper with [--overwrite] writes the course file
    only at its end: when an exception leaves the run the file is as it
    was, whatever had been scraped.  A finished run prints the number of
    scraped rows as its total; their links are not empty and differ from
    each other, and the file holds exactly these rows, unless there is
    none: then the file is left as it was, although the total is 0. *)
Theorem overwrite_run_writes_at_the_end
        (prefixes : list text) (courses : option (list Scraper.Course)) (log : csv_file) :
  (Scraper.total (Scraper.main true prefixes courses log) = None ->
   Scraper.courses_csv (Scraper.main true prefixes courses log) = courses)
  /\ (forall n, Scraper.total (Scraper.main true prefixes courses log) = Some n ->
        exists rows,
          List.length rows = n
          /\ NoDup (map Scraper.url rows)
          /\ Forall is_scraped_row rows
          /\ Scraper.courses_csv (Scraper.main true prefixes courses log)
             = match rows with [] => courses | _ => Some rows end).
Proof.
  unfold Scraper.main.
  pose proof (@run_invariant_holds _ _ true prefixes _
                (start_invariant true log (NoDup_nil text))) as Hrun.
  match type of Hrun with match ?run with _ => _ end => destruct run as [s | s] end;
    cbn [Scraper.courses_csv Scraper.total].
  - split; [discriminate |]. intros n E. injection E as <-.
    exists (map snd (Scraper.existing_rows s)).
    destruct (invariant_rows Hrun) as [Hn Hf]. unfold written in Hn, Hf.
    split; [apply length_map |]. split; [exact Hn |]. split.
    + revert Hf. apply Forall_impl. tauto.
    + unfold Scraper.write_csv. now destruct (Scraper.existing_rows s).
  - split; [reflexivity | discriminate].
Qed.

(** ** The file of the empty prefixes *)

Lemma links_keep_log overwrite label links : forall sn,
  match Scraper.for_each (Scraper.scrape_link overwrite label) links sn with
  | Scraper.Continue sn' => Scraper.empty_log (fst sn') = Scraper.empty_log (fst sn)
  | Scraper.Raise s' => Scraper.empty_log s' = Scraper.empty_log (fst sn)
  end.
Proof.
  induction links as [| link links IH]; intros [s n]; [reflexivity |].
  cbn [Scraper.for_each]. unfold Scraper.scrape_link at 1.
  destruct (existsb (text_eqb link) (Scraper.seen_urls s)); [apply IH |].
  destruct (Scraper.course_at (Scraper.clock s) link) as [page | | |].
  - match goal with |- match Scraper.for_each _ _ ?x with _ => _ end =>
      specialize (IH x); destruct (Scraper.for_each _ links x) as [sn' | s'] end;
      rewrite IH; cbn [fst]; unfold Scraper.record_course; now destruct overwrite.
  - destruct (Scraper.make_driver_at (S (Scraper.clock s))); [| reflexivity].
    match goal with |- match Scraper.for_each _ _ ?x with _ => _ end =>
      specialize (IH x); destruct (Scraper.for_each _ links x) as [sn' | s'] end;
      now rewrite IH.
  - match goal with |- match Scraper.for_each _ _ ?x with _ => _ end =>
      specialize (IH x); destruct (Scraper.for_each _ links x) as [sn' | s'] end;
      now rewrite IH.
  - reflexivity.
Qed.

Section Steady.
Hypothesis steady :
  forall n prefix code, Scraper.results_at n prefix code = Scraper.results_at 0 prefix code.

Lemma steady_links prefix code : forall attempts r1 r2,
  snd (Scraper.get_course_links_from attempts r1 prefix code)
  = snd (Scraper.get_course_links_from attempts r2 prefix code).
Proof.
  induction attempts as [| a IH]; intros r1 r2; [reflexivity |].
  cbn [Scraper.get_course_links_from]. rewrite (steady r1), (steady r2).
  destruct (Scraper.results_at 0 prefix code); try reflexivity.
  destruct a; [reflexivity | apply IH].
Qed.

Lemma scrape_prefix_log overwrite t s prefix s' :
  Scraper.scrape_prefix overwrite (fst t) (snd t) s prefix = Scraper.Continue s' ->
  Scraper.empty_log s'
  = fold_left log_empty_prefix (if no_links t prefix then [empty_entry t prefix] else [])
              (Scraper.empty_log s).
Proof.
  unfold Scraper.scrape_prefix, no_links, Scraper.get_course_links.
  rewrite (steady_links prefix (snd t) 3 0 (Scraper.clock s)).
  destruct (Scraper.get_course_links_from 3 (Scraper.clock s) prefix (snd t))
    as [request [links |]]; cbn [snd]; [| discriminate].
  destruct links as [| l links].
  - intros E. injection E as <-. reflexivity.
  - pose proof (links_keep_log overwrite (fst t) (l :: links)
                               (Scraper.set_clock request s, 0)) as Hk.
    destruct (Scraper.for_each (Scraper.scrape_link overwrite (fst t)) (l :: links)
                               (Scraper.set_clock request s, 0)) as [[s1 n] | s1];
      [| discriminate].
    intros E. injection E as <-. cbn [fst] in Hk. cbn [fold_left].
    now destruct (0 <? n).
Qed.

Lemma for_each_log (X Y : Type) (body : X -> Y -> Scraper.progress X)
      (log_of : X -> csv_file) (entries : Y -> list EmptyPrefix) :
  (forall x y x', body x y = Scraper.Continue x' ->
                  log_of x' = fold_left log_empty_prefix (entries y) (log_of x)) ->
  forall l x x', Scraper.for_each body l x = Scraper.Continue x' ->
                 log_of x' = fold_left log_empty_prefix (flat_map entries l) (log_of x).
Proof.
  intros Hb. induction l as [| y l IH]; intros x x' E.
  - injection E as <-. reflexivity.
  - cbn [Scraper.for_each] in E. destruct (body x y) as [x1 | s] eqn:E1; [| discriminate].
    cbn [flat_map]. rewrite fold_left_app, <- (Hb _ _ _ E1). now apply IH.
Qed.

Lemma run_log overwrite prefixes s s' :
  Scraper.for_each (Scraper.scrape_term overwrite prefixes) Scraper.TERM_CODES s
  = Scraper.Continue s' ->
  Scraper.empty_log s'
  = fold_left log_empty_prefix (empty_entries prefixes) (Scraper.empty_log s).
Proof.
  apply (@for_each_log _ _ (Scraper.scrape_term overwrite prefixes) Scraper.empty_log
           (fun t => flat_map (fun p => if no_links t p then [empty_entry t p] else [])
                              prefixes)).
  intros x t x'. unfold Scraper.scrape_term.
  apply (@for_each_log _ _ (Scraper.scrape_prefix overwrite (fst t) (snd t))
           Scraper.empty_log
           (fun p => if no_links t p then [empty_entry t p] else [])).
  intros y p y'. apply scrape_prefix_log.
Qed.

Lemma empty_entries_in prefixes e :
  In e (empty_entries prefixes)
  <-> exists t p, In t Scraper.TERM_CODES /\ In p prefixes
                  /\ no_links t p = true /\ e = empty_entry t p.
Proof.
  unfold empty_entries. rewrite in_flat_map. split.
  - intros (t & Ht & Hin). apply in_flat_map in Hin. destruct Hin as (p & Hp & Hin).
    exists t, p. destruct (no_links t p); [| contradiction].
    destruct Hin as [<- | []]. auto.
  - intros (t & p & Ht & Hp & Hn & ->). exists t. split; [exact Ht |].
    apply in_flat_map. exists p. split; [exact Hp |]. rewrite Hn. now left.
Qed.

Lemma finished_log overwrite prefixes courses log n :
  Scraper.total (Scraper.main overwrite prefixes courses log) = Some n ->
  Scraper.empty_prefixes_csv (Scraper.main overwrite prefixes courses log)
  = fold_left log_empty_prefix (empty_entries prefixes) log.
Proof.
  unfold Scraper.main.
  match goal with |- context [Scraper.for_each ?b ?l ?x] =>
    pose proof (@run_log overwrite prefixes x) as Hlog;
    destruct (Scraper.for_each b l x) as [s | s] end.
  - intros _. specialize (Hlog s eq_refl). now destruct overwrite.
  - discriminate.
Qed.

End Steady.

End ScraperTheorems.

Section ScraperLog.
Context `{UnicodeTables} `{Scraper.Browser}.

Lemma term_labels_are_no_headers :
  Forall (fun t : text * Z => is_header (lower (strip (fst t))) = false)
         Scraper.TERM_CODES.
Proof. repeat (constructor; [vm_compute; reflexivity |]). constructor. Qed.

(** X24: when the site answers a results page the same way at every
    request and the run of the scraper reaches its end, the run adds to
    the file of the empty prefixes one row for every term and prefix for
    which [get_course_links] finds no link, terms first, with the error
    "empty".  Starting from no file, [read_empty_prefixes] of the legacy
    analyzer reads this file as the prefixes, without the spaces around
    them and if anything is left, that have no link in at least one
    term: a prefix with courses in one term and none in the other is
    reported as a gap. *)
Theorem finished_run_logs_gaps (overwrite : bool) (prefixes : list text)
        (courses : option (list Scraper.Course)) (log : csv_file) (n : nat) :
  (forall k prefix code,
     Scraper.results_at k prefix code = Scraper.results_at 0 prefix code) ->
  Scraper.total (Scraper.main overwrite prefixes courses log) = Some n ->
  Scraper.empty_prefixes_csv (Scraper.main overwrite prefixes courses log)
  = fold_left log_empty_prefix (empty_entries prefixes) log
  /\ (forall e, In e (empty_entries prefixes)
                <-> exists t p, In t Scraper.TERM_CODES /\ In p prefixes
                                /\ no_links t p = true /\ e = empty_entry t p)
  /\ (log = None ->
      forall p,
        In p (read_empty_prefixes
                (Scraper.empty_prefixes_csv (Scraper.main overwrite prefixes courses log)))
        <-> p <> [] /\ exists t q, In t Scraper.TERM_CODES /\ In q prefixes
                                   /\ no_links t q = true /\ strip q = p).
Proof.
  intros steady Hn.
  pose proof (finished_log steady overwrite prefixes courses log Hn) as E.
  split; [exact E |]. split; [apply empty_entries_in |].
  intros -> p. rewrite E.
  assert (F : Forall (fun e => is_header (lower (strip (term_label e))) = false)
                     (empty_entries prefixes)).
  { apply Forall_forall. intros e He. apply empty_entries_in in He.
    destruct He as (t & q & Ht & _ & _ & ->). cbn [empty_entry term_label].
    pose proof term_labels_are_no_headers as L. rewrite Forall_forall in L.
    now apply L. }
  destruct (@read_logged _ _ F) as [_ R]. rewrite R. split.
  - intros (Hne & e & He & Es). split; [exact Hne |].
    apply empty_entries_in in He. destruct He as (t & q & Ht & Hq & Hl & ->).
    now exists t, q.
  - intros (Hne & t & q & Ht & Hq & Hl & Es). split; [exact Hne |].
    exists (empty_entry t q). split; [| exact Es].
    apply empty_entries_in. now exists t, q.
Qed.

End ScraperLog.

Section ScraperExamples.
#[local] Existing Instance ascii_tables.
#[local] Existing Instance catalog.

(** A run over the prefixes CS and ZZZ: one course is scraped, once, and
    ZZZ is logged in both terms and read as one gap. *)
Lemma catalog_run_logs_gaps :
  let out := Scraper.main false (map codes ["CS"; " ZZZ"]%string) None None in
  Scraper.total out = Some 1
  /\ List.length (Scraper.rows_of (Scraper.courses_csv out)) = 1
  /\ In (codes "ZZZ") (read_empty_prefixes (Scraper.empty_prefixes_csv out)).
Proof.
  intros out.
  assert (S : forall k prefix code,
            Scraper.results_at k prefix code = Scraper.results_at 0 prefix code)
    by reflexivity.
  assert (T : Scraper.total out = Some 1) by (vm_compute; reflexivity).
  split; [exact T |]. split; [vm_compute; reflexivity |].
  destruct (@finished_run_logs_gaps _ _ false (map codes ["CS"; " ZZZ"]%string)
              None None 1 S T) as (_ & _ & R).
  apply (R eq_refl). split; [discriminate |].
  exists (codes "Fall 2025", 1257%Z), (codes " ZZZ").
  split; [now left |]. split; [right; now left |].
  split; vm_compute; reflexivity.
Defined.

End ScraperExamples.
